(** * Bullwhip game: round engine, player strategies and score calculator

    A shallow embedding of [game-engine.js], [player-logic.js] and
    [score-calculator.js].

    Conventions of the embedding.
    - Quantities the engine keeps in entities (inventory, orders, shipments)
      are JavaScript numbers holding integers; they are modelled as [Z].
    - Numbers produced by divisions and by the decimal constants of the source
      (costs, averages, [Math.random()] draws) are modelled as rationals [Q].
      Where the engine takes the floor or the ceiling of a product with an
      inexact decimal constant ([calculateAIOrder], [generateForecast]), the
      operations on doubles are rounded to binary64 by [fl64]; elsewhere the
      arithmetic is exact.
    - [Math.random] is ambient in the source.  It is modelled as an oracle
      [rnd : nat -> Q] together with the number of draws made so far, which
      is threaded with the engine state.
    - [this.entities] is a JavaScript object used as a map from role ids to
      entity objects: a [gmap string Entity.t].  A property access on
      [undefined] throws a [TypeError]; the state reached at the throw is
      kept, as in JavaScript. *)

From Stdlib Require Import ZArith QArith Qround Lia Lqa List Sorted.
From stdpp Require Import base strings gmap list.

Local Open Scope Z_scope.
Local Open Scope string_scope.

(** ** JavaScript arithmetic *)

Definition Math_floor (x : Q) : Z := Qfloor x.
Definition Math_ceil (x : Q) : Z := Qceiling x.
(** [Math.round] rounds halves towards plus infinity. *)
Definition Math_round (x : Q) : Z := Qfloor (x + (1 # 2))%Q.
Definition Math_maxQ (x y : Q) : Q := if Qlt_le_dec x y then y else x.

(** ** Binary64 *)

(** [n / d / 2^e] as a fraction. *)
Definition scaled (e n d : Z) : Z * Z :=
  if decide (0 <= e) then (n, d * 2 ^ e) else (n * 2 ^ (- e), d).

(** The exponent [l] with [2^l <= n / d < 2^(l + 1)], for positive [n] and
    [d]. *)
Definition ilog2 (n d : Z) : Z :=
  let l := Z.log2 n - Z.log2 d in
  if decide ((scaled l n d).1 < (scaled l n d).2) then l - 1 else l.

(** The integer nearest to [n / d], ties to even. *)
Definition roundEven (n d : Z) : Z :=
  let q := n / d in
  let r := n mod d in
  if decide (2 * r < d) then q
  else if decide (d < 2 * r) then q + 1
  else if Z.even q then q else q + 1.

(** The double nearest to the positive rational [n / d]: a 53-bit
    significand, ties to even, gradual underflow below [2^-1022].  Overflow to
    [Infinity] (from [2^1024] on) is not modelled. *)
Definition fl64pos (n d : Z) : Q :=
  let e := Z.max (ilog2 n d - 52) (-1074) in
  let m := roundEven (scaled e n d).1 (scaled e n d).2 in
  if decide (0 <= e) then inject_Z (m * 2 ^ e)
  else Qred (m # Z.to_pos (2 ^ (- e))).

(** The value of a real result as a double; a decimal literal [c] of the
    source is the double [fl64 c]. *)
Definition fl64 (x : Q) : Q :=
  match Qnum (Qred x) with
  | Z0 => 0%Q
  | Zpos p => fl64pos (Zpos p) (Zpos (Qden (Qred x)))
  | Zneg p => (- fl64pos (Zpos p) (Zpos (Qden (Qred x))))%Q
  end.

(** [a.shift()]: the removed head, if any, and the remaining array. *)
Definition shift {A} (l : list A) : option A * list A :=
  match l with
  | [] => (None, [])
  | x :: t => (Some x, t)
  end.

(** [a.push(x)]. *)
Definition push {A} (l : list A) (x : A) : list A := l ++ [x].

(** [v || 0] on a possibly undefined number: [undefined] and [0] both give 0. *)
Definition orZero (v : option Z) : Z := default 0 v.

(** [a.slice(-k)] for [k >= 0]: the last [k] elements. *)
Definition sliceLast {A} (k : nat) (l : list A) : list A :=
  drop (length l - k)%nat l.

(** [a.reduce((a, b) => a + b, 0)]. *)
Definition sumZ (l : list Z) : Z := fold_left Z.add l 0.
Definition sumQ (l : list Q) : Q := fold_left Qplus l 0%Q.

(** [a.indexOf(x)], [-1] when absent. *)
Fixpoint indexOfFrom (i : Z) (x : string) (l : list string) : Z :=
  match l with
  | [] => -1
  | y :: t => if decide (y = x) then i else indexOfFrom (i + 1) x t
  end.
Definition indexOf (l : list string) (x : string) : Z := indexOfFrom 0 x l.

(** [a[i]] for a number [i]: [undefined] outside the array. *)
Definition at_ {A} (l : list A) (i : Z) : option A :=
  if decide (i < 0) then None else l !! Z.to_nat i.

(** ** Data model *)

Module Role.
Record t := mk { id : string; name : string }.
End Role.

Module Entity.
(** The object literal of the constructor.  [stockoutHistory] is a property
    the score calculator reads with optional chaining; the engine never
    defines it. *)
Record t := mk {
  id : string;
  name : string;
  inventory : Z;
  incomingOrders : list Z;
  outgoingOrders : list Z;
  incomingShipments : list Z;
  outgoingShipments : list Z;
  orderHistory : list Z;
  inventoryHistory : list Z;
  stockoutCosts : Q;
  holdingCosts : Q;
  unfulfilledDemand : Z;
  stockoutHistory : option (list Z)
}.

Definition set_outgoingOrders (l : list Z) (e : t) : t :=
  mk e.(id) e.(name) e.(inventory) e.(incomingOrders) l
     e.(incomingShipments) e.(outgoingShipments) e.(orderHistory)
     e.(inventoryHistory) e.(stockoutCosts) e.(holdingCosts)
     e.(unfulfilledDemand) e.(stockoutHistory).

Definition set_incomingShipments (l : list Z) (e : t) : t :=
  mk e.(id) e.(name) e.(inventory) e.(incomingOrders) e.(outgoingOrders)
     l e.(outgoingShipments) e.(orderHistory)
     e.(inventoryHistory) e.(stockoutCosts) e.(holdingCosts)
     e.(unfulfilledDemand) e.(stockoutHistory).

Definition set_incomingOrders (l : list Z) (e : t) : t :=
  mk e.(id) e.(name) e.(inventory) l e.(outgoingOrders)
     e.(incomingShipments) e.(outgoingShipments) e.(orderHistory)
     e.(inventoryHistory) e.(stockoutCosts) e.(holdingCosts)
     e.(unfulfilledDemand) e.(stockoutHistory).
End Entity.

Module Phase.
Record t := mk { min : Z; max : Z; volatility : Q }.
End Phase.

Module PlayerRole.
Record t := mk { round : Z; role : string }.
End PlayerRole.

Module GameEngine.
Record t := mk {
  roles : list Role.t;
  playerName : string;
  currentRound : Z;
  playerRoleHistory : list PlayerRole.t;
  entities : gmap string Entity.t;
  demandTrend : list Phase.t;
  currentDemandPhase : Z
}.

Definition set_entities (m : gmap string Entity.t) (g : t) : t :=
  mk g.(roles) g.(playerName) g.(currentRound) g.(playerRoleHistory) m
     g.(demandTrend) g.(currentDemandPhase).

Definition set_playerRoleHistory (h : list PlayerRole.t) (g : t) : t :=
  mk g.(roles) g.(playerName) g.(currentRound) h g.(entities)
     g.(demandTrend) g.(currentDemandPhase).
End GameEngine.

(** ** Constructor *)

(** [generateDemandTrend]: six loops pushing phase records. *)
Definition generateDemandTrend : list Phase.t :=
  map (fun _ : Z => Phase.mk 4 6 (1 # 10)) [0; 1; 2; 3; 4]
  ++ map (fun i : Z => Phase.mk (5 + i) (7 + i) (15 # 100)) [0; 1; 2; 3]
  ++ map (fun _ : Z => Phase.mk 8 12 (2 # 10)) [0; 1; 2]
  ++ map (fun i : Z => Phase.mk (6 - i) (8 - i) (15 # 100)) [0; 1; 2]
  ++ map (fun _ : Z => Phase.mk 4 6 (1 # 10)) [0; 1; 2]
  ++ map (fun _ : Z => Phase.mk 7 10 (2 # 10)) [0; 1].

Definition newEntity (role : Role.t) : Entity.t :=
  Entity.mk role.(Role.id) role.(Role.name) 12 [] [] [] [] [] [12] 0 0 0 None.

(** [roles.forEach(role => this.entities[role.id] = {...})]: a later role with
    the same id overwrites an earlier one. *)
Definition initEntities (roles : list Role.t) : gmap string Entity.t :=
  fold_left (fun m role => <[role.(Role.id) := newEntity role]> m) roles ∅.

Definition newGameEngine (roles : list Role.t) (playerName : string)
  : GameEngine.t :=
  GameEngine.mk roles playerName 0 [] (initEntities roles)
                generateDemandTrend 0.

(** ** The engine monad: state, ambient randomness and thrown errors *)

Inductive JsError := TypeError.

Module World.
(** The engine object and the number of [Math.random()] calls made. *)
Record t := mk { engine : GameEngine.t; draws : nat }.
End World.

Definition M (A : Type) : Type := World.t -> (JsError + A) * World.t.

Definition ret {A} (a : A) : M A := fun w => (inr a, w).
Definition throw {A} (e : JsError) : M A := fun w => (inl e, w).
Definition bind {A B} (m : M A) (k : A -> M B) : M B :=
  fun w => match m w with
           | (inr a, w') => k a w'
           | (inl e, w') => (inl e, w')
           end.

Notation "x <- m ;; k" := (bind m (fun x => k))
  (at level 90, m at next level, right associativity).
Notation "m ;;; k" := (bind m (fun _ => k))
  (at level 90, right associativity).

(** [a.forEach(f)]. *)
Fixpoint forEach {A} (f : A -> M unit) (l : list A) : M unit :=
  match l with
  | [] => ret tt
  | x :: t => f x ;;; forEach f t
  end.

Inductive Strategy := Conservative | Balanced | Aggressive | Reactive.

(** The result object of [processPlayerOrder]. *)
Module OrderResult.
Record t := mk {
  newInventory : Z;
  stockoutCost : Q;
  holdingCost : Q;
  fulfilled : Z;
  unfulfilled : Z
}.
End OrderResult.

(** The locals [orderToProcess], [fulfilled] and [unfulfilled] of one
    iteration of the loop of [processAIEntities]. *)
Module Quantities.
Record t := mk { orderToProcess : Z; fulfilled : Z; unfulfilled : Z }.
End Quantities.

(** The fulfilment and shipment-receipt statements shared, textually, by
    [processPlayerOrder] (lines 109-119) and [processAIEntities]
    (lines 168-178): the entity after them and the locals. *)
Definition fulfilAndReceive (order : Z) (entity : Entity.t)
  : Entity.t * Quantities.t :=
  let fulfilled := Z.min order entity.(Entity.inventory) in
  let unfulfilled := order - fulfilled in
  let inventory := entity.(Entity.inventory) - fulfilled in
  let unfulfilledDemand := entity.(Entity.unfulfilledDemand) + unfulfilled in
  let '(inventory, incomingShipments) :=
    if decide (2 <= length entity.(Entity.incomingShipments))%nat then
      match shift entity.(Entity.incomingShipments) with
      | (Some shipment, rest) => (inventory + shipment, rest)
      | (None, rest) => (inventory, rest)
      end
    else (inventory, entity.(Entity.incomingShipments)) in
  (Entity.mk entity.(Entity.id) entity.(Entity.name) inventory
     entity.(Entity.incomingOrders) entity.(Entity.outgoingOrders)
     incomingShipments entity.(Entity.outgoingShipments)
     entity.(Entity.orderHistory) entity.(Entity.inventoryHistory)
     entity.(Entity.stockoutCosts) entity.(Entity.holdingCosts)
     unfulfilledDemand entity.(Entity.stockoutHistory),
   Quantities.mk order fulfilled unfulfilled).

(** The order placement and cost statements shared by both paths
    (lines 122-131 and 182-188). *)
Definition placeAndAccrue (quantity : Z) (q : Quantities.t) (entity : Entity.t)
  : Entity.t :=
  let stockoutCost := (inject_Z q.(Quantities.unfulfilled) * 1)%Q in
  let holdingCost := (inject_Z entity.(Entity.inventory) * (1 # 2))%Q in
  Entity.mk entity.(Entity.id) entity.(Entity.name) entity.(Entity.inventory)
     entity.(Entity.incomingOrders)
     (push entity.(Entity.outgoingOrders) quantity)
     entity.(Entity.incomingShipments) entity.(Entity.outgoingShipments)
     (push entity.(Entity.orderHistory) q.(Quantities.orderToProcess))
     (push entity.(Entity.inventoryHistory) entity.(Entity.inventory))
     (entity.(Entity.stockoutCosts) + stockoutCost)%Q
     (entity.(Entity.holdingCosts) + holdingCost)%Q
     entity.(Entity.unfulfilledDemand) entity.(Entity.stockoutHistory).

(** [getAIStrategy]. *)
Definition getAIStrategy (roleId : string) (round : Z) : Strategy :=
  if decide (round < 5) then Conservative
  else if decide (round < 12) then
    if decide (roleId = "retailer") then Reactive
    else if decide (roleId = "distributor") then Balanced
    else if decide (roleId = "wholesaler") then Balanced
    else if decide (roleId = "manufacturer") then Conservative
    else if decide (roleId = "supplier") then Aggressive
    else Balanced
  else Reactive.

Definition roleOrder : list string :=
  ["retailer"; "distributor"; "wholesaler"; "manufacturer"; "supplier"].

(** [roleOrder[roleOrder.indexOf(roleId) - 1]] used as a property key: an
    [undefined] key is the key ["undefined"]. *)
Definition downstreamRoleIdOf (roleId : string) : string :=
  default "undefined" (at_ roleOrder (indexOf roleOrder roleId - 1)).

Section Engine.
(** The values returned by the successive calls of [Math.random()]. *)
Variable rnd : nat -> Q.

Definition Math_random : M Q := fun w =>
  (inr (rnd w.(World.draws)),
   World.mk w.(World.engine) (S w.(World.draws))).

Definition getEngine : M GameEngine.t := fun w => (inr w.(World.engine), w).

(** [this.entities[roleId]] followed by a property access, which throws on
    [undefined]. *)
Definition entityOf (roleId : string) : M Entity.t := fun w =>
  match w.(World.engine).(GameEngine.entities) !! roleId with
  | Some e => (inr e, w)
  | None => (inl TypeError, w)
  end.

(** The mutations made through a reference to the entity object. *)
Definition setEntity (roleId : string) (e : Entity.t) : M unit := fun w =>
  (inr tt,
   World.mk (GameEngine.set_entities
               (<[roleId := e]> w.(World.engine).(GameEngine.entities))
               w.(World.engine))
            w.(World.draws)).

(** [getCustomerDemand]. *)
Definition getCustomerDemand (round : Z) : M Z :=
  if decide (round < 1 \/ round > 20) then ret 0
  else
    g <- getEngine ;;
    r1 <- Math_random ;;
    match at_ g.(GameEngine.demandTrend) (round - 1) with
    | None => throw TypeError
    | Some phase =>
        let base :=
          Math_floor (r1 * inject_Z (phase.(Phase.max) - phase.(Phase.min) + 1))
          + phase.(Phase.min) in
        r2 <- Math_random ;;
        let noise :=
          ((r2 - (1 # 2)) * 2 * phase.(Phase.volatility) * inject_Z base)%Q in
        ret (Z.max 0 (Math_round (inject_Z base + noise)))
    end.

(** [calculateAIOrder].  The draw enters exactly; the products with 0.2, 0.7
    and 1.3, the quotient by the length and the sums built on them are
    doubles. *)
Definition calculateAIOrder (entity : Entity.t) (strategy : Strategy)
           (currentOrder : Z) (round : Z) : M Z :=
  let recentOrders := sliceLast 3 entity.(Entity.orderHistory) in
  let avgRecentOrder : Q :=
    if decide (0 < length recentOrders)%nat
    then fl64 (inject_Z (sumZ recentOrders)
               / inject_Z (Z.of_nat (length recentOrders)))
    else inject_Z currentOrder in
  let orderQuantity : Z :=
    match strategy with
    | Conservative => currentOrder
    | Balanced =>
        Math_round
          (fl64 (inject_Z currentOrder
                 + fl64 (inject_Z currentOrder * fl64 (2 # 10))))
    | Aggressive =>
        let q := Math_round (fl64 (inject_Z currentOrder * (15 # 10))) in
        if decide (entity.(Entity.inventory) < 5) then q + 5 else q
    | Reactive =>
        let trend :=
          if decide (2 <= length recentOrders)%nat
          then orZero (last recentOrders) - orZero (head recentOrders)
          else 0 in
        Math_round
          (fl64 (avgRecentOrder + fl64 (inject_Z trend * (15 # 10))))
    end in
  r <- Math_random ;;
  let variance := Math_floor ((r - (1 # 2)) * 2 * 2) in
  let orderQuantity := Z.max 0 (orderQuantity + variance) in
  let orderQuantity :=
    if decide (entity.(Entity.inventory) > 20)
    then Math_floor (fl64 (inject_Z orderQuantity * fl64 (7 # 10)))
    else if decide (entity.(Entity.inventory) < 3)
         then Math_ceil (fl64 (inject_Z orderQuantity * fl64 (13 # 10)))
         else orderQuantity in
  ret (Math_round (inject_Z orderQuantity)).

(** One iteration of the [roleOrder.forEach] of [processAIEntities]. *)
Definition processAIEntity (round : Z) (playerRoleId roleId : string)
  : M (option Quantities.t) :=
  if decide (roleId = playerRoleId) then ret None
  else
    let strategy := getAIStrategy roleId round in
    incomingOrder <-
      (if decide (roleId = "retailer") then getCustomerDemand round
       else
         let downstreamRoleId := downstreamRoleIdOf roleId in
         downstreamEntity <- entityOf downstreamRoleId ;;
         let '(o, rest) := shift downstreamEntity.(Entity.outgoingOrders) in
         setEntity downstreamRoleId
           (Entity.set_outgoingOrders rest downstreamEntity) ;;;
         ret (orZero o)) ;;
    entity <- entityOf roleId ;;
    let '(o, rest) :=
      shift (push entity.(Entity.incomingOrders) incomingOrder) in
    let orderToProcess := orZero o in
    let '(entity, q) :=
      fulfilAndReceive orderToProcess (Entity.set_incomingOrders rest entity) in
    orderQuantity <- calculateAIOrder entity strategy orderToProcess round ;;
    setEntity roleId (placeAndAccrue orderQuantity q entity) ;;;
    (if decide (roleId <> "retailer") then
       let downstreamRoleId := downstreamRoleIdOf roleId in
       downstreamEntity <- entityOf downstreamRoleId ;;
       setEntity downstreamRoleId
         (Entity.set_incomingShipments
            (push downstreamEntity.(Entity.incomingShipments)
                  q.(Quantities.fulfilled))
            downstreamEntity)
     else ret tt) ;;;
    ret (Some q).

(** [processAIEntities]. *)
Definition processAIEntities (round : Z) (playerRoleId : string) : M unit :=
  forEach (fun roleId => processAIEntity round playerRoleId roleId ;;; ret tt)
          roleOrder ;;;
  supplierEntity <- entityOf "supplier" ;;
  let supplierOrder :=
    orZero (at_ supplierEntity.(Entity.incomingOrders)
                (Z.of_nat (length supplierEntity.(Entity.incomingOrders))
                 - 1)) in
  manufacturerEntity <- entityOf "manufacturer" ;;
  setEntity "manufacturer"
    (Entity.set_incomingShipments
       (push manufacturerEntity.(Entity.incomingShipments) supplierOrder)
       manufacturerEntity).

(** [processPlayerOrder]. *)
Definition processPlayerOrder (roleId : string) (quantity : Z) (round : Z)
  : M OrderResult.t :=
  entity <- entityOf roleId ;;
  let '(o, rest) := shift entity.(Entity.incomingOrders) in
  let incomingOrder := orZero o in
  let '(entity, q) :=
    fulfilAndReceive incomingOrder (Entity.set_incomingOrders rest entity) in
  let stockoutCost := (inject_Z q.(Quantities.unfulfilled) * 1)%Q in
  let holdingCost := (inject_Z entity.(Entity.inventory) * (1 # 2))%Q in
  setEntity roleId (placeAndAccrue quantity q entity) ;;;
  processAIEntities round roleId ;;;
  entity <- entityOf roleId ;;
  ret (OrderResult.mk entity.(Entity.inventory) stockoutCost holdingCost
         q.(Quantities.fulfilled) q.(Quantities.unfulfilled)).

(** [assignRandomRole]: the role at index [floor(random * length)]; reading
    [selectedRole.id] throws when there is none, before the push. *)
Definition assignRandomRole (round : Z) : M Role.t :=
  g <- getEngine ;;
  let availableRoles := g.(GameEngine.roles) in
  r <- Math_random ;;
  let randomIndex :=
    Math_floor (r * inject_Z (Z.of_nat (length availableRoles))) in
  match at_ availableRoles randomIndex with
  | None => throw TypeError
  | Some selectedRole =>
      (fun w =>
         (inr selectedRole,
          World.mk
            (GameEngine.set_playerRoleHistory
               (push w.(World.engine).(GameEngine.playerRoleHistory)
                     (PlayerRole.mk round selectedRole.(Role.id)))
               w.(World.engine))
            w.(World.draws)))
  end.

(** A game: the successive calls [processPlayerOrder(roleId, quantity, round)]
    made by the host, stopping at the first one that throws. *)
Fixpoint play (turns : list (string * Z * Z)) : M (list OrderResult.t) :=
  match turns with
  | [] => ret []
  | (roleId, quantity, round) :: rest =>
      r <- processPlayerOrder roleId quantity round ;;
      rs <- play rest ;;
      ret (r :: rs)
  end.
End Engine.

Definition standardRoles : list Role.t :=
  [ Role.mk "retailer" "Retailer"; Role.mk "distributor" "Distributor";
    Role.mk "wholesaler" "Wholesaler"; Role.mk "manufacturer" "Manufacturer";
    Role.mk "supplier" "Supplier" ].

Definition newWorld (roles : list Role.t) (playerName : string) : World.t :=
  World.mk (newGameEngine roles playerName) 0.

(** The object returned by [getRoundState]. *)
Module RoundState.
Record t := mk {
  inventory : Z;
  pendingOrders : list Z;
  incomingShipments : list Z;
  orderHistory : list Z
}.
End RoundState.

(** [getRoundState]: [slice(0, 1)] of the pending orders and [slice(-10)] of
    the order history. *)
Definition getRoundState (g : GameEngine.t) (round : Z) (roleId : string)
  : JsError + RoundState.t :=
  match g.(GameEngine.entities) !! roleId with
  | None => inl TypeError
  | Some entity =>
      inr (RoundState.mk entity.(Entity.inventory)
             (take 1 entity.(Entity.incomingOrders))
             entity.(Entity.incomingShipments)
             (sliceLast 10 entity.(Entity.orderHistory)))
  end.


(** The [roleOrder] of [GameEngine.calculateResponsibilityScore], supplier
    first. *)
Definition engineRoleOrder : list string :=
  ["supplier"; "manufacturer"; "wholesaler"; "distributor"; "retailer"].

(** Its [for (let i = roleIndex + 1; i < roleOrder.length; i++)] loop, over
    the roles still to visit. *)
Fixpoint engineScoreLoop (entities : gmap string Entity.t) (own : Z)
         (downstream : list string) (score : Z) : JsError + Z :=
  match downstream with
  | [] => inr score
  | d :: rest =>
      match entities !! d with
      | None => inl TypeError
      | Some downstreamEntity =>
          let u := downstreamEntity.(Entity.unfulfilledDemand) in
          engineScoreLoop entities own rest
            (if decide (u > 0) then score + Z.min own u else score)
      end
  end.

(** The properties every object inherits from [Object.prototype]:
    [this.entities[id]] is defined for these ids even without an entity. *)
Definition inheritedProperties : list string :=
  ["constructor"; "hasOwnProperty"; "isPrototypeOf"; "propertyIsEnumerable";
   "toLocaleString"; "toString"; "valueOf"; "__proto__";
   "__defineGetter__"; "__defineSetter__"; "__lookupGetter__";
   "__lookupSetter__"].

(** [GameEngine.calculateResponsibilityScore]: the engine's own score, over
    the aggregate [unfulfilledDemand] accumulators.  Reading
    [entity.unfulfilledDemand] throws on [undefined]; on an inherited
    property it gives [undefined], which is not [> 0]. *)
Definition calculateResponsibilityScore (g : GameEngine.t) (roleId : string)
  : JsError + Z :=
  let roleIndex := indexOf engineRoleOrder roleId in
  match g.(GameEngine.entities) !! roleId with
  | None =>
      if decide (roleId ∈ inheritedProperties) then inr 0
      else inl TypeError
  | Some entity =>
      if decide (entity.(Entity.unfulfilledDemand) > 0
                 /\ roleIndex < Z.of_nat (length engineRoleOrder) - 1)
      then engineScoreLoop g.(GameEngine.entities)
             entity.(Entity.unfulfilledDemand)
             (drop (Z.to_nat (roleIndex + 1)) engineRoleOrder) 0
      else inr 0
  end.

(** ** score-calculator.js *)

Module Metrics.
(** An entry of the object built by [calculateBullwhipMetrics]; the
    properties other than [variance] are present in one of the two object
    literals only. *)
Record t := mk {
  mean : option Q;
  variance : Q;
  stdDev : option Q;
  coefficientOfVariation : option Q;
  bullwhipRatio : option Q;
  ratio : option Q
}.

Definition set_bullwhipRatio (r : Q) (m : t) : t :=
  mk m.(mean) m.(variance) m.(stdDev) m.(coefficientOfVariation) (Some r)
     m.(ratio).
End Metrics.

(** [x || 1] on a number. *)
Definition orOne (x : Q) : Q := if Qeq_bool x 0 then 1%Q else x.

(** [Math.pow(x, 2)]. *)
Definition pow2 (x : Q) : Q := (x * x)%Q.

(** The object of costs of [calculateRoundCosts] and [calculateTotalCosts]. *)
Module Costs.
Record t := mk { stockout : Q; holding : Q; total : Q }.
End Costs.

(** An entry of the array returned by [rankEntities]; [avgInventory] is
    [None] for the [NaN] of an empty inventory history (0 / 0), and [rank] is
    absent before the final [map]. *)
Module Ranking.
Record t := mk {
  roleId : string;
  roleName : string;
  totalCosts : Q;
  stockoutCosts : Q;
  holdingCosts : Q;
  responsibilityScore : Z;
  avgInventory : option Q;
  totalStockouts : Z;
  rank : option Z
}.

Definition set_rank (r : Z) (x : t) : t :=
  mk x.(roleId) x.(roleName) x.(totalCosts) x.(stockoutCosts)
     x.(holdingCosts) x.(responsibilityScore) x.(avgInventory)
     x.(totalStockouts) (Some r).
End Ranking.

Module ScoreCalculator.
(** The inner [for (let i = roleIndex - 1; i >= 0; i--)] loop, entered with
    [n = i + 1]. *)
Fixpoint downstreamLoop (entities : gmap string Entity.t)
         (roleOrder : list string) (roleIndex stockout round : Z)
         (n : nat) (score : Z) : JsError + Z :=
  match n with
  | O => inr score
  | S i =>
      let downstreamId := default "undefined" (roleOrder !! i) in
      match entities !! downstreamId with
      | None => inl TypeError
      | Some downstreamEntity =>
          let affectedRound := round + (roleIndex - Z.of_nat i) * 2 in
          let score :=
            match downstreamEntity.(Entity.stockoutHistory)
                  ≫= (fun h => at_ h affectedRound) with
            | Some s => if decide (s > 0) then score + Z.min stockout s
                        else score
            | None => score
            end in
          downstreamLoop entities roleOrder roleIndex stockout round i score
      end
  end.

(** [stockoutHistory.forEach((stockout, round) => ...)], from index
    [round] on. *)
Fixpoint roundsLoop (entities : gmap string Entity.t)
         (roleOrder : list string) (roleIndex : Z) (history : list Z)
         (round : Z) (score : Z) : JsError + Z :=
  match history with
  | [] => inr score
  | stockout :: rest =>
      match (if decide (stockout > 0)
             then downstreamLoop entities roleOrder roleIndex stockout round
                    (Z.to_nat roleIndex) score
             else inr score) with
      | inl e => inl e
      | inr score =>
          roundsLoop entities roleOrder roleIndex rest (round + 1) score
      end
  end.

Definition calculateResponsibilityScore (roleId : string)
           (entities : gmap string Entity.t) (roleOrder : list string)
  : JsError + Z :=
  let roleIndex := indexOf roleOrder roleId in
  match entities !! roleId with
  | None => inr 0
  | Some entity =>
      match entity.(Entity.stockoutHistory) with
      | None => inr 0
      | Some history => roundsLoop entities roleOrder roleIndex history 0 0
      end
  end.

Definition calculateServiceLevel (fulfilled total : Q) : Q :=
  if Qeq_bool total 0 then 100%Q else (fulfilled / total * 100)%Q.

Definition calculateInventoryTurnover (avgInventory totalDemand periods : Q)
  : Q :=
  if Qeq_bool avgInventory 0 then 0%Q else (totalDemand / avgInventory)%Q.

Definition calculateFillRate (ordersFilled totalOrders : Q) : Q :=
  if Qeq_bool totalOrders 0 then 100%Q
  else (ordersFilled / totalOrders * 100)%Q.

Definition COST_STOCKOUT : Q := 1.
Definition COST_HOLDING : Q := 1 # 2.

Definition calculateRoundCosts (inventory unfulfilled : Q) : Costs.t :=
  Costs.mk (unfulfilled * COST_STOCKOUT) (inventory * COST_HOLDING)
           (unfulfilled * COST_STOCKOUT + inventory * COST_HOLDING).

Definition calculateTotalCosts (costHistory : list Costs.t) : Costs.t :=
  fold_left
    (fun total round =>
       Costs.mk (total.(Costs.stockout) + round.(Costs.stockout))
                (total.(Costs.holding) + round.(Costs.holding))
                (total.(Costs.total) + round.(Costs.total)))
    costHistory (Costs.mk 0 0 0).

(** [rankings.sort((a, b) => a.totalCosts - b.totalCosts)].  The sort of an
    array is stable, so every stable sort returns the same array; entries are
    inserted from the right, each before the first entry that does not cost
    less. *)
Fixpoint insertRanking (x : Ranking.t) (l : list Ranking.t)
  : list Ranking.t :=
  match l with
  | [] => [x]
  | y :: t =>
      if Qle_bool x.(Ranking.totalCosts) y.(Ranking.totalCosts)
      then x :: y :: t
      else y :: insertRanking x t
  end.

Definition sortRankings (l : list Ranking.t) : list Ranking.t :=
  foldr insertRanking [] l.

(** [rankings.map((rank, index) => ({...rank, rank: index + 1}))], from
    index [index] on. *)
Fixpoint numberFrom (index : Z) (l : list Ranking.t) : list Ranking.t :=
  match l with
  | [] => []
  | x :: t => Ranking.set_rank (index + 1) x :: numberFrom (index + 1) t
  end.

(** The callback of [Object.keys(entities).map(roleId => ...)], for the key
    [roleId] and its entity. *)
Definition rankingOf (entities : gmap string Entity.t)
           (roleOrder : list string) (roleId : string) (entity : Entity.t)
  : JsError + Ranking.t :=
  match calculateResponsibilityScore roleId entities roleOrder with
  | inl e => inl e
  | inr score =>
      let history := entity.(Entity.inventoryHistory) in
      inr (Ranking.mk roleId roleId
             (entity.(Entity.stockoutCosts) + entity.(Entity.holdingCosts))
             entity.(Entity.stockoutCosts) entity.(Entity.holdingCosts)
             score
             (if decide (length history = 0)%nat then None
              else Some (inject_Z (sumZ history)
                         / inject_Z (Z.of_nat (length history)))%Q)
             entity.(Entity.unfulfilledDemand) None)
  end.

Fixpoint rankingsOf (entities : gmap string Entity.t)
         (roleOrder : list string) (entries : list (string * Entity.t))
  : JsError + list Ranking.t :=
  match entries with
  | [] => inr []
  | (roleId, entity) :: rest =>
      match rankingOf entities roleOrder roleId entity with
      | inl e => inl e
      | inr x =>
          match rankingsOf entities roleOrder rest with
          | inl e => inl e
          | inr xs => inr (x :: xs)
          end
      end
  end.

(** [rankEntities].  The object [entities] is given by its entries, in the
    order of [Object.keys]; their keys are distinct. *)
Definition rankEntities (entries : list (string * Entity.t))
           (roleOrder : list string) : JsError + list Ranking.t :=
  match rankingsOf (list_to_map entries) roleOrder entries with
  | inl e => inl e
  | inr rankings => inr (numberFrom 0 (sortRankings rankings))
  end.

Section Bullwhip.
(** [Math.sqrt], on the numbers it is applied to. *)
Variable Math_sqrt : Q -> Q.

Definition meanOf (orders : list Z) : Q :=
  (inject_Z (sumZ orders) / inject_Z (Z.of_nat (length orders)))%Q.

Definition varianceOf (orders : list Z) : Q :=
  (fold_left (fun sum order => sum + pow2 (inject_Z order - meanOf orders))
             orders 0
   / inject_Z (Z.of_nat (length orders)))%Q.

(** The callback of [roleOrder.forEach((roleId, index) => ...)]. *)
Definition bullwhipStep (entities : gmap string Entity.t)
           (roleOrder : list string) (metrics : gmap string Metrics.t)
           (roleId : string) (index : nat) : gmap string Metrics.t :=
  match entities !! roleId with
  | Some entity =>
      match entity.(Entity.orderHistory) with
      | [] => <[roleId := Metrics.mk None 0 None None None (Some 1%Q)]> metrics
      | _ =>
          let orders := entity.(Entity.orderHistory) in
          let mean := meanOf orders in
          let variance := varianceOf orders in
          let entry :=
            Metrics.mk (Some mean) variance (Some (Math_sqrt variance))
              (Some (if Qlt_le_dec 0 mean
                     then (Math_sqrt variance / mean)%Q else 0%Q))
              None None in
          let metrics := <[roleId := entry]> metrics in
          if decide (0 < index)%nat then
            let downstreamRoleId :=
              default "undefined" (roleOrder !! (index - 1)%nat) in
            let downstreamVariance :=
              orOne (default 0%Q
                       (Metrics.variance <$> metrics !! downstreamRoleId)) in
            <[roleId :=
                Metrics.set_bullwhipRatio
                  (variance / orOne downstreamVariance)%Q entry]> metrics
          else
            <[roleId := Metrics.set_bullwhipRatio 1%Q entry]> metrics
      end
  | None => <[roleId := Metrics.mk None 0 None None None (Some 1%Q)]> metrics
  end.

Fixpoint bullwhipLoop (entities : gmap string Entity.t)
         (roleOrder : list string) (todo : list string) (index : nat)
         (metrics : gmap string Metrics.t) : gmap string Metrics.t :=
  match todo with
  | [] => metrics
  | roleId :: rest =>
      bullwhipLoop entities roleOrder rest (S index)
        (bullwhipStep entities roleOrder metrics roleId index)
  end.

Definition calculateBullwhipMetrics (entities : gmap string Entity.t)
           (roleOrder : list string) : gmap string Metrics.t :=
  bullwhipLoop entities roleOrder roleOrder 0 ∅.
End Bullwhip.
End ScoreCalculator.

(** ** player-logic.js *)

Module State.
(** The [currentState] object; the properties that the strategies
    destructure with a default may be missing. *)
Record t := mk {
  inventory : Z;
  incomingOrder : option Z;
  orderHistory : option (list Z);
  incomingShipments : option (list Z);
  round : option Z
}.
End State.

Module PlayerLogic.
Definition balancedStrategy (state : State.t) : Z :=
  let inventory := state.(State.inventory) in
  let incomingOrder := default 0 state.(State.incomingOrder) in
  let incomingShipments := default [] state.(State.incomingShipments) in
  let TARGET_BUFFER := 5 in
  let expectedInventory := inventory + sumZ incomingShipments in
  let orderQuantity :=
    Z.max 0 (incomingOrder + TARGET_BUFFER - expectedInventory) in
  Math_round (inject_Z orderQuantity).

Definition leanStrategy (state : State.t) : Z :=
  let inventory := state.(State.inventory) in
  let incomingOrder := default 0 state.(State.incomingOrder) in
  let incomingShipments := default [] state.(State.incomingShipments) in
  let expectedInventory := inventory + sumZ incomingShipments in
  let orderQuantity := Z.max 0 (incomingOrder - expectedInventory) in
  Math_round (inject_Z orderQuantity).

Definition aggressiveStrategy (state : State.t) : Z :=
  let inventory := state.(State.inventory) in
  let incomingOrder := default 0 state.(State.incomingOrder) in
  let orderHistory := default [] state.(State.orderHistory) in
  let TARGET_BUFFER := 15 in
  let recentAvg : Q :=
    if decide (0 < length orderHistory)%nat
    then (inject_Z (sumZ (sliceLast 3 orderHistory))
          / inject_Z (Z.of_nat (Nat.min 3 (length orderHistory))))%Q
    else inject_Z incomingOrder in
  let orderQuantity :=
    (Math_maxQ (inject_Z incomingOrder) recentAvg + inject_Z TARGET_BUFFER
     - inject_Z inventory)%Q in
  Math_round (Math_maxQ 0 orderQuantity).

Definition reactiveStrategy (state : State.t) : Z :=
  let orderHistory := default [] state.(State.orderHistory) in
  let incomingOrder := default 0 state.(State.incomingOrder) in
  let inventory := state.(State.inventory) in
  if decide (length orderHistory < 2)%nat
  then Z.max 0 (incomingOrder - inventory)
  else
    let recentOrders := sliceLast 3 orderHistory in
    let trend := orZero (last recentOrders) - orZero (head recentOrders) in
    let avgRecent :=
      (inject_Z (sumZ recentOrders)
       / inject_Z (Z.of_nat (length recentOrders)))%Q in
    let projected := (avgRecent + inject_Z trend * 2)%Q in
    let orderQuantity := Math_maxQ 0 (projected - inject_Z inventory) in
    Math_round orderQuantity.

(** [calculatePerformanceScore], on the three numbers of [metrics]. *)
Definition calculatePerformanceScore
           (totalStockouts avgInventory bullwhipRatio : Q) : Q :=
  let stockoutPenalty := (totalStockouts * 10)%Q in
  let inventoryPenalty := (avgInventory * (1 # 2))%Q in
  let bullwhipPenalty := (Math_maxQ 0 (bullwhipRatio - 1) * 20)%Q in
  let totalPenalty :=
    (stockoutPenalty + inventoryPenalty + bullwhipPenalty)%Q in
  let baseScore := 1000%Q in
  Math_maxQ 0 (baseScore - totalPenalty).

(** [data.reduce((sum, y, x) => sum + x * y, 0)], from index [x] on. *)
Fixpoint sumXYFrom (x : Z) (data : list Z) (sum : Z) : Z :=
  match data with
  | [] => sum
  | y :: rest => sumXYFrom (x + 1) rest (sum + x * y)
  end.

Definition calculateTrend (data : list Z) : Q :=
  if decide (length data < 2)%nat then 0%Q
  else
    let n := inject_Z (Z.of_nat (length data)) in
    let sumX := (n * (n - 1) / 2)%Q in
    let sumY := inject_Z (sumZ data) in
    let sumXY := inject_Z (sumXYFrom 0 data 0) in
    let sumX2 := (n * (n - 1) * (2 * n - 1) / 6)%Q in
    ((n * sumXY - sumX * sumY) / (n * sumX2 - sumX * sumX))%Q.

Section Predictive.
Variable Math_sqrt : Q -> Q.

Definition calculateStdDev (data : list Z) : Q :=
  match data with
  | [] => 0%Q
  | _ =>
      let mean :=
        (inject_Z (sumZ data) / inject_Z (Z.of_nat (length data)))%Q in
      let squaredDiffs :=
        map (fun value => pow2 (inject_Z value - mean)) data in
      let variance :=
        (sumQ squaredDiffs / inject_Z (Z.of_nat (length data)))%Q in
      Math_sqrt variance
  end.

Definition predictiveStrategy (state : State.t) : Z :=
  let orderHistory := default [] state.(State.orderHistory) in
  let inventory := state.(State.inventory) in
  if decide (length orderHistory < 3)%nat then balancedStrategy state
  else
    let windowSize := Nat.min 5 (length orderHistory) in
    let recentOrders := sliceLast windowSize orderHistory in
    let ma :=
      (inject_Z (sumZ recentOrders) / inject_Z (Z.of_nat windowSize))%Q in
    let trend := calculateTrend recentOrders in
    let forecast := (ma + trend * 2)%Q in
    let stdDev := calculateStdDev recentOrders in
    let safetyStock := (stdDev * (15 # 10))%Q in
    let targetInventory := (forecast + safetyStock)%Q in
    let orderQuantity :=
      Math_maxQ 0 (targetInventory - inject_Z inventory) in
    Math_round orderQuantity.

(** [calculateOptimalOrder]; a missing [strategy] is ['balanced']. *)
Definition calculateOptimalOrder (currentState : State.t)
           (strategy : option string) : Z :=
  let strategy := default "balanced" strategy in
  if decide (strategy = "lean") then leanStrategy currentState
  else if decide (strategy = "balanced") then balancedStrategy currentState
  else if decide (strategy = "aggressive") then aggressiveStrategy currentState
  else if decide (strategy = "reactive") then reactiveStrategy currentState
  else if decide (strategy = "predictive") then predictiveStrategy currentState
  else orZero currentState.(State.incomingOrder).
End Predictive.
End PlayerLogic.

(** ** Specification-side definitions *)

(** Sum of a family of integers. *)
Definition Zsum (l : list Z) : Z := foldr Z.add 0 l.

(** The recorded stockouts of a role, round by round. *)
Definition historyOf (entities : gmap string Entity.t) (role : string)
  : list Z :=
  match entities !! role with
  | Some e => default [] e.(Entity.stockoutHistory)
  | None => []
  end.

(** [stockout_role[r]], [0] where no stockout is recorded. *)
Definition stockoutAt (entities : gmap string Entity.t) (role : string) (r : Z)
  : Z :=
  default 0 (at_ (historyOf entities role) r).

(** The role [k] places downstream of position [roleIndex] in [roleOrder],
    whose first entry is the most downstream role. *)
Definition downstreamAt (roleOrder : list string) (roleIndex : Z) (k : nat)
  : string :=
  default "undefined" (at_ roleOrder (roleIndex - Z.of_nat k)).

(** What round [r] of [roleId] contributes through the role at distance [k]. *)
Definition attributed (roleId : string) (entities : gmap string Entity.t)
           (roleOrder : list string) (r k : nat) : Z :=
  let own := stockoutAt entities roleId (Z.of_nat r) in
  let affectedRound := Z.of_nat r + 2 * Z.of_nat k in
  let other :=
    stockoutAt entities
      (downstreamAt roleOrder (indexOf roleOrder roleId) k) affectedRound in
  if decide (own > 0 /\ other > 0) then Z.min own other else 0.

(** The responsibility score mandated by the specification: a double sum over
    the rounds of the role and the chain distances [k >= 1] to the roles
    downstream of it. *)
Definition responsibilityScore_spec (roleId : string)
           (entities : gmap string Entity.t) (roleOrder : list string) : Z :=
  let rounds := length (historyOf entities roleId) in
  let depth := Z.to_nat (indexOf roleOrder roleId) in
  Zsum (map (fun r =>
               Zsum (map (fun k => attributed roleId entities roleOrder r k)
                         (seq 1 depth)))
            (seq 0 rounds)).

(** What a stockout of size [stockout] in round [round] of the role at
    position [depth] contributes through the role at distance [k]: the term
    the inner loop of the score calculator adds. *)
Definition contribution (entities : gmap string Entity.t)
           (roleOrder : list string) (depth : nat) (stockout round : Z)
           (k : nat) : Z :=
  let other :=
    stockoutAt entities (downstreamAt roleOrder (Z.of_nat depth) k)
               (round + 2 * Z.of_nat k) in
  if decide (other > 0) then Z.min stockout other else 0.

(** Sum of a family of rationals. *)
Definition Qsum (l : list Q) : Q := foldr Qplus 0%Q l.





(** The [variance] property of the metrics entry of a role: the population
    variance of its order history, [0] when it has no orders. *)
Definition orderVariance (entities : gmap string Entity.t) (role : string)
  : Q :=
  match entities !! role with
  | Some e =>
      match e.(Entity.orderHistory) with
      | [] => 0%Q
      | _ => ScoreCalculator.varianceOf e.(Entity.orderHistory)
      end
  | None => 0%Q
  end.

(** ** Predicates on engine states *)

(** Weakest precondition of a computation: [Q] holds of the value and state
    when it returns, [E] of the state when it throws. *)
Definition wp {A} (m : M A) (Q : A -> World.t -> Prop) (E : World.t -> Prop)
           (w : World.t) : Prop :=
  match m w with
  | (inr a, w') => Q a w'
  | (inl _, w') => E w'
  end.

Definition entitiesOf (w : World.t) : gmap string Entity.t :=
  w.(World.engine).(GameEngine.entities).

(** Every entity of the engine satisfies [G]. *)
Definition allEntities (G : Entity.t -> Prop) (w : World.t) : Prop :=
  map_Forall (fun _ e => G e) (entitiesOf w).

(** Inventory and the queued quantities of an entity are non-negative. *)
Definition nonnegEntity (e : Entity.t) : Prop :=
  0 <= e.(Entity.inventory)
  /\ Forall (fun x => 0 <= x) e.(Entity.incomingOrders)
  /\ Forall (fun x => 0 <= x) e.(Entity.outgoingOrders)
  /\ Forall (fun x => 0 <= x) e.(Entity.incomingShipments).

(** The entity records no per-round stockouts. *)
Definition noStockoutHistory (e : Entity.t) : Prop :=
  e.(Entity.stockoutHistory) = None.

(** No order waits in the entity's [incomingOrders]. *)
Definition emptyOrderQueue (e : Entity.t) : Prop :=
  e.(Entity.incomingOrders) = [].

(** A property [G] of entities and a property [V] of the quantities that flow
    between them are kept by the steps of a round. *)
Module RoundClosed.
Record t (G : Entity.t -> Prop) (V : Z -> Prop) : Prop := mk {
  nonneg : forall z, 0 <= z -> V z;
  shift_outgoing : forall e,
    G e ->
    G (Entity.set_outgoingOrders (snd (shift (Entity.outgoingOrders e))) e)
    /\ V (orZero (fst (shift (Entity.outgoingOrders e))));
  push_shipment : forall e x,
    G e -> V x ->
    G (Entity.set_incomingShipments (push (Entity.incomingShipments e) x) e);
  queue_order : forall e x,
    G e -> V x ->
    G (Entity.set_incomingOrders
         (snd (shift (push (Entity.incomingOrders e) x))) e)
    /\ V (orZero (fst (shift (push (Entity.incomingOrders e) x))));
  next_order : forall e,
    G e ->
    G (Entity.set_incomingOrders (snd (shift (Entity.incomingOrders e))) e)
    /\ V (orZero (fst (shift (Entity.incomingOrders e))));
  fulfil : forall e x,
    G e -> V x ->
    G (fst (fulfilAndReceive x e))
    /\ V (Quantities.fulfilled (snd (fulfilAndReceive x e)));
  place : forall e q x, G e -> V x -> G (placeAndAccrue x q e);
  last_order : forall e i,
    G e -> V (orZero (at_ (Entity.incomingOrders e) i))
}.
Arguments nonneg {G V} _.
Arguments shift_outgoing {G V} _.
Arguments push_shipment {G V} _.
Arguments queue_order {G V} _.
Arguments next_order {G V} _.
Arguments fulfil {G V} _.
Arguments place {G V} _.
Arguments last_order {G V} _.
End RoundClosed.

(** The demand schedule is the constructor's and the roles [ids] have an
    entity. *)
Definition engineReady (ids : list string) (w : World.t) : Prop :=
  w.(World.engine).(GameEngine.demandTrend) = generateDemandTrend
  /\ forall r, r ∈ ids -> is_Some (entitiesOf w !! r).

(** Two oracles give the same value to the [n] draws from draw [lo] on. *)
Definition agreeOn (lo n : nat) (rnd1 rnd2 : nat -> Q) : Prop :=
  forall i, (lo <= i < lo + n)%nat -> rnd1 i = rnd2 i.

(** A computation that makes at most [k] draws: it cannot tell apart two
    oracles that agree on the next [k] draws. *)
Definition usesAtMost {A} (k : nat) (m : (nat -> Q) -> M A) : Prop :=
  forall rnd1 rnd2 w,
    agreeOn w.(World.draws) k rnd1 rnd2 ->
    m rnd1 w = m rnd2 w
    /\ (w.(World.draws) <= (snd (m rnd1 w)).(World.draws)
        <= w.(World.draws) + k)%nat.

(** The draws of one iteration of the loop of [processAIEntities]: two for
    the customer demand when the role is the retailer, one for the noise of
    the order. *)
Definition drawsOf (roleId : string) : nat :=
  if decide (roleId = "retailer") then 3%nat else 1%nat.

(** ** Worked inputs *)

(** A rational approximation of the square root (six decimals), standing for
    [Math.sqrt] in the worked examples. *)
Definition sqrtApprox (x : Q) : Q :=
  Z.sqrt (Qnum x * 1000000000000 / Z.pos (Qden x)) # 1000000.

(** Oracles for [Math.random()]: constant draws, and draws that are [1/2]
    for the first seven calls and [0] afterwards. *)
Definition zeros : nat -> Q := fun _ => 0%Q.
Definition halves : nat -> Q := fun _ => (1 # 2)%Q.
Definition halvesThenZeros : nat -> Q :=
  fun i => if decide (i < 7)%nat then (1 # 2)%Q else 0%Q.

Definition exampleEntity (role : string) (orders : list Z)
           (stockouts : option (list Z)) : Entity.t :=
  Entity.mk role role 12 [] [] [] [] orders [12] 0 0 0 stockouts.

(** A retailer with constant orders below a distributor with varying ones. *)
Definition flatRetailerEntities : gmap string Entity.t :=
  <["distributor" := exampleEntity "distributor" [4; 8] None]>
    (<["retailer" := exampleEntity "retailer" [5; 5] None]> ∅).

(** Three roles with recorded stockouts. *)
Definition stockoutEntities : gmap string Entity.t :=
  <["wholesaler" := exampleEntity "wholesaler" [] (Some [3; 0; 2])]>
    (<["distributor" := exampleEntity "distributor" [] (Some [0; 0; 1; 0; 5])]>
       (<["retailer" :=
            exampleEntity "retailer" [] (Some [0; 0; 0; 0; 2; 0; 7])]> ∅)).

Definition shortChain : list string :=
  ["retailer"; "distributor"; "wholesaler"].

Definition freshWorld : World.t := newWorld standardRoles "player".

(** Calls of [processPlayerOrder(roleId, quantity, round)]. *)
Definition negativeOrders : list (string * Z * Z) :=
  [("distributor", -100, 1); ("distributor", -100, 2);
   ("distributor", -100, 3)].

Definition unvalidatedRounds : list (string * Z * Z) :=
  [("retailer", 5, 0); ("retailer", 5, 25); ("retailer", 5, 3);
   ("retailer", 5, 3); ("retailer", 5, -1)].

Definition oneTurn : list (string * Z * Z) := [("distributor", 5, 1)].

Definition retailerTurns : list (string * Z * Z) :=
  [("retailer", 4, 1); ("retailer", 4, 2)].

Definition predictiveExample : State.t :=
  State.mk 3 (Some 8) (Some [4; 6; 8]) (Some []) (Some 4).

Definition largeOrder : list (string * Z * Z) := [("retailer", 12, 1)].

Definition firstRound : list (string * Z * Z) := [("retailer", 4, 1)].

(** A state in which the distributor holds 3 units and has an order of 5
    waiting in its queue. *)
Definition queuedWorld : World.t :=
  World.mk
    (GameEngine.set_entities
       (<["distributor" :=
            Entity.mk "distributor" "Distributor" 3 [5] [] [] [] [] [12; 3]
                      0 0 0 None]> (initEntities standardRoles))
       (newGameEngine standardRoles "player"))
    0.

(** ** The updates of a round *)

(** The roles whose [outgoingOrders] are shifted and whose
    [incomingShipments] are pushed: the downstream neighbours of the loop,
    and the manufacturer after it. *)
Definition receivers : list string :=
  ["retailer"; "distributor"; "wholesaler"; "manufacturer"].

(** The entity of an internally driven role after its iteration of the loop
    of [processAIEntities], for the incoming order and the order placed. *)
Definition aiUpdate (incomingOrder orderQuantity : Z) (e : Entity.t)
  : Entity.t :=
  let s := shift (push (Entity.incomingOrders e) incomingOrder) in
  let f :=
    fulfilAndReceive (orZero (fst s)) (Entity.set_incomingOrders (snd s) e) in
  placeAndAccrue orderQuantity (snd f) (fst f).

(** The entity of the externally driven role after the statements of
    [processPlayerOrder] that precede [processAIEntities]. *)
Definition playerUpdate (quantity : Z) (e : Entity.t) : Entity.t :=
  let s := shift (Entity.incomingOrders e) in
  let f :=
    fulfilAndReceive (orZero (fst s)) (Entity.set_incomingOrders (snd s) e) in
  placeAndAccrue quantity (snd f) (fst f).

(** What a round does to the entity stored under [k]; the quantities
    involved satisfy [V]. *)
Inductive roundUpdate (V : Z -> Prop) (k : string) (e : Entity.t)
  : Entity.t -> Prop :=
| upd_shift :
    k ∈ receivers ->
    roundUpdate V k e
      (Entity.set_outgoingOrders (snd (shift (Entity.outgoingOrders e))) e)
| upd_ship x :
    k ∈ receivers -> V x ->
    roundUpdate V k e
      (Entity.set_incomingShipments (push (Entity.incomingShipments e) x) e)
| upd_ai x y :
    k ∈ roleOrder -> V x -> V y -> roundUpdate V k e (aiUpdate x y e)
| upd_player y : V y -> roundUpdate V k e (playerUpdate y e).

(** The world after [this.entities[k]] was mutated into [e]. *)
Definition setEntityIn (k : string) (e : Entity.t) (w : World.t) : World.t :=
  World.mk (GameEngine.set_entities (<[k := e]> (entitiesOf w))
              w.(World.engine))
           w.(World.draws).

(** One effect of a round: a call of [Math.random()], or the update of an
    existing entity that satisfies [G]. *)
Inductive step (G : Entity.t -> Prop) (V : Z -> Prop)
  : World.t -> World.t -> Prop :=
| step_draw w :
    step G V w (World.mk w.(World.engine) (S w.(World.draws)))
| step_update w k e e' :
    entitiesOf w !! k = Some e -> G e -> roundUpdate V k e e' ->
    step G V w (setEntityIn k e' w).

Definition steps (G : Entity.t -> Prop) (V : Z -> Prop)
  : World.t -> World.t -> Prop :=
  rtc (step G V).

(** [w'] keeps the entities of [w], each related by [R] to what it was. *)
Definition evolves (R : string -> Entity.t -> Entity.t -> Prop)
           (w w' : World.t) : Prop :=
  forall k e, entitiesOf w !! k = Some e ->
              exists e', entitiesOf w' !! k = Some e' /\ R k e e'.

Definition anyEntity (e : Entity.t) : Prop := True.
Definition anyQuantity (z : Z) : Prop := True.

(** The state [w] reached from [w0] by the effects of rounds. *)
Definition reached (G : Entity.t -> Prop) (V : Z -> Prop) (w0 w : World.t)
  : Prop :=
  allEntities G w /\ steps G V w0 w.

(** What a game leaves of an entity: identity, the shipments sent and the
    stockout record are untouched, the histories are extended, the unmet
    demand and its cost do not decrease. *)
Definition extends (k : string) (e e' : Entity.t) : Prop :=
  Entity.id e' = Entity.id e /\ Entity.name e' = Entity.name e
  /\ Entity.outgoingShipments e' = Entity.outgoingShipments e
  /\ Entity.stockoutHistory e' = Entity.stockoutHistory e
  /\ Entity.orderHistory e `prefix_of` Entity.orderHistory e'
  /\ Entity.inventoryHistory e `prefix_of` Entity.inventoryHistory e'
  /\ Entity.unfulfilledDemand e <= Entity.unfulfilledDemand e'
  /\ (Entity.stockoutCosts e <= Entity.stockoutCosts e')%Q.

(** The cost accumulators agree with the quantities they are charged on:
    one per unit of unmet demand, a half per unit held at the end of each
    round (the initial 12 is recorded but not charged). *)
Definition accounted (e : Entity.t) : Prop :=
  Entity.stockoutCosts e == inject_Z (Entity.unfulfilledDemand e)
  /\ Entity.holdingCosts e
     == (inject_Z (sumZ (Entity.inventoryHistory e)) - 12) * (1 # 2).

(** One inventory entry per processed order, after the initial one; the last
    is the current inventory. *)
Definition wellShaped (e : Entity.t) : Prop :=
  length (Entity.inventoryHistory e) = S (length (Entity.orderHistory e))
  /\ last (Entity.inventoryHistory e) = Some (Entity.inventory e).

(** The engine outside its entities, and the keys of the entities. *)
Definition sameFrame (w w' : World.t) : Prop :=
  dom (entitiesOf w') =@{gset string} dom (entitiesOf w)
  /\ GameEngine.roles w'.(World.engine) = GameEngine.roles w.(World.engine)
  /\ GameEngine.playerName w'.(World.engine)
     = GameEngine.playerName w.(World.engine)
  /\ GameEngine.currentRound w'.(World.engine)
     = GameEngine.currentRound w.(World.engine)
  /\ GameEngine.playerRoleHistory w'.(World.engine)
     = GameEngine.playerRoleHistory w.(World.engine)
  /\ GameEngine.demandTrend w'.(World.engine)
     = GameEngine.demandTrend w.(World.engine)
  /\ GameEngine.currentDemandPhase w'.(World.engine)
     = GameEngine.currentDemandPhase w.(World.engine).

(** Holding costs do not decrease. *)
Definition holdsOn (k : string) (e e' : Entity.t) : Prop :=
  (Entity.holdingCosts e <= Entity.holdingCosts e')%Q.

(** The supplier, once without shipments in transit, stays so and its
    inventory does not grow. *)
Definition unsupplied (k : string) (e e' : Entity.t) : Prop :=
  k = "supplier" -> Entity.incomingShipments e = [] ->
  Entity.incomingShipments e' = []
  /\ Entity.inventory e' <= Entity.inventory e.

(** The number of orders the entity under [k] has processed. *)
Definition ordersAt (w : World.t) (k : string) : option nat :=
  (fun e => length (Entity.orderHistory e)) <$> entitiesOf w !! k.

(** The contract of [Math.random()]: every draw is in [0, 1). *)
Definition unitDraws (rnd : nat -> Q) : Prop :=
  forall n, (0 <= rnd n)%Q /\ (rnd n < 1)%Q.

(** The demand range of a phase: the rounded least and greatest values of
    [base + noise]. *)
Definition phaseLow (phase : Phase.t) : Z :=
  Math_round (inject_Z phase.(Phase.min) * (1 - phase.(Phase.volatility))).
Definition phaseHigh (phase : Phase.t) : Z :=
  Math_round (inject_Z phase.(Phase.max) * (1 + phase.(Phase.volatility))).
Definition phaseOk (phase : Phase.t) : Prop :=
  0 <= phase.(Phase.min) <= phase.(Phase.max)
  /\ (0 <= phase.(Phase.volatility))%Q /\ (phase.(Phase.volatility) <= 1)%Q.

(** The roles the engine's responsibility loop visits for [roleId]. *)
Definition engineDownstream (roleId : string) : list string :=
  drop (Z.to_nat (indexOf engineRoleOrder roleId + 1)) engineRoleOrder.

(** What the engine's responsibility loop adds for the visited role [d], for
    a role whose own unfulfilled demand is [own]. *)
Definition engineShare (entities : gmap string Entity.t) (own : Z)
           (d : string) : Z :=
  match entities !! d with
  | Some x =>
      if decide (Entity.unfulfilledDemand x > 0)
      then Z.min own (Entity.unfulfilledDemand x) else 0
  | None => 0
  end.

(** The order of the final ranking. *)
Definition cheaperFirst (x y : Ranking.t) : Prop :=
  (Ranking.totalCosts x <= Ranking.totalCosts y)%Q.

(** Entries of an [entities] object, in key order. *)
Definition exampleEntries : list (string * Entity.t) :=
  [("retailer",
    Entity.mk "retailer" "Retailer" 3 [] [] [] [] [4; 4] [12; 8; 3]
              2 (11 # 2) 2 None);
   ("distributor",
    Entity.mk "distributor" "Distributor" 9 [] [] [] [] [4; 5] [12; 10; 9]
              0 (19 # 2) 0 None);
   ("wholesaler",
    Entity.mk "wholesaler" "Wholesaler" 0 [] [] [] [] [6; 9] [12; 6; 0]
              4 3 4 None)].

(** The cost history of rounds given by their inventory and unfulfilled
    quantity. *)
Definition costHistoryOf (rounds : list (Q * Q)) : list Costs.t :=
  map (fun r => ScoreCalculator.calculateRoundCosts r.1 r.2) rounds.


(** The orders [a, a + d, a + 2d, ...], [n] of them. *)
Definition progression (a d : Z) (n : nat) : list Z :=
  map (fun i => a + d * Z.of_nat i) (seq 0 n).

(** The names of [PlayerLogic.STRATEGIES]. *)
Definition strategyNames : list string :=
  ["lean"; "balanced"; "aggressive"; "reactive"; "predictive"].

(** The units an entity holds or is about to receive, and their total over
    the chain. *)
Definition stock (e : Entity.t) : Z :=
  Entity.inventory e + sumZ (Entity.incomingShipments e).
Definition totalStock (m : gmap string Entity.t) : Z :=
  map_fold (fun _ e acc => stock e + acc) 0 m.

(** The state between two rounds of a game with non-negative orders. *)
Definition settled (e : Entity.t) : Prop := nonnegEntity e /\ emptyOrderQueue e.
Definition stockWithin (B : Z) (w : World.t) : Prop :=
  allEntities settled w /\ totalStock (entitiesOf w) <= B.

(** The ranking of [exampleEntries]. *)
Definition exampleRankings : list Ranking.t :=
  match ScoreCalculator.rankEntities exampleEntries roleOrder with
  | inr rankings => rankings
  | inl _ => []
  end.

(** A state whose expected inventory covers the incoming order and the
    buffer. *)
Definition stockedState : State.t :=
  State.mk 20 (Some 8) (Some [4; 6; 8]) (Some [2]) (Some 4).
(** * Properties *)

(** ** Arrays *)

Lemma indexOfFrom_range (x : string) (l : list string) (i : Z) :
  indexOfFrom i x l = -1 \/
  (i <= indexOfFrom i x l < i + Z.of_nat (length l)
   /\ l !! Z.to_nat (indexOfFrom i x l - i) = Some x).
Proof.
  revert i. induction l as [|y t IH]; intros i; simpl; [by left|].
  destruct (decide (y = x)) as [->|Hne].
  - right. split; [lia|]. by replace (i - i) with 0 by lia.
  - destruct (IH (i + 1)) as [Hm|[Hr Hl]]; [by left|right].
    split; [lia|].
    replace (Z.to_nat (indexOfFrom (i + 1) x t - i))
      with (S (Z.to_nat (indexOfFrom (i + 1) x t - (i + 1)))) by lia.
    done.
Qed.

Lemma indexOf_range (x : string) (l : list string) :
  indexOf l x = -1 \/
  (0 <= indexOf l x < Z.of_nat (length l)
   /\ l !! Z.to_nat (indexOf l x) = Some x).
Proof.
  unfold indexOf. destruct (indexOfFrom_range x l 0) as [H|[H1 H2]]; [by left|].
  right. split; [lia|]. by rewrite Z.sub_0_r in H2.
Qed.

Lemma at_of_nat {A} (l : list A) (i : nat) : at_ l (Z.of_nat i) = l !! i.
Proof.
  unfold at_. destruct (decide (Z.of_nat i < 0)); [lia|]. by rewrite Nat2Z.id.
Qed.

Lemma Zsum_zero {A} (f : A -> Z) (l : list A) :
  (forall a, f a = 0) -> Zsum (map f l) = 0.
Proof.
  intros Hf. induction l as [|a l IH]; simpl; [done|]. by rewrite Hf, IH.
Qed.

(** ** The responsibility score of the score calculator *)

Lemma at_nil {A} (i : Z) : at_ (@nil A) i = None.
Proof. unfold at_. by destruct (decide _). Qed.

Section Responsibility.
Variable entities : gmap string Entity.t.
Variable order : list string.
Variable depth : nat.
Hypothesis depth_le : (depth <= length order)%nat.
Hypothesis present : forall d, d ∈ order -> is_Some (entities !! d).

(** The inner loop adds the contributions of the distances it walks. *)
Lemma downstreamLoop_sum (stockout round : Z) (n : nat) (score : Z) :
  (n <= depth)%nat ->
  ScoreCalculator.downstreamLoop entities order (Z.of_nat depth)
    stockout round n score
  = inr (score + Zsum (map (contribution entities order depth
                                         stockout round)
                           (seq (depth - n + 1) n))).
Proof.
  revert score. induction n as [|i IH]; intros score Hn; simpl.
  { f_equal. lia. }
  destruct (lookup_lt_is_Some_2 order i) as [d Hd]; [lia|].
  rewrite Hd. simpl.
  destruct (present d) as [e He]; [by eapply list_elem_of_lookup_2|].
  rewrite He. rewrite IH by lia. f_equal.
  replace (depth - i + 1)%nat with (S (depth - S i + 1)) by lia.
  unfold contribution at 2. unfold stockoutAt, downstreamAt, historyOf.
  replace (Z.of_nat depth - Z.of_nat (depth - S i + 1)) with (Z.of_nat i)
    by lia.
  rewrite at_of_nat, Hd. simpl. rewrite He.
  replace (round + 2 * Z.of_nat (depth - S i + 1))
    with (round + (Z.of_nat depth - Z.of_nat i) * 2) by lia.
  destruct (Entity.stockoutHistory e) as [h|]; simpl.
  - destruct (at_ h _) as [s|]; simpl.
    + destruct (decide (s > 0)); lia.
    + destruct (decide (0 > 0)); lia.
  - rewrite at_nil. simpl. destruct (decide (0 > 0)); lia.
Qed.

(** The rounds loop adds, for every remaining round, the contributions of
    that round's stockout when it is positive. *)
Lemma roundsLoop_sum (history : list Z) (round : nat) (score : Z) :
  ScoreCalculator.roundsLoop entities order (Z.of_nat depth) history
    (Z.of_nat round) score
  = inr (score
         + Zsum (map (fun p =>
                        if decide (p.2 > 0)
                        then Zsum (map (contribution entities order depth
                                          p.2 (Z.of_nat p.1))
                                       (seq 1 depth))
                        else 0)
                     (zip (seq round (length history)) history))).
Proof.
  revert round score. induction history as [|s rest IH]; intros round score.
  { simpl. f_equal. lia. }
  simpl. destruct (decide (s > 0)).
  - rewrite Nat2Z.id, downstreamLoop_sum by lia.
    replace (Z.of_nat round + 1) with (Z.of_nat (S round)) by lia.
    rewrite IH. f_equal. replace (depth - depth + 1)%nat with 1%nat by lia. lia.
  - replace (Z.of_nat round + 1) with (Z.of_nat (S round)) by lia.
    rewrite IH. f_equal. 
Qed.
End Responsibility.

(** At position 0 or outside [roleOrder] no role is downstream. *)
Lemma roundsLoop_shallow (entities : gmap string Entity.t)
      (roleOrder : list string) (roleIndex : Z) (history : list Z)
      (round score : Z) :
  Z.to_nat roleIndex = 0%nat ->
  ScoreCalculator.roundsLoop entities roleOrder roleIndex history round score
  = inr score.
Proof.
  intros H0. revert round score.
  induction history as [|s rest IH]; intros round score; simpl; [done|].
  rewrite H0. simpl. destruct (decide (s > 0)); apply IH.
Qed.

Lemma Zsum_zip_seq (F : nat * Z -> Z) (G : nat -> Z) (h : list Z) (a : nat) :
  (forall i s, h !! i = Some s -> F ((a + i)%nat, s) = G (a + i)%nat) ->
  Zsum (map F (zip (seq a (length h)) h)) = Zsum (map G (seq a (length h))).
Proof.
  revert a. induction h as [|s rest IH]; intros a HFG; simpl; [done|].
  pose proof (HFG 0%nat s eq_refl) as H0. rewrite Nat.add_0_r in H0.
  rewrite H0. f_equal. apply IH. intros i s' Hi.
  replace (S a + i)%nat with (a + S i)%nat by lia. by apply HFG.
Qed.

(** C4.  When every role of [roleOrder] has an entity, the score calculator
    returns the mandated score: the sum, over the rounds [r] in which the
    role had a positive stockout and over the roles at distance [k >= 1]
    before it in [roleOrder] (downstream of it), of the minimum of that
    stockout and the other role's stockout at round [r + 2k], whenever the
    latter is positive. *)
Theorem responsibility_score_lag (roleId : string)
        (entities : gmap string Entity.t) (roleOrder : list string) :
  (forall d, d ∈ roleOrder -> is_Some (entities !! d)) ->
  ScoreCalculator.calculateResponsibilityScore roleId entities roleOrder
  = inr (responsibilityScore_spec roleId entities roleOrder).
Proof.
  intros present.
  unfold ScoreCalculator.calculateResponsibilityScore, responsibilityScore_spec.
  unfold historyOf at 1.
  destruct (entities !! roleId) as [entity|] eqn:He; simpl; [|done].
  destruct (Entity.stockoutHistory entity) as [history|] eqn:Hh; simpl; [|done].
  destruct (indexOf_range roleId roleOrder) as [Hm|[Hr Hl]].
  - rewrite roundsLoop_shallow by (rewrite Hm; done).
    rewrite Hm. simpl. by rewrite Zsum_zero.
  - set (depth := Z.to_nat (indexOf roleOrder roleId)).
    assert (Hd : indexOf roleOrder roleId = Z.of_nat depth) by lia.
    rewrite Hd.
    pose proof (roundsLoop_sum entities roleOrder depth ltac:(lia) present
                  history 0 0) as Hsum.
    change (Z.of_nat 0) with 0 in Hsum. rewrite Hsum.
    f_equal. rewrite Z.add_0_l. apply Zsum_zip_seq.
    intros i s Hi. simpl.
    assert (Hown : stockoutAt entities roleId (Z.of_nat i) = s).
    { unfold stockoutAt, historyOf. rewrite He, Hh. simpl.
      by rewrite at_of_nat, Hi. }
    destruct (decide (s > 0)) as [Hs|Hs].
    + f_equal. apply map_ext. intros k. unfold attributed, contribution.
      rewrite Hown, Hd. cbv zeta.
      destruct (decide (stockoutAt _ _ _ > 0)) as [Ho|Ho];
        destruct (decide (_ /\ _)) as [Hc|Hc]; try done.
      * exfalso. apply Hc. done.
      * exfalso. destruct Hc. done.
    + symmetry. apply Zsum_zero. intros k. unfold attributed.
      rewrite Hown. cbv zeta. destruct (decide (_ /\ _)) as [[? ?]|]; done.
Qed.


Section BullwhipFacts.
Variable Math_sqrt : Q -> Q.
Variable entities : gmap string Entity.t.
Variable order : list string.

Lemma bullwhipStep_other (metrics : gmap string Metrics.t) (roleId r : string)
      (index : nat) :
  r <> roleId ->
  ScoreCalculator.bullwhipStep Math_sqrt entities order metrics roleId index
    !! r = metrics !! r.
Proof.
  intros Hne. unfold ScoreCalculator.bullwhipStep.
  destruct (entities !! roleId) as [e|]; [|by rewrite lookup_insert_ne].
  destruct (Entity.orderHistory e); [by rewrite lookup_insert_ne|].
  destruct (decide (0 < index)%nat); by rewrite !lookup_insert_ne.
Qed.

Lemma bullwhipStep_variance (metrics : gmap string Metrics.t) (roleId : string)
      (index : nat) :
  Metrics.variance <$>
    (ScoreCalculator.bullwhipStep Math_sqrt entities order metrics roleId
       index !! roleId)
  = Some (orderVariance entities roleId).
Proof.
  unfold ScoreCalculator.bullwhipStep, orderVariance.
  destruct (entities !! roleId) as [e|]; [|by rewrite lookup_insert_eq].
  destruct (Entity.orderHistory e); [by rewrite lookup_insert_eq|].
  destruct (decide (0 < index)%nat); by rewrite !lookup_insert_eq.
Qed.

Lemma bullwhipLoop_frame (todo : list string) (index : nat)
      (metrics : gmap string Metrics.t) (r : string) :
  r ∉ todo ->
  ScoreCalculator.bullwhipLoop Math_sqrt entities order todo index metrics
    !! r = metrics !! r.
Proof.
  revert index metrics. induction todo as [|x rest IH]; intros index metrics Hr;
    simpl; [done|].
  apply not_elem_of_cons in Hr as [Hx Hrest].
  rewrite IH by done. by apply bullwhipStep_other.
Qed.

Lemma bullwhipLoop_app (pre post : list string) (index : nat)
      (metrics : gmap string Metrics.t) :
  ScoreCalculator.bullwhipLoop Math_sqrt entities order (pre ++ post) index
    metrics
  = ScoreCalculator.bullwhipLoop Math_sqrt entities order post
      (index + length pre)
      (ScoreCalculator.bullwhipLoop Math_sqrt entities order pre index
         metrics).
Proof.
  revert index metrics.
  induction pre as [|x pre IH]; intros index metrics; simpl.
  - by rewrite Nat.add_0_r.
  - rewrite IH. f_equal. lia.
Qed.

(** With distinct role ids, the final entry of the role at position [i] is
    the one its own callback wrote, on the metrics of the roles before it. *)
Lemma bullwhipMetrics_at (i : nat) (r : string) :
  NoDup order -> order !! i = Some r ->
  ScoreCalculator.calculateBullwhipMetrics Math_sqrt entities order !! r
  = ScoreCalculator.bullwhipStep Math_sqrt entities order
      (ScoreCalculator.bullwhipLoop Math_sqrt entities order
         (take i order) 0 ∅) r i !! r.
Proof.
  intros Hnd Hi. unfold ScoreCalculator.calculateBullwhipMetrics.
  rewrite <- (take_drop_middle order i r Hi) at 2.
  rewrite bullwhipLoop_app. simpl.
  rewrite bullwhipLoop_frame.
  - rewrite length_take_le; [done|]. apply lookup_lt_Some in Hi. lia.
  - rewrite <- (take_drop_middle order i r Hi) in Hnd.
    apply NoDup_app in Hnd as (_ & _ & Hnd).
    by apply NoDup_cons in Hnd as [? _].
Qed.

Lemma bullwhipMetrics_downstream_variance (j : nat) (d : string) :
  NoDup order -> order !! j = Some d ->
  Metrics.variance <$>
    (ScoreCalculator.bullwhipLoop Math_sqrt entities order
       (take (S j) order) 0 ∅ !! d)
  = Some (orderVariance entities d).
Proof.
  intros Hnd Hj. rewrite (take_S_r order j d Hj).
  rewrite bullwhipLoop_app. simpl. apply bullwhipStep_variance.
Qed.
End BullwhipFacts.

Lemma orOne_zero (x : Q) : x == 0 -> orOne x = 1%Q.
Proof. intros H. unfold orOne. apply Qeq_bool_iff in H. by rewrite H. Qed.

(** The entry written for a role with orders, whatever the metrics before. *)
Lemma bullwhipMetrics_entry (Math_sqrt : Q -> Q)
      (entities : gmap string Entity.t) (order : list string) (i : nat)
      (r : string) (e : Entity.t) :
  NoDup order -> order !! i = Some r -> entities !! r = Some e ->
  Entity.orderHistory e <> [] ->
  exists m,
    ScoreCalculator.calculateBullwhipMetrics Math_sqrt entities order !! r
    = Some m
    /\ Metrics.coefficientOfVariation m
       = Some (if Qlt_le_dec 0 (ScoreCalculator.meanOf (Entity.orderHistory e))
               then (Math_sqrt
                       (ScoreCalculator.varianceOf (Entity.orderHistory e))
                     / ScoreCalculator.meanOf (Entity.orderHistory e))%Q
               else 0%Q)
    /\ Metrics.bullwhipRatio m
       = Some (match i with
               | O => 1%Q
               | S j =>
                   (ScoreCalculator.varianceOf (Entity.orderHistory e)
                    / orOne (orOne (orderVariance entities
                                      (default "undefined" (order !! j)))))%Q
               end).
Proof.
  intros Hnd Hi He Hne.
  rewrite (bullwhipMetrics_at Math_sqrt entities order i r Hnd Hi).
  unfold ScoreCalculator.bullwhipStep. rewrite He.
  destruct (Entity.orderHistory e) as [|o os] eqn:Ho; [done|].
  destruct i as [|j]; simpl.
  { rewrite lookup_insert_eq. eexists. split; [done|]. by split. }
  rewrite lookup_insert_eq. eexists. split; [done|]. split; [done|].
  simpl. rewrite Nat.sub_0_r.
  destruct (lookup_lt_is_Some_2 order j) as [d Hj].
  { apply lookup_lt_Some in Hi. lia. }
  rewrite Hj. simpl.
  assert (Hrd : r <> d).
  { intros ->. pose proof (NoDup_lookup _ _ _ _ Hnd Hi Hj). lia. }
  rewrite lookup_insert_ne by done.
  pose proof (bullwhipMetrics_downstream_variance Math_sqrt entities order
                j d Hnd Hj) as Hd.
  destruct (_ !! d) as [md|]; [|done]. simpl in *. by injection Hd as ->.
Qed.

(** C7, counterexample.  The retailer's orders are constant, so its variance
    is 0, and the distributor's bullwhip ratio is its own variance 4, not 1. *)
Lemma bullwhip_ratio_flat_downstream :
  orderVariance flatRetailerEntities "retailer" == 0 /\
  exists m q,
    ScoreCalculator.calculateBullwhipMetrics sqrtApprox flatRetailerEntities
      ["retailer"; "distributor"] !! "distributor" = Some m
    /\ Metrics.bullwhipRatio m = Some q /\ q == 4 /\ ~ q == 1.
Proof.
  split; [by vm_compute|].
  eexists _, _. split; [vm_compute; reflexivity|].
  split; [reflexivity|]. split; by vm_compute.
Qed.

(** C7, amended.  With a zero denominator, [calculateServiceLevel] and
    [calculateFillRate] return 100 and [calculateInventoryTurnover] returns
    0.  In [calculateBullwhipMetrics], for distinct role ids and a role with
    a non-empty order history: the coefficient of variation is 0 when the
    mean is 0; the bullwhip ratio is 1 for the role at index 0; and when the
    variance of the role just before it in [roleOrder] is 0 the denominator
    is replaced by 1, so the ratio is the role's own variance. *)
Theorem division_guard_defaults (Math_sqrt : Q -> Q) :
  (forall fulfilled total,
      total == 0 ->
      ScoreCalculator.calculateServiceLevel fulfilled total = 100%Q)
  /\ (forall ordersFilled totalOrders,
         totalOrders == 0 ->
         ScoreCalculator.calculateFillRate ordersFilled totalOrders = 100%Q)
  /\ (forall avgInventory totalDemand periods,
         avgInventory == 0 ->
         ScoreCalculator.calculateInventoryTurnover avgInventory totalDemand
           periods = 0%Q)
  /\ (forall entities order i r e,
         NoDup order -> order !! i = Some r ->
         entities !! r = Some e -> Entity.orderHistory e <> [] ->
         exists m,
           ScoreCalculator.calculateBullwhipMetrics Math_sqrt entities order
             !! r = Some m
           /\ (ScoreCalculator.meanOf (Entity.orderHistory e) == 0 ->
               Metrics.coefficientOfVariation m = Some 0%Q)
           /\ (i = 0%nat -> Metrics.bullwhipRatio m = Some 1%Q)
           /\ (forall j d,
                  i = S j -> order !! j = Some d ->
                  orderVariance entities d == 0 ->
                  Metrics.bullwhipRatio m
                  = Some (ScoreCalculator.varianceOf (Entity.orderHistory e)
                          / 1)%Q)).
Proof.
  split; [|split; [|split]].
  - intros f t Ht. unfold ScoreCalculator.calculateServiceLevel.
    apply Qeq_bool_iff in Ht. by rewrite Ht.
  - intros f t Ht. unfold ScoreCalculator.calculateFillRate.
    apply Qeq_bool_iff in Ht. by rewrite Ht.
  - intros a t p Ha. unfold ScoreCalculator.calculateInventoryTurnover.
    apply Qeq_bool_iff in Ha. by rewrite Ha.
  - intros entities order i r e Hnd Hi He Hne.
    destruct (bullwhipMetrics_entry Math_sqrt entities order i r e Hnd Hi He
                Hne) as (m & Hm & Hcv & Hratio).
    exists m. split; [done|]. split; [|split].
    + intros Hmean. rewrite Hcv.
      destruct (Qlt_le_dec 0 _) as [Hlt|Hle]; [|done].
      exfalso. rewrite Hmean in Hlt. by apply Qlt_irrefl in Hlt.
    + intros ->. done.
    + intros j d -> Hj Hvar. rewrite Hratio, Hj. simpl.
      rewrite (orOne_zero _ Hvar). done.
Qed.

(** ** Rounding *)

Lemma Math_round_inject_Z (z : Z) : Math_round (inject_Z z) = z.
Proof.
  unfold Math_round, Qfloor, Qplus, inject_Z. simpl.
  symmetry. apply Z.div_unique with (r := 1); lia.
Qed.

Lemma Math_round_nonneg (x : Q) : (0 <= x)%Q -> 0 <= Math_round x.
Proof.
  intros Hx. unfold Math_round. change 0 with (Qfloor 0).
  apply Qfloor_resp_le. 
  apply Qle_trans with x; [done|].
  rewrite <- (Qplus_0_r x) at 1. by apply Qplus_le_r.
Qed.


Lemma Math_maxQ_nonneg (x : Q) : (0 <= Math_maxQ 0 x)%Q.
Proof.
  unfold Math_maxQ. destruct (Qlt_le_dec 0 x); [by apply Qlt_le_weak|].
  apply Qle_refl.
Qed.


(** ** The predictive strategy *)

Lemma sumZ_from (l : list Z) (a : Z) : fold_left Z.add l a = a + sumZ l.
Proof.
  unfold sumZ. revert a. induction l as [|x l IH]; intros a; simpl; [lia|].
  rewrite IH, (IH (0 + x)). lia.
Qed.





Lemma balancedStrategy_nonneg (state : State.t) :
  0 <= PlayerLogic.balancedStrategy state.
Proof.
  unfold PlayerLogic.balancedStrategy. rewrite Math_round_inject_Z. lia.
Qed.


(** ** Reasoning about the engine monad *)

Section WP.
Context {A B : Type}.
Implicit Types (Q : A -> World.t -> Prop) (E : World.t -> Prop) (w : World.t).

Lemma wp_ret (a : A) Q E w : Q a w -> wp (ret a) Q E w.
Proof. done. Qed.

Lemma wp_throw (e : JsError) Q E w : E w -> wp (throw e) Q E w.
Proof. done. Qed.

Lemma wp_bind (m : M B) (k : B -> M A) Q E w :
  wp m (fun b w' => wp (k b) Q E w') E w -> wp (bind m k) Q E w.
Proof. unfold wp, bind. by destruct (m w) as [[e|b] w']. Qed.

Lemma wp_mono (m : M A) Q Q' E E' w :
  wp m Q E w ->
  (forall a w', Q a w' -> Q' a w') -> (forall w', E w' -> E' w') ->
  wp m Q' E' w.
Proof. unfold wp. destruct (m w) as [[e|a] w']; eauto. Qed.
End WP.

Lemma wp_forEach {A} (f : A -> M unit) (l : list A) (I E : World.t -> Prop) w :
  (forall x w', x ∈ l -> I w' -> wp (f x) (fun _ => I) E w') ->
  I w -> wp (forEach f l) (fun _ => I) E w.
Proof.
  revert w. induction l as [|x t IH]; intros w Hf HI; simpl; [done|].
  apply wp_bind.
  eapply wp_mono; [apply Hf; [apply list_elem_of_here|done]| |done].
  intros [] w' HI'. apply IH; [|done].
  intros y w'' Hy. apply Hf. by apply list_elem_of_further.
Qed.

Lemma wp_entityOf (roleId : string) (Q : Entity.t -> World.t -> Prop) E w :
  (forall e, entitiesOf w !! roleId = Some e -> Q e w) ->
  (entitiesOf w !! roleId = None -> E w) ->
  wp (entityOf roleId) Q E w.
Proof.
  unfold wp, entityOf, entitiesOf. intros HQ HE.
  destruct (_ !! roleId); eauto.
Qed.

Lemma wp_setEntity (roleId : string) (e : Entity.t)
      (Q : unit -> World.t -> Prop) E w :
  Q tt (World.mk (GameEngine.set_entities (<[roleId := e]> (entitiesOf w))
                    w.(World.engine))
                 w.(World.draws)) ->
  wp (setEntity roleId e) Q E w.
Proof. done. Qed.

Lemma wp_Math_random (rnd : nat -> Q) (Q : Q -> World.t -> Prop) E w :
  Q (rnd w.(World.draws)) (World.mk w.(World.engine) (S w.(World.draws))) ->
  wp (Math_random rnd) Q E w.
Proof. done. Qed.

Lemma wp_getEngine (Q : GameEngine.t -> World.t -> Prop) E w :
  Q w.(World.engine) w -> wp getEngine Q E w.
Proof. done. Qed.

Lemma allEntities_set (G : Entity.t -> Prop) (roleId : string)
      (e : Entity.t) w :
  allEntities G w -> G e ->
  allEntities G
    (World.mk (GameEngine.set_entities (<[roleId := e]> (entitiesOf w))
                 w.(World.engine))
              w.(World.draws)).
Proof.
  unfold allEntities, entitiesOf. simpl. intros Hall He.
  by apply map_Forall_insert_2.
Qed.

Lemma allEntities_lookup (G : Entity.t -> Prop) (roleId : string) e w :
  allEntities G w -> entitiesOf w !! roleId = Some e -> G e.
Proof. intros Hall He. by apply (Hall roleId e). Qed.

(** ** Rounding to binary64 *)


Lemma scaled_den_pos (e n d : Z) : 0 < d -> 0 < (scaled e n d).2.
Proof.
  intros Hd. unfold scaled. destruct (decide (0 <= e)); simpl; [|done].
  apply Z.mul_pos_pos; [done|]. by apply Z.pow_pos_nonneg.
Qed.


Lemma roundEven_ge (n d z : Z) : 0 < d -> z * d <= n -> z <= roundEven n d.
Proof.
  intros Hd Hn. unfold roundEven.
  assert (Hq : z <= n / d) by (apply Z.div_le_lower_bound; lia).
  repeat destruct (decide _); try destruct (Z.even _); lia.
Qed.

(** The exponent found is not too large. *)
Lemma ilog2_lower (n d : Z) :
  0 < n -> 0 < d -> 0 <= ilog2 n d -> 2 ^ ilog2 n d * d <= n.
Proof.
  intros Hn Hd. unfold ilog2, scaled.
  pose proof (Z.log2_spec n Hn) as [Hn1 Hn2].
  pose proof (Z.log2_spec d Hd) as [Hd1 Hd2].
  pose proof (Z.log2_nonneg n) as Hln. pose proof (Z.log2_nonneg d) as Hld.
  set (a := Z.log2 n) in *. set (b := Z.log2 d) in *.
  destruct (decide (0 <= a - b)) as [Hl|Hl]; simpl.
  - destruct (decide (n < d * 2 ^ (a - b))) as [Hlt|Hge]; intros HL; [|lia].
    assert (Hpow : 2 ^ (a - b - 1) * 2 ^ Z.succ b = 2 ^ a).
    { rewrite <- Z.pow_add_r by lia. f_equal. lia. }
    assert (0 < 2 ^ (a - b - 1)) by (apply Z.pow_pos_nonneg; lia).
    nia.
  - destruct (decide _); intros HL; lia.
Qed.

Section Rounding.
Variables (n d z : Z).
Hypothesis n_pos : 0 < n.
Hypothesis d_pos : 0 < d.
Hypothesis z_small : z < 2 ^ 53.


Lemma fl64pos_ge : 0 <= z -> z * d <= n -> (inject_Z z <= fl64pos n d)%Q.
Proof.
  intros Hz Hx. unfold fl64pos.
  set (e := Z.max (ilog2 n d - 52) (-1074)).
  pose proof (scaled_den_pos e n d d_pos) as Hden.
  destruct (decide (0 <= e)) as [He|He].
  - rewrite <- Zle_Qle. unfold scaled in *.
    destruct (decide (0 <= e)); [|lia]. simpl in *.
    assert (Hp : 0 < 2 ^ e) by (by apply Z.pow_pos_nonneg).
    destruct (decide (e = 0)) as [He0|He0].
    + rewrite He0. simpl. rewrite Z.mul_1_r.
      apply roundEven_ge; [lia|]. rewrite Z.mul_1_r. done.
    + assert (HL : ilog2 n d = e + 52) by lia.
      pose proof (ilog2_lower n d n_pos d_pos ltac:(lia)) as Hlow.
      rewrite HL, Z.pow_add_r in Hlow by lia.
      assert (Hm : 2 ^ 52 <= roundEven n (d * 2 ^ e))
        by (apply roundEven_ge; [lia|nia]).
      assert (2 <= 2 ^ e).
      { change 2 with (2 ^ 1) at 1. apply Z.pow_le_mono_r; lia. }
      change (2 ^ 53) with (2 ^ 52 * 2) in z_small. nia.
  - rewrite Qred_correct. unfold scaled in *.
    destruct (decide (0 <= e)); [lia|]. simpl in *.
    assert (Hp : 0 < 2 ^ (- e)) by (apply Z.pow_pos_nonneg; lia).
    unfold Qle. simpl. rewrite Z2Pos.id by done. rewrite Z.mul_1_r.
    apply roundEven_ge; [done|]. nia.
Qed.
End Rounding.


Lemma fl64_ge_int (x : Q) (z : Z) :
  0 <= z -> z < 2 ^ 53 -> (inject_Z z <= x)%Q -> (inject_Z z <= fl64 x)%Q.
Proof.
  intros H0 Hz Hx. rewrite <- (Qred_correct x) in Hx. unfold fl64.
  destruct (Qred x) as [n d]. unfold Qle in Hx. simpl in *.
  destruct n as [|p|p]; [| |lia].
  - change 0%Q with (inject_Z 0). rewrite <- Zle_Qle. lia.
  - apply fl64pos_ge; lia.
Qed.

Lemma fl64_nonneg (x : Q) : (0 <= x)%Q -> (0 <= fl64 x)%Q.
Proof. intros H. by apply (fl64_ge_int x 0). Qed.


(** ** Rounded quantities are non-negative *)

Lemma Math_floor_scaled_nonneg (z : Z) (c : Q) :
  0 <= z -> (0 <= c)%Q -> 0 <= Math_floor (fl64 (inject_Z z * fl64 c)).
Proof.
  intros Hz Hc. unfold Math_floor. change 0 with (Qfloor 0).
  apply Qfloor_resp_le, fl64_nonneg.
  apply Qmult_le_0_compat; [|by apply fl64_nonneg].
  change 0%Q with (inject_Z 0). by rewrite <- Zle_Qle.
Qed.

Lemma Math_ceil_scaled_nonneg (z : Z) (c : Q) :
  0 <= z -> (0 <= c)%Q -> 0 <= Math_ceil (fl64 (inject_Z z * fl64 c)).
Proof.
  intros Hz Hc. unfold Math_ceil. change 0 with (Qceiling 0).
  apply Qceiling_resp_le, fl64_nonneg.
  apply Qmult_le_0_compat; [|by apply fl64_nonneg].
  change 0%Q with (inject_Z 0). by rewrite <- Zle_Qle.
Qed.

(** ** Entity invariants preserved by a round *)

Lemma initEntities_all (G : Entity.t -> Prop) (roles : list Role.t) :
  (forall role, G (newEntity role)) ->
  map_Forall (fun _ e => G e) (initEntities roles).
Proof.
  intros HG. unfold initEntities.
  assert (Hgen : forall m : gmap string Entity.t,
             map_Forall (fun _ e => G e) m ->
             map_Forall (fun _ e => G e)
               (fold_left (fun m role => <[Role.id role := newEntity role]> m)
                          roles m)).
  { induction roles as [|r rs IH]; intros m Hm; simpl; [done|].
    apply IH. by apply map_Forall_insert_2. }
  apply Hgen, map_Forall_empty.
Qed.

Section Preservation.
Variable rnd : nat -> Q.
(** [G] is the property of entities, [V] the property of the quantities that
    flow between them; the steps of a round keep them. *)
Variable G : Entity.t -> Prop.
Variable V : Z -> Prop.
Hypothesis closed : RoundClosed.t G V.

Lemma getCustomerDemand_preserves (round : Z) w :
  allEntities G w ->
  wp (getCustomerDemand rnd round)
     (fun v w' => allEntities G w' /\ V v) (allEntities G) w.
Proof.
  intros HI. unfold getCustomerDemand.
  destruct (decide _).
  { apply wp_ret. split; [done|]. by apply (RoundClosed.nonneg closed). }
  apply wp_bind, wp_getEngine, wp_bind, wp_Math_random.
  destruct (at_ _ _) as [phase|]; [|by apply wp_throw].
  apply wp_bind, wp_Math_random, wp_ret.
  split; [done|]. apply (RoundClosed.nonneg closed). lia.
Qed.

Lemma calculateAIOrder_preserves (entity : Entity.t) (strategy : Strategy)
      (currentOrder round : Z) w :
  allEntities G w ->
  wp (calculateAIOrder rnd entity strategy currentOrder round)
     (fun v w' => allEntities G w' /\ V v) (allEntities G) w.
Proof.
  intros HI. unfold calculateAIOrder.
  apply wp_bind, wp_Math_random, wp_ret. split; [done|].
  apply (RoundClosed.nonneg closed). rewrite Math_round_inject_Z.
  destruct (decide _); [apply Math_floor_scaled_nonneg; [lia|done]|].
  destruct (decide _); [apply Math_ceil_scaled_nonneg; [lia|done]|lia].
Qed.

Lemma processAIEntity_preserves (round : Z) (playerRoleId roleId : string) w :
  allEntities G w ->
  wp (processAIEntity rnd round playerRoleId roleId)
     (fun _ => allEntities G) (allEntities G) w.
Proof.
  intros HI. unfold processAIEntity.
  destruct (decide (roleId = playerRoleId)); [by apply wp_ret|].
  apply wp_bind.
  apply wp_mono with (Q := fun v w' => allEntities G w' /\ V v)
                     (E := allEntities G); [| |done].
  { destruct (decide (roleId = "retailer")).
    - by apply getCustomerDemand_preserves.
    - apply wp_bind, wp_entityOf; [|done]. intros d Hd.
      pose proof (RoundClosed.shift_outgoing closed d
                    (allEntities_lookup _ _ _ _ HI Hd)) as [Hg Hv].
      destruct (shift (Entity.outgoingOrders d)) as [o rest].
      apply wp_bind, wp_setEntity, wp_ret. split; [|done].
      by apply allEntities_set. }
  clear w HI. intros incomingOrder w [HI Hin].
  apply wp_bind, wp_entityOf; [|done]. intros entity He.
  pose proof (allEntities_lookup _ _ _ _ HI He) as Hge.
  pose proof (RoundClosed.queue_order closed entity incomingOrder Hge Hin)
    as [Hg1 Hv1].
  destruct (shift (push _ _)) as [o rest]. simpl in Hg1, Hv1.
  pose proof (RoundClosed.fulfil closed _ _ Hg1 Hv1) as [Hg2 Hv2].
  destruct (fulfilAndReceive _ _) as [entity' q]. simpl in Hg2, Hv2.
  apply wp_bind.
  eapply wp_mono; [by apply calculateAIOrder_preserves| |done].
  clear w HI He. intros orderQuantity w [HI Hq]. simpl.
  apply wp_bind, wp_setEntity.
  set (w1 := World.mk _ _).
  assert (HI1 : allEntities G w1).
  { apply allEntities_set; [done|]. by apply (RoundClosed.place closed). }
  clearbody w1. apply wp_bind.
  apply wp_mono with (Q := fun _ => allEntities G) (E := allEntities G);
    [| |done].
  - destruct (decide (roleId <> "retailer")); [|by apply wp_ret].
    apply wp_bind, wp_entityOf; [|done]. intros d Hd.
    apply wp_setEntity, allEntities_set; [done|].
    apply (RoundClosed.push_shipment closed); [|done].
    by eapply allEntities_lookup.
  - intros ? w2 HI2. by apply wp_ret.
Qed.

Lemma processAIEntities_preserves (round : Z) (playerRoleId : string) w :
  allEntities G w ->
  wp (processAIEntities rnd round playerRoleId)
     (fun _ => allEntities G) (allEntities G) w.
Proof.
  intros HI. unfold processAIEntities. apply wp_bind.
  eapply wp_mono;
    [apply (wp_forEach _ _ (allEntities G) (allEntities G))| |done];
    [|done|].
  - intros roleId w' _ HI'. apply wp_bind.
    eapply wp_mono; [by apply processAIEntity_preserves| |done].
    intros ? ? ?. by apply wp_ret.
  - clear w HI. intros [] w HI.
    apply wp_bind, wp_entityOf; [|done]. intros s Hs.
    apply wp_bind, wp_entityOf; [|done]. intros m Hm.
    apply wp_setEntity, allEntities_set; [done|].
    apply (RoundClosed.push_shipment closed); [by eapply allEntities_lookup|].
    apply (RoundClosed.last_order closed). by eapply allEntities_lookup.
Qed.

Lemma processPlayerOrder_preserves (roleId : string) (quantity round : Z) w :
  V quantity -> allEntities G w ->
  wp (processPlayerOrder rnd roleId quantity round)
     (fun _ => allEntities G) (allEntities G) w.
Proof.
  intros Hq HI. unfold processPlayerOrder.
  apply wp_bind, wp_entityOf; [|done]. intros entity He.
  pose proof (allEntities_lookup _ _ _ _ HI He) as Hge.
  pose proof (RoundClosed.next_order closed entity Hge) as [Hg1 Hv1].
  destruct (shift _) as [o rest]. simpl in Hg1, Hv1.
  pose proof (RoundClosed.fulfil closed _ _ Hg1 Hv1) as [Hg2 Hv2].
  destruct (fulfilAndReceive _ _) as [entity' q]. simpl in Hg2, Hv2.
  apply wp_bind, wp_setEntity.
  set (w1 := World.mk _ _).
  assert (HI1 : allEntities G w1).
  { apply allEntities_set; [done|]. by apply (RoundClosed.place closed). }
  clearbody w1. apply wp_bind.
  eapply wp_mono; [by apply processAIEntities_preserves| |done].
  intros ? w2 HI2. apply wp_bind, wp_entityOf; [|done]. intros e2 He2.
  by apply wp_ret.
Qed.

Lemma play_preserves (turns : list (string * Z * Z)) w :
  Forall (fun t => V t.1.2) turns -> allEntities G w ->
  wp (play rnd turns) (fun _ => allEntities G) (allEntities G) w.
Proof.
  revert w. induction turns as [|[[roleId quantity] round] rest IH];
    intros w Hq HI; simpl; [by apply wp_ret|].
  apply Forall_cons in Hq as [Hq Hrest]. apply wp_bind.
  eapply wp_mono; [by apply processPlayerOrder_preserves| |done].
  intros r w1 HI1. apply wp_bind.
  eapply wp_mono; [by apply IH| |done].
  intros rs w2 HI2. by apply wp_ret.
Qed.

(** What holds of the entities the constructor builds holds in every state a
    game reaches. *)
Lemma play_reaches (roles : list Role.t) (playerName : string)
      (turns : list (string * Z * Z)) :
  (forall role, G (newEntity role)) ->
  Forall (fun t => V t.1.2) turns ->
  allEntities G (snd (play rnd turns (newWorld roles playerName))).
Proof.
  intros Hnew Hq.
  pose proof (play_preserves turns (newWorld roles playerName) Hq
                (initEntities_all G roles Hnew)) as Hwp.
  unfold wp in Hwp. by destruct (play rnd turns _) as [[?|?] ?].
Qed.
End Preservation.

(** ** Non-negative inventories *)

Lemma nonneg_shift_outgoing (e : Entity.t) :
  nonnegEntity e ->
  nonnegEntity
    (Entity.set_outgoingOrders (snd (shift (Entity.outgoingOrders e))) e)
  /\ 0 <= orZero (fst (shift (Entity.outgoingOrders e))).
Proof.
  intros (Hi & Hio & Hoo & His).
  destruct (Entity.outgoingOrders e) as [|x t] eqn:Ho; simpl.
  - split; [|done]. repeat split; simpl; done.
  - apply Forall_cons in Hoo as [Hx Ht]. split; [|done].
    repeat split; simpl; done.
Qed.

Lemma nonneg_push_shipment (e : Entity.t) (x : Z) :
  nonnegEntity e -> 0 <= x ->
  nonnegEntity
    (Entity.set_incomingShipments (push (Entity.incomingShipments e) x) e).
Proof.
  intros (Hi & Hio & Hoo & His) Hx. repeat split; simpl; try done.
  apply Forall_app. split; [done|]. by apply Forall_singleton.
Qed.

Lemma nonneg_queue_order (e : Entity.t) (x : Z) :
  nonnegEntity e -> 0 <= x ->
  nonnegEntity
    (Entity.set_incomingOrders
       (snd (shift (push (Entity.incomingOrders e) x))) e)
  /\ 0 <= orZero (fst (shift (push (Entity.incomingOrders e) x))).
Proof.
  intros (Hi & Hio & Hoo & His) Hx.
  destruct (Entity.incomingOrders e) as [|y t] eqn:Ho; simpl.
  - split; [|done]. repeat split; simpl; done.
  - apply Forall_cons in Hio as [Hy Ht]. split; [|done].
    repeat split; simpl; try done.
    apply Forall_app. split; [done|]. by apply Forall_singleton.
Qed.

Lemma nonneg_next_order (e : Entity.t) :
  nonnegEntity e ->
  nonnegEntity
    (Entity.set_incomingOrders (snd (shift (Entity.incomingOrders e))) e)
  /\ 0 <= orZero (fst (shift (Entity.incomingOrders e))).
Proof.
  intros (Hi & Hio & Hoo & His).
  destruct (Entity.incomingOrders e) as [|y t] eqn:Ho; simpl.
  - split; [|done]. repeat split; simpl; done.
  - apply Forall_cons in Hio as [Hy Ht]. split; [|done].
    repeat split; simpl; done.
Qed.

Lemma nonneg_fulfil (e : Entity.t) (x : Z) :
  nonnegEntity e -> 0 <= x ->
  nonnegEntity (fst (fulfilAndReceive x e))
  /\ 0 <= Quantities.fulfilled (snd (fulfilAndReceive x e)).
Proof.
  intros (Hi & Hio & Hoo & His) Hx. unfold fulfilAndReceive.
  destruct (decide _) as [Hlen|Hlen].
  - destruct (Entity.incomingShipments e) as [|s rest] eqn:Hs; simpl.
    + split; [|lia]. repeat split; simpl; try done. lia.
    + apply Forall_cons in His as [Hs0 Hrest].
      split; [|lia]. repeat split; simpl; try done. lia.
  - simpl. split; [|lia]. repeat split; simpl; try done. lia.
Qed.

Lemma nonneg_place (e : Entity.t) (q : Quantities.t) (x : Z) :
  nonnegEntity e -> 0 <= x -> nonnegEntity (placeAndAccrue x q e).
Proof.
  intros (Hi & Hio & Hoo & His) Hx. repeat split; simpl; try done.
  apply Forall_app. split; [done|]. by apply Forall_singleton.
Qed.

Lemma nonneg_last_order (e : Entity.t) (i : Z) :
  nonnegEntity e -> 0 <= orZero (at_ (Entity.incomingOrders e) i).
Proof.
  intros (Hi & Hio & Hoo & His). unfold at_.
  destruct (decide _); [done|].
  destruct (_ !! _) as [y|] eqn:Hy; [|done]. simpl.
  by apply (Forall_lookup_1 _ _ _ _ Hio Hy).
Qed.

Lemma nonneg_closed : RoundClosed.t nonnegEntity (fun z => 0 <= z).
Proof.
  constructor;
    [ done | exact nonneg_shift_outgoing | exact nonneg_push_shipment
    | exact nonneg_queue_order | exact nonneg_next_order | exact nonneg_fulfil
    | exact nonneg_place | exact nonneg_last_order ].
Qed.

Lemma wp_trivial {A} (m : M A) w : wp m (fun _ _ => True) (fun _ => True) w.
Proof. unfold wp. by destruct (m w) as [[?|?] ?]. Qed.

Lemma fulfilAndReceive_quantities (order : Z) (e : Entity.t) :
  let q := snd (fulfilAndReceive order e) in
  Quantities.orderToProcess q = order
  /\ Quantities.fulfilled q = Z.min order (Entity.inventory e)
  /\ Quantities.fulfilled q + Quantities.unfulfilled q = order.
Proof.
  unfold fulfilAndReceive.
  destruct (decide _); [destruct (shift _) as [[s|] r]|];
    simpl; repeat split; lia.
Qed.

(** What a round computes for the externally driven role. *)
Lemma processPlayerOrder_quantities (rnd : nat -> Q) (roleId : string)
      (quantity round : Z) w (e : Entity.t) :
  entitiesOf w !! roleId = Some e ->
  wp (processPlayerOrder rnd roleId quantity round)
     (fun r _ =>
        let order := orZero (head (Entity.incomingOrders e)) in
        OrderResult.fulfilled r = Z.min order (Entity.inventory e)
        /\ OrderResult.fulfilled r + OrderResult.unfulfilled r = order)
     (fun _ => True) w.
Proof.
  intros He. unfold processPlayerOrder.
  apply wp_bind, wp_entityOf; [|done]. intros e' He'.
  assert (e' = e) as -> by congruence.
  assert (Ho : fst (shift (Entity.incomingOrders e))
               = head (Entity.incomingOrders e))
    by (by destruct (Entity.incomingOrders e)).
  destruct (shift _) as [o rest]. simpl in Ho. subst o.
  pose proof (fulfilAndReceive_quantities
                (orZero (head (Entity.incomingOrders e)))
                (Entity.set_incomingOrders rest e)) as (_ & Hf & Hsum).
  destruct (fulfilAndReceive _ _) as [entity' q]. simpl in Hf, Hsum.
  apply wp_bind, wp_setEntity, wp_bind.
  eapply wp_mono; [apply wp_trivial| |done].
  intros ? w2 _. apply wp_bind, wp_entityOf; [|done]. intros e2 _.
  apply wp_ret. simpl. done.
Qed.

Lemma getCustomerDemand_entities (rnd : nat -> Q) (round : Z) w :
  wp (getCustomerDemand rnd round)
     (fun _ w' => entitiesOf w' = entitiesOf w)
     (fun w' => entitiesOf w' = entitiesOf w) w.
Proof.
  unfold getCustomerDemand. destruct (decide _); [by apply wp_ret|].
  apply wp_bind, wp_getEngine, wp_bind, wp_Math_random.
  destruct (at_ _ _) as [phase|]; [|by apply wp_throw].
  by apply wp_bind, wp_Math_random, wp_ret.
Qed.

Lemma fulfilAndReceive_records (order quantity : Z) (e : Entity.t) :
  let f := fulfilAndReceive order e in
  Entity.orderHistory (placeAndAccrue quantity (snd f) (fst f))
  = push (Entity.orderHistory e) order
  /\ Entity.unfulfilledDemand (placeAndAccrue quantity (snd f) (fst f))
     = Entity.unfulfilledDemand e + Quantities.unfulfilled (snd f).
Proof.
  unfold fulfilAndReceive.
  destruct (decide _); [destruct (shift _) as [[s|] r]|]; by simpl.
Qed.

(** What an iteration of the loop computes for an internally driven role
    whose entity is [e] when the iteration starts, and what it records. *)
Lemma processAIEntity_fulfils (rnd : nat -> Q) (round : Z)
      (playerRoleId roleId : string) w (e : Entity.t) :
  entitiesOf w !! roleId = Some e ->
  wp (processAIEntity rnd round playerRoleId roleId)
     (fun v w' =>
        forall q, v = Some q ->
          Quantities.fulfilled q
          = Z.min (Quantities.orderToProcess q) (Entity.inventory e)
          /\ Quantities.fulfilled q + Quantities.unfulfilled q
             = Quantities.orderToProcess q
          /\ exists e',
               entitiesOf w' !! roleId = Some e'
               /\ Entity.orderHistory e'
                  = push (Entity.orderHistory e) (Quantities.orderToProcess q)
               /\ Entity.unfulfilledDemand e'
                  = Entity.unfulfilledDemand e + Quantities.unfulfilled q)
     (fun _ => True) w.
Proof.
  intros He. unfold processAIEntity.
  destruct (decide (roleId = playerRoleId)); [by apply wp_ret|].
  apply wp_bind.
  apply wp_mono
    with (Q := fun _ w1 =>
                 exists e1, entitiesOf w1 !! roleId = Some e1
                            /\ Entity.inventory e1 = Entity.inventory e
                            /\ Entity.orderHistory e1 = Entity.orderHistory e
                            /\ Entity.unfulfilledDemand e1
                               = Entity.unfulfilledDemand e)
         (E := fun _ => True); [| |done].
  { destruct (decide (roleId = "retailer")).
    - eapply wp_mono; [apply getCustomerDemand_entities| |done].
      intros ? w1 Hw. exists e. by rewrite Hw.
    - apply wp_bind, wp_entityOf; [|done]. intros d Hd.
      destruct (shift (Entity.outgoingOrders d)) as [o rest].
      apply wp_bind, wp_setEntity, wp_ret.
      unfold entitiesOf in *. simpl.
      destruct (decide (downstreamRoleIdOf roleId = roleId)) as [Heq|Hne].
      + rewrite Heq in *. rewrite lookup_insert_eq.
        assert (d = e) as -> by congruence. by eexists.
      + rewrite lookup_insert_ne by done. by exists e. }
  intros incomingOrder w1 (e1 & He1 & Hinv & Hoh & Hud).
  apply wp_bind, wp_entityOf; [|done]. intros entity Hentity.
  assert (entity = e1) as -> by congruence.
  destruct (shift (push _ _)) as [o rest].
  pose proof (fulfilAndReceive_quantities (orZero o)
                (Entity.set_incomingOrders rest e1)) as (Ho & Hf & Hsum).
  pose proof (fun y => fulfilAndReceive_records (orZero o) y
                         (Entity.set_incomingOrders rest e1)) as Hrec.
  destruct (fulfilAndReceive _ _) as [entity' q].
  cbv zeta in Ho, Hf, Hsum, Hrec.
  cbn [fst snd Entity.inventory Entity.orderHistory Entity.unfulfilledDemand
       Entity.set_incomingOrders] in Ho, Hf, Hsum, Hrec.
  apply wp_bind. eapply wp_mono; [apply wp_trivial| |done].
  intros orderQuantity w2 _. apply wp_bind, wp_setEntity.
  specialize (Hrec orderQuantity). destruct Hrec as [Hrec1 Hrec2].
  set (e2 := placeAndAccrue orderQuantity q entity') in *. clearbody e2.
  apply wp_bind.
  apply wp_mono
    with (Q := fun _ w3 =>
                 exists e', entitiesOf w3 !! roleId = Some e'
                            /\ Entity.orderHistory e' = Entity.orderHistory e2
                            /\ Entity.unfulfilledDemand e'
                               = Entity.unfulfilledDemand e2)
         (E := fun _ => True); [| |done].
  - destruct (decide (roleId <> "retailer")).
    + apply wp_bind, wp_entityOf; [|done]. intros d Hd.
      apply wp_setEntity. unfold entitiesOf in *. simpl in *.
      destruct (decide (downstreamRoleIdOf roleId = roleId)) as [Heq|Hne].
      * rewrite Heq in *. rewrite lookup_insert_eq in Hd.
        injection Hd as <-. rewrite lookup_insert_eq. by eexists.
      * rewrite lookup_insert_ne by done. rewrite lookup_insert_eq.
        by exists e2.
    + apply wp_ret. unfold entitiesOf. simpl. rewrite lookup_insert_eq.
      by exists e2.
  - intros ? w3 (e' & He' & Hoh' & Hud'). apply wp_ret.
    intros q' [= <-]. split; [lia|]. split; [lia|].
    exists e'. split; [done|]. rewrite Hoh', Hud', Hrec1, Hrec2, Ho, Hoh, Hud.
    done.
Qed.

(** C5, counterexample.  The distributor, driven externally, orders -100
    three times (draws 1/2).  The wholesaler fulfils min(-100, 12) = -100 and
    ships it; in round 3 the distributor receives it and its inventory is
    12 - 100 = -88. *)
Lemma negative_order_breaks_inventory :
  Entity.inventory <$>
    (entitiesOf (snd (play halves negativeOrders
                        freshWorld)) !! "distributor")
  = Some (-88).
Proof. vm_compute. reflexivity. Qed.

(** C5, amended.  When every externally supplied order quantity is
    non-negative, every entity has a non-negative inventory after any
    sequence of rounds.  And in every state [w], reached or not and whatever
    the quantities, a round computes [fulfilled = min(orderToProcess,
    inventory)] and [fulfilled + unfulfilled = orderToProcess], the inventory
    being the entity's when its processing starts: for the externally driven
    role, whose order is the head of its queue (0 when empty), and for each
    internally driven role, whose order is the one the iteration appends to
    its order history and whose unfulfilled part it adds to
    [unfulfilledDemand]. *)
Theorem round_invariants (rnd : nat -> Q) (roles : list Role.t)
        (playerName : string) (turns : list (string * Z * Z)) :
  Forall (fun t => 0 <= t.1.2) turns ->
  (forall role e,
      entitiesOf (snd (play rnd turns (newWorld roles playerName))) !! role
      = Some e ->
      0 <= Entity.inventory e)
  /\ (forall w roleId quantity round e,
         entitiesOf w !! roleId = Some e ->
         wp (processPlayerOrder rnd roleId quantity round)
            (fun r _ =>
               let order := orZero (head (Entity.incomingOrders e)) in
               OrderResult.fulfilled r = Z.min order (Entity.inventory e)
               /\ OrderResult.fulfilled r + OrderResult.unfulfilled r = order)
            (fun _ => True) w)
  /\ (forall w round playerRoleId roleId e,
         entitiesOf w !! roleId = Some e ->
         wp (processAIEntity rnd round playerRoleId roleId)
            (fun v w' =>
               forall q, v = Some q ->
                 Quantities.fulfilled q
                 = Z.min (Quantities.orderToProcess q) (Entity.inventory e)
                 /\ Quantities.fulfilled q + Quantities.unfulfilled q
                    = Quantities.orderToProcess q
                 /\ exists e',
                      entitiesOf w' !! roleId = Some e'
                      /\ Entity.orderHistory e'
                         = push (Entity.orderHistory e)
                                (Quantities.orderToProcess q)
                      /\ Entity.unfulfilledDemand e'
                         = Entity.unfulfilledDemand e
                           + Quantities.unfulfilled q)
            (fun _ => True) w).
Proof.
  intros Hq. split; [|split].
  - assert (HI : allEntities nonnegEntity
                   (snd (play rnd turns (newWorld roles playerName)))).
    { apply (play_reaches rnd _ _ nonneg_closed); [|done].
      intros role. repeat split; simpl; done. }
    intros role e He. by destruct (allEntities_lookup _ _ _ _ HI He).
  - intros w roleId quantity round e He.
    by apply processPlayerOrder_quantities.
  - intros w round playerRoleId roleId e He.
    by apply processAIEntity_fulfils.
Qed.

(** ** Entities built by the engine record no stockout history *)

Lemma fulfilAndReceive_frame (x : Z) (e : Entity.t) :
  Entity.incomingOrders (fst (fulfilAndReceive x e)) = Entity.incomingOrders e
  /\ Entity.stockoutHistory (fst (fulfilAndReceive x e))
     = Entity.stockoutHistory e.
Proof.
  unfold fulfilAndReceive.
  destruct (decide _); [destruct (shift _) as [[?|] ?]|]; done.
Qed.

Lemma noStockoutHistory_closed :
  RoundClosed.t noStockoutHistory (fun _ => True).
Proof.
  constructor; unfold noStockoutHistory; try done.
  intros e x He _. split; [|done].
  by rewrite (proj2 (fulfilAndReceive_frame x e)).
Qed.

Lemma play_noStockoutHistory (rnd : nat -> Q) (roles : list Role.t)
      (playerName : string) (turns : list (string * Z * Z)) :
  allEntities noStockoutHistory
    (snd (play rnd turns (newWorld roles playerName))).
Proof.
  apply (play_reaches rnd _ _ noStockoutHistory_closed); [done|].
  by apply Forall_true.
Qed.

(** C10.  When the entry of [roleId] has no [stockoutHistory],
    [ScoreCalculator.calculateResponsibilityScore] returns 0; no entity of a
    state the engine reaches from its constructor has one, so the score is 0
    for every role on engine-produced state. *)
Theorem score_zero_without_stockout_history :
  (forall roleId entities roleOrder e,
      entities !! roleId = Some e -> Entity.stockoutHistory e = None ->
      ScoreCalculator.calculateResponsibilityScore roleId entities roleOrder
      = inr 0)
  /\ (forall rnd roles playerName turns roleId roleOrder,
         ScoreCalculator.calculateResponsibilityScore roleId
           (entitiesOf (snd (play rnd turns (newWorld roles playerName))))
           roleOrder
         = inr 0).
Proof.
  split.
  - intros roleId entities roleOrder e He Hh.
    unfold ScoreCalculator.calculateResponsibilityScore. by rewrite He, Hh.
  - intros rnd roles playerName turns roleId roleOrder.
    unfold ScoreCalculator.calculateResponsibilityScore.
    destruct (_ !! roleId) as [e|] eqn:He; [|done].
    by rewrite (allEntities_lookup _ _ _ _
                  (play_noStockoutHistory rnd roles playerName turns) He).
Qed.

(** ** Rounds are not validated *)

Section Totality.
Variable rnd : nat -> Q.
Variable ids : list string.
Hypothesis chain_present : forall r, r ∈ roleOrder -> r ∈ ids.

Lemma engineReady_set (roleId : string) (e : Entity.t) w :
  engineReady ids w ->
  engineReady ids
    (World.mk (GameEngine.set_entities (<[roleId := e]> (entitiesOf w))
                 w.(World.engine))
              w.(World.draws)).
Proof.
  intros [Ht Hp]. split; [done|]. intros r Hr. unfold entitiesOf. simpl.
  destruct (decide (roleId = r)) as [->|Hne].
  - rewrite lookup_insert_eq. eauto.
  - rewrite lookup_insert_ne by done. by apply Hp.
Qed.

Lemma wp_entityOf_ready (roleId : string) (Q : Entity.t -> World.t -> Prop) w :
  engineReady ids w -> roleId ∈ ids ->
  (forall e, entitiesOf w !! roleId = Some e -> Q e w) ->
  wp (entityOf roleId) Q (fun _ => False) w.
Proof.
  intros [_ Hp] Hr HQ. apply wp_entityOf; [done|].
  intros Hnone. destruct (Hp roleId Hr) as [e He]. congruence.
Qed.

Lemma demandTrend_defined (round : Z) :
  ~ (round < 1 \/ round > 20) -> is_Some (at_ generateDemandTrend (round - 1)).
Proof.
  intros Hr. unfold at_. destruct (decide _); [lia|].
  apply lookup_lt_is_Some. change (length generateDemandTrend) with 20%nat. lia.
Qed.

Lemma getCustomerDemand_total (round : Z) w :
  engineReady ids w ->
  wp (getCustomerDemand rnd round)
     (fun _ => engineReady ids) (fun _ => False) w.
Proof.
  intros HI. unfold getCustomerDemand.
  destruct (decide _) as [|Hr]; [by apply wp_ret|].
  apply wp_bind, wp_getEngine, wp_bind, wp_Math_random. simpl.
  destruct HI as [Ht Hp]. rewrite Ht.
  destruct (demandTrend_defined round Hr) as [phase ->].
  apply wp_bind, wp_Math_random, wp_ret. done.
Qed.

Lemma calculateAIOrder_total (entity : Entity.t) (strategy : Strategy)
      (currentOrder round : Z) w :
  engineReady ids w ->
  wp (calculateAIOrder rnd entity strategy currentOrder round)
     (fun _ => engineReady ids) (fun _ => False) w.
Proof.
  intros HI. unfold calculateAIOrder.
  by apply wp_bind, wp_Math_random, wp_ret.
Qed.

Lemma chain_member (r : string) :
  r = "retailer" \/ r = "distributor" \/ r = "wholesaler"
  \/ r = "manufacturer" \/ r = "supplier" ->
  r ∈ roleOrder.
Proof. unfold roleOrder. rewrite !elem_of_cons. tauto. Qed.

Lemma downstream_in_chain (roleId : string) :
  roleId ∈ roleOrder -> roleId <> "retailer" ->
  downstreamRoleIdOf roleId ∈ roleOrder.
Proof.
  intros Hr Hne. unfold roleOrder in Hr.
  rewrite !elem_of_cons, elem_of_nil in Hr.
  destruct Hr as [->|[->|[->|[->|[->|[]]]]]]; [done|..];
    match goal with
    | |- ?x ∈ _ => let y := eval vm_compute in x in change x with y
    end; apply chain_member; tauto.
Qed.

Lemma processAIEntity_total (round : Z) (playerRoleId roleId : string) w :
  roleId ∈ roleOrder -> engineReady ids w ->
  wp (processAIEntity rnd round playerRoleId roleId)
     (fun _ => engineReady ids) (fun _ => False) w.
Proof.
  intros Hr HI. unfold processAIEntity.
  destruct (decide (roleId = playerRoleId)); [by apply wp_ret|].
  apply wp_bind.
  apply wp_mono with (Q := fun _ => engineReady ids) (E := fun _ => False);
    [| |done].
  { destruct (decide (roleId = "retailer")) as [|Hne].
    - by apply getCustomerDemand_total.
    - apply wp_bind, wp_entityOf_ready;
        [done|by apply chain_present, downstream_in_chain|].
      intros d Hd. destruct (shift (Entity.outgoingOrders d)) as [o rest].
      apply wp_bind, wp_setEntity, wp_ret. by apply engineReady_set. }
  clear w HI. intros incomingOrder w HI.
  apply wp_bind, wp_entityOf_ready; [done|by apply chain_present|].
  intros entity He.
  destruct (shift (push _ _)) as [o rest].
  destruct (fulfilAndReceive _ _) as [entity' q].
  apply wp_bind.
  eapply wp_mono; [by apply calculateAIOrder_total| |done].
  clear w HI He. intros orderQuantity w HI. simpl.
  apply wp_bind, wp_setEntity.
  set (w1 := World.mk _ _).
  assert (HI1 : engineReady ids w1) by by apply engineReady_set.
  clearbody w1. apply wp_bind.
  apply wp_mono with (Q := fun _ => engineReady ids) (E := fun _ => False);
    [| |done].
  - destruct (decide (roleId <> "retailer")); [|by apply wp_ret].
    apply wp_bind, wp_entityOf_ready;
      [done|by apply chain_present, downstream_in_chain|].
    intros d Hd. by apply wp_setEntity, engineReady_set.
  - intros ? w2 HI2. by apply wp_ret.
Qed.

Lemma processAIEntities_total (round : Z) (playerRoleId : string) w :
  engineReady ids w ->
  wp (processAIEntities rnd round playerRoleId)
     (fun _ => engineReady ids) (fun _ => False) w.
Proof.
  intros HI. unfold processAIEntities. apply wp_bind.
  eapply wp_mono;
    [apply (wp_forEach _ _ (engineReady ids) (fun _ => False))| |done];
    [|done|].
  - intros roleId w' Hr HI'. apply wp_bind.
    eapply wp_mono; [by apply processAIEntity_total| |done].
    intros ? ? ?. by apply wp_ret.
  - clear w HI. intros [] w HI.
    apply wp_bind, wp_entityOf_ready;
      [done|apply chain_present, chain_member; tauto|].
    intros s Hs.
    apply wp_bind, wp_entityOf_ready;
      [done|apply chain_present, chain_member; tauto|].
    intros m Hm. by apply wp_setEntity, engineReady_set.
Qed.

Lemma processPlayerOrder_total (roleId : string) (quantity round : Z) w :
  roleId ∈ ids -> engineReady ids w ->
  wp (processPlayerOrder rnd roleId quantity round)
     (fun _ => engineReady ids) (fun _ => False) w.
Proof.
  intros Hr HI. unfold processPlayerOrder.
  apply wp_bind, wp_entityOf_ready; [done..|]. intros entity He.
  destruct (shift _) as [o rest].
  destruct (fulfilAndReceive _ _) as [entity' q].
  apply wp_bind, wp_setEntity.
  set (w1 := World.mk _ _).
  assert (HI1 : engineReady ids w1) by by apply engineReady_set.
  clearbody w1. apply wp_bind.
  eapply wp_mono; [by apply processAIEntities_total| |done].
  intros ? w2 HI2. apply wp_bind, wp_entityOf_ready; [done..|].
  intros e2 He2. by apply wp_ret.
Qed.

Lemma play_total (turns : list (string * Z * Z)) w :
  Forall (fun t => t.1.1 ∈ ids) turns -> engineReady ids w ->
  wp (play rnd turns)
     (fun rs w' => length rs = length turns /\ engineReady ids w')
     (fun _ => False) w.
Proof.
  revert w. induction turns as [|[[roleId quantity] round] rest IH];
    intros w Hq HI; simpl; [by apply wp_ret|].
  apply Forall_cons in Hq as [Hq Hrest]. apply wp_bind.
  eapply wp_mono; [by apply processPlayerOrder_total| |done].
  intros r w1 HI1. apply wp_bind.
  eapply wp_mono; [by apply IH| |done].
  intros rs w2 [Hlen HI2]. apply wp_ret. simpl. by rewrite Hlen.
Qed.
End Totality.

Lemma initEntities_present (roles : list Role.t) (r : string) :
  r ∈ map Role.id roles -> is_Some (initEntities roles !! r).
Proof.
  unfold initEntities.
  assert (Hgen : forall m : gmap string Entity.t,
             is_Some (m !! r) \/ r ∈ map Role.id roles ->
             is_Some (fold_left
                        (fun m role => <[Role.id role := newEntity role]> m)
                        roles m !! r)).
  { induction roles as [|x rs IH]; intros m [Hm|Hr]; simpl; try done.
    - by apply elem_of_nil in Hr.
    - apply IH. left. destruct (decide (Role.id x = r)) as [->|Hne].
      + rewrite lookup_insert_eq. eauto.
      + by rewrite lookup_insert_ne.
    - simpl in Hr. apply elem_of_cons in Hr as [->|Hr].
      + apply IH. left. rewrite lookup_insert_eq. eauto.
      + apply IH. by right. }
  intros Hr. apply Hgen. by right.
Qed.

(** C3, counterexample.  Rounds 0, 25, 3, 3 and -1, in this order, are all
    processed on a fresh engine: each call returns a result. *)
Lemma invalid_rounds_are_processed :
  exists rs,
    fst (play halves unvalidatedRounds freshWorld)
    = inr rs /\ length rs = 5%nat.
Proof. eexists. split; [vm_compute; reflexivity|reflexivity]. Qed.

(** C3, amended.  [processPlayerOrder] validates neither the round nor the
    sequence of rounds: on an engine built with the five chain roles, any
    sequence of calls for roles of the engine returns a result for each call,
    whatever the rounds.  A call for a role id without entity throws a
    [TypeError] at once, leaving the state unchanged. *)
Theorem rounds_not_validated (rnd : nat -> Q) :
  (forall roles playerName turns,
      (forall r, r ∈ roleOrder -> r ∈ map Role.id roles) ->
      Forall (fun t => t.1.1 ∈ map Role.id roles) turns ->
      exists rs,
        fst (play rnd turns (newWorld roles playerName)) = inr rs
        /\ length rs = length turns)
  /\ (forall w roleId quantity round,
         entitiesOf w !! roleId = None ->
         processPlayerOrder rnd roleId quantity round w = (inl TypeError, w)).
Proof.
  split.
  - intros roles playerName turns Hchain Hturns.
    assert (HI : engineReady (map Role.id roles) (newWorld roles playerName)).
    { split; [done|]. intros r Hr. by apply initEntities_present. }
    pose proof (play_total rnd (map Role.id roles) Hchain turns _ Hturns HI)
      as Hwp.
    unfold wp in Hwp.
    destruct (play rnd turns _) as [[e|rs] w']; [done|].
    exists rs. by destruct Hwp.
  - intros w roleId quantity round Hnone.
    unfold processPlayerOrder, bind, entityOf.
    unfold entitiesOf in Hnone. by rewrite Hnone.
Qed.
(** ** Dependence on the random draws *)

Lemma usesAtMost_weaken {A} (k k' : nat) (m : (nat -> Q) -> M A) :
  (k <= k')%nat -> usesAtMost k m -> usesAtMost k' m.
Proof.
  intros Hk Hm rnd1 rnd2 w Hagree.
  destruct (Hm rnd1 rnd2 w) as [Heq Hd].
  { intros i Hi. apply Hagree. lia. }
  split; [done|lia].
Qed.

Lemma usesAtMost_pure {A} (m : M A) :
  (forall w, (snd (m w)).(World.draws) = w.(World.draws)) ->
  usesAtMost 0 (fun _ => m).
Proof. intros Hm rnd1 rnd2 w _. split; [done|]. rewrite Hm. lia. Qed.

Lemma usesAtMost_ret {A} (a : A) : usesAtMost 0 (fun _ => ret a).
Proof. by apply usesAtMost_pure. Qed.

Lemma usesAtMost_throw {A} (e : JsError) : usesAtMost 0 (fun _ => @throw A e).
Proof. by apply usesAtMost_pure. Qed.

Lemma usesAtMost_entityOf (roleId : string) :
  usesAtMost 0 (fun _ => entityOf roleId).
Proof.
  apply usesAtMost_pure. intros w. unfold entityOf. by destruct (_ !! _).
Qed.

Lemma usesAtMost_setEntity (roleId : string) (e : Entity.t) :
  usesAtMost 0 (fun _ => setEntity roleId e).
Proof. by apply usesAtMost_pure. Qed.

Lemma usesAtMost_getEngine : usesAtMost 0 (fun _ => getEngine).
Proof. by apply usesAtMost_pure. Qed.

Lemma usesAtMost_Math_random : usesAtMost 1 Math_random.
Proof.
  intros rnd1 rnd2 w Hagree. unfold Math_random. simpl.
  rewrite (Hagree (World.draws w)) by lia. split; [done|lia].
Qed.

Lemma usesAtMost_bind {A B} (k1 k2 : nat) (m : (nat -> Q) -> M A)
      (f : (nat -> Q) -> A -> M B) :
  usesAtMost k1 m -> (forall a, usesAtMost k2 (fun rnd => f rnd a)) ->
  usesAtMost (k1 + k2) (fun rnd => bind (m rnd) (f rnd)).
Proof.
  intros Hm Hf rnd1 rnd2 w Hagree. unfold bind.
  destruct (Hm rnd1 rnd2 w) as [Heq Hd].
  { intros i Hi. apply Hagree. lia. }
  rewrite <- Heq. destruct (m rnd1 w) as [[e|a] w1]; simpl in *.
  { split; [done|lia]. }
  destruct (Hf a rnd1 rnd2 w1) as [Heq' Hd'].
  { intros i Hi. apply Hagree. lia. }
  split; [done|lia].
Qed.

Lemma usesAtMost_getCustomerDemand (round : Z) :
  usesAtMost 2 (fun rnd => getCustomerDemand rnd round).
Proof.
  unfold getCustomerDemand.
  destruct (decide _).
  { apply (usesAtMost_weaken 0); [lia|apply usesAtMost_ret]. }
  apply (usesAtMost_bind 0 2); [apply usesAtMost_getEngine|]. intros g.
  apply (usesAtMost_bind 1 1); [apply usesAtMost_Math_random|]. intros r1.
  destruct (at_ _ _) as [phase|].
  - apply (usesAtMost_bind 1 0); [apply usesAtMost_Math_random|]. intros r2.
    apply usesAtMost_ret.
  - apply (usesAtMost_weaken 0); [lia|apply usesAtMost_throw].
Qed.

Lemma usesAtMost_calculateAIOrder (entity : Entity.t) (strategy : Strategy)
      (currentOrder round : Z) :
  usesAtMost 1
    (fun rnd => calculateAIOrder rnd entity strategy currentOrder round).
Proof.
  unfold calculateAIOrder.
  apply (usesAtMost_bind 1 0); [apply usesAtMost_Math_random|]. intros r.
  apply usesAtMost_ret.
Qed.

Lemma usesAtMost_processAIEntity (round : Z) (playerRoleId roleId : string) :
  usesAtMost (drawsOf roleId)
    (fun rnd => processAIEntity rnd round playerRoleId roleId).
Proof.
  unfold processAIEntity, drawsOf.
  destruct (decide (roleId = playerRoleId)).
  { apply (usesAtMost_weaken 0); [lia|apply usesAtMost_ret]. }
  destruct (decide (roleId = "retailer")) as [Hr|Hr].
  - apply (usesAtMost_bind 2 1); [apply usesAtMost_getCustomerDemand|].
    intros incomingOrder.
    apply (usesAtMost_bind 0 1); [apply usesAtMost_entityOf|]. intros entity.
    destruct (shift (push _ _)) as [o rest].
    destruct (fulfilAndReceive _ _) as [entity' q].
    apply (usesAtMost_bind 1 0); [apply usesAtMost_calculateAIOrder|].
    intros orderQuantity.
    apply (usesAtMost_bind 0 0); [apply usesAtMost_setEntity|]. intros _.
    apply (usesAtMost_bind 0 0); [|intros _; apply usesAtMost_ret].
    destruct (decide (roleId <> "retailer")); [done|apply usesAtMost_ret].
  - apply (usesAtMost_bind 0 1).
    { apply (usesAtMost_bind 0 0); [apply usesAtMost_entityOf|].
      intros d. destruct (shift (Entity.outgoingOrders d)) as [o rest].
      apply (usesAtMost_bind 0 0); [apply usesAtMost_setEntity|]. intros _.
      apply usesAtMost_ret. }
    intros incomingOrder.
    apply (usesAtMost_bind 0 1); [apply usesAtMost_entityOf|]. intros entity.
    destruct (shift (push _ _)) as [o rest].
    destruct (fulfilAndReceive _ _) as [entity' q].
    apply (usesAtMost_bind 1 0); [apply usesAtMost_calculateAIOrder|].
    intros orderQuantity.
    apply (usesAtMost_bind 0 0); [apply usesAtMost_setEntity|]. intros _.
    apply (usesAtMost_bind 0 0); [|intros _; apply usesAtMost_ret].
    destruct (decide (roleId <> "retailer")); [|apply usesAtMost_ret].
    apply (usesAtMost_bind 0 0); [apply usesAtMost_entityOf|]. intros d.
    apply usesAtMost_setEntity.
Qed.

Lemma usesAtMost_processAIEntities (round : Z) (playerRoleId : string) :
  usesAtMost 7 (fun rnd => processAIEntities rnd round playerRoleId).
Proof.
  unfold processAIEntities, roleOrder. cbn [forEach].
  apply (usesAtMost_bind 7 0).
  - pose proof (fun roleId =>
                  usesAtMost_bind (drawsOf roleId) 0
                    (fun rnd => processAIEntity rnd round playerRoleId roleId)
                    (fun _ _ => ret tt)
                    (usesAtMost_processAIEntity round playerRoleId roleId)
                    (fun _ => usesAtMost_ret tt)) as Hstep.
    apply (usesAtMost_bind 3 4); [apply (Hstep "retailer")|]. intros _.
    apply (usesAtMost_bind 1 3); [apply (Hstep "distributor")|]. intros _.
    apply (usesAtMost_bind 1 2); [apply (Hstep "wholesaler")|]. intros _.
    apply (usesAtMost_bind 1 1); [apply (Hstep "manufacturer")|]. intros _.
    apply (usesAtMost_bind 1 0); [apply (Hstep "supplier")|]. intros _.
    apply usesAtMost_ret.
  - intros _.
    apply (usesAtMost_bind 0 0); [apply usesAtMost_entityOf|]. intros s.
    apply (usesAtMost_bind 0 0); [apply usesAtMost_entityOf|]. intros m.
    apply usesAtMost_setEntity.
Qed.

Lemma usesAtMost_processPlayerOrder (roleId : string) (quantity round : Z) :
  usesAtMost 7 (fun rnd => processPlayerOrder rnd roleId quantity round).
Proof.
  unfold processPlayerOrder.
  apply (usesAtMost_bind 0 7); [apply usesAtMost_entityOf|]. intros entity.
  destruct (shift _) as [o rest].
  destruct (fulfilAndReceive _ _) as [entity' q].
  apply (usesAtMost_bind 0 7); [apply usesAtMost_setEntity|]. intros _.
  apply (usesAtMost_bind 7 0); [apply usesAtMost_processAIEntities|]. intros _.
  apply (usesAtMost_bind 0 0); [apply usesAtMost_entityOf|]. intros e2.
  apply usesAtMost_ret.
Qed.

Lemma usesAtMost_play (turns : list (string * Z * Z)) :
  usesAtMost (7 * length turns) (fun rnd => play rnd turns).
Proof.
  induction turns as [|[[roleId quantity] round] rest IH]; simpl length.
  { apply usesAtMost_ret. }
  replace (7 * S (length rest))%nat with (7 + (7 * length rest + 0))%nat by lia.
  cbn [play].
  apply (usesAtMost_bind 7); [apply usesAtMost_processPlayerOrder|]. intros r.
  apply usesAtMost_bind; [apply IH|]. intros rs. apply usesAtMost_ret.
Qed.

(** C9, counterexample.  The same engine and the same external order give
    the retailer the order history [4] when [Math.random()] returns 0 and [5]
    when it returns 1/2: the engine has no seed to fix. *)
Lemma ambient_draws_change_histories :
  Entity.orderHistory <$>
    (entitiesOf (snd (play zeros oneTurn freshWorld))
       !! "retailer") = Some [4]
  /\ Entity.orderHistory <$>
       (entitiesOf (snd (play halves oneTurn freshWorld))
          !! "retailer") = Some [5].
Proof. split; vm_compute; reflexivity. Qed.

(** C9, amended.  A game is a function of the external orders and of the
    values returned by the ambient [Math.random()], of which a round consumes
    at most seven: two runs with the same constructor arguments and external
    orders whose draws agree on the first [7 * rounds] calls return the same
    results and reach the same state, histories included. *)
Theorem runs_agree_on_equal_draws (rnd1 rnd2 : nat -> Q)
        (roles : list Role.t) (playerName : string)
        (turns : list (string * Z * Z)) :
  (forall i, (i < 7 * length turns)%nat -> rnd1 i = rnd2 i) ->
  play rnd1 turns (newWorld roles playerName)
  = play rnd2 turns (newWorld roles playerName).
Proof.
  intros Hagree.
  apply (usesAtMost_play turns rnd1 rnd2 (newWorld roles playerName)).
  intros i Hi. apply Hagree. simpl in Hi. lia.
Qed.

(** ** The externally driven path and the supplier's dispatch *)

Lemma freshWorld_retailer :
  entitiesOf freshWorld !! "retailer"
  = Some (newEntity (Role.mk "retailer" "Retailer")).
Proof. vm_compute. reflexivity. Qed.

Lemma emptyOrderQueue_closed : RoundClosed.t emptyOrderQueue (fun _ => True).
Proof.
  constructor; unfold emptyOrderQueue; try done.
  - intros e x He _. simpl. by rewrite He.
  - intros e He. simpl. by rewrite He.
  - intros e x He _. split; [|done].
    by rewrite (proj1 (fulfilAndReceive_frame x e)).
Qed.

(** Every iteration of the loop pushes the incoming order onto
    [incomingOrders] and shifts it at once: the queue is empty between
    rounds. *)
Lemma play_emptyOrderQueue (rnd : nat -> Q) (roles : list Role.t)
      (playerName : string) (turns : list (string * Z * Z)) :
  allEntities emptyOrderQueue
    (snd (play rnd turns (newWorld roles playerName))).
Proof.
  apply (play_reaches rnd _ _ emptyOrderQueue_closed); [done|].
  by apply Forall_true.
Qed.

(** The push that follows the loop of [processAIEntities] reads the last
    entry of the supplier's empty queue: the manufacturer is sent 0. *)
Lemma processAIEntities_extra_shipment (rnd : nat -> Q) (round : Z)
      (playerRoleId : string) w :
  allEntities emptyOrderQueue w ->
  wp (processAIEntities rnd round playerRoleId)
     (fun _ w' =>
        exists m, entitiesOf w' !! "manufacturer" = Some m
                  /\ last (Entity.incomingShipments m) = Some 0)
     (fun _ => True) w.
Proof.
  intros HI. unfold processAIEntities. apply wp_bind.
  eapply wp_mono;
    [apply (wp_forEach _ _ (allEntities emptyOrderQueue)
              (allEntities emptyOrderQueue))| |done]; [|done|].
  - intros roleId w' _ HI'. apply wp_bind.
    eapply wp_mono;
      [by apply (processAIEntity_preserves rnd _ _ emptyOrderQueue_closed)
      | |done].
    intros ? ? ?. by apply wp_ret.
  - clear w HI. intros [] w HI.
    apply wp_bind, wp_entityOf; [|done]. intros s Hs.
    rewrite (allEntities_lookup _ _ _ _ HI Hs).
    apply wp_bind, wp_entityOf; [|done]. intros m Hm.
    apply wp_setEntity. eexists. unfold entitiesOf at 1. simpl.
    rewrite lookup_insert_eq. split; [done|].
    simpl. unfold push. by rewrite last_snoc.
Qed.

(** C1, at the failing input.  On a fresh engine the customer demand of
    round 1 is 5 (draws 1/2), yet [processPlayerOrder] for the retailer
    processes the order 0: it never consults [getCustomerDemand] and its
    [incomingOrders] queue is empty.  In every state a game reaches, and with
    any draws, quantity and round, the order processed for the externally
    driven role, [fulfilled + unfulfilled], is 0. *)
Theorem player_retailer_order_ignores_demand :
  fst (getCustomerDemand halves 1 freshWorld) = inr 5
  /\ (exists r w',
         processPlayerOrder halves "retailer" 5 1 freshWorld = (inr r, w')
         /\ OrderResult.fulfilled r = 0 /\ OrderResult.unfulfilled r = 0
         /\ Entity.orderHistory <$> (entitiesOf w' !! "retailer") = Some [0])
  /\ (forall rnd roles playerName turns roleId quantity round,
         wp (processPlayerOrder rnd roleId quantity round)
            (fun r _ => OrderResult.fulfilled r + OrderResult.unfulfilled r = 0)
            (fun _ => True)
            (snd (play rnd turns (newWorld roles playerName)))).
Proof.
  split; [by vm_compute|]. split.
  - eexists _, _. split; [vm_compute; reflexivity|]. by vm_compute.
  - intros rnd roles playerName turns roleId quantity round.
    pose proof (play_emptyOrderQueue rnd roles playerName turns) as HI.
    set (w := snd (play rnd turns (newWorld roles playerName))) in *.
    destruct (entitiesOf w !! roleId) as [e|] eqn:He.
    + eapply wp_mono;
        [apply (processPlayerOrder_quantities rnd roleId quantity round w e
                  He)| |done].
      intros r _ [_ Hsum]. simpl in Hsum.
      by rewrite (allEntities_lookup _ _ _ _ HI He) in Hsum.
    + unfold processPlayerOrder. apply wp_bind, wp_entityOf; [|done].
      intros e He'. congruence.
Qed.

(** C2, at the failing input.  The retailer, driven externally, orders 12 in
    round 1 (draws 1/2).  The supplier receives the order 28 and fulfils 12
    from its inventory; the manufacturer's [incomingShipments] then holds the
    fulfilled 12 pushed in the loop and the 0 pushed after it, read from the
    supplier's already emptied [incomingOrders]: not the order 28.  In every
    state a game reaches, and with any draws, role, quantity and round, the
    last quantity a round pushes onto the manufacturer's [incomingShipments]
    is that 0. *)
Theorem supplier_dispatch_is_not_its_order :
  (let w := snd (play halves largeOrder freshWorld) in
   Entity.orderHistory <$> (entitiesOf w !! "supplier") = Some [28]
   /\ Entity.inventory <$> (entitiesOf w !! "supplier") = Some 0
   /\ Entity.incomingOrders <$> (entitiesOf w !! "supplier") = Some []
   /\ Entity.incomingShipments <$> (entitiesOf w !! "manufacturer")
      = Some [12; 0])
  /\ (forall rnd roles playerName turns roleId quantity round,
         wp (processPlayerOrder rnd roleId quantity round)
            (fun _ w' =>
               exists m, entitiesOf w' !! "manufacturer" = Some m
                         /\ last (Entity.incomingShipments m) = Some 0)
            (fun _ => True)
            (snd (play rnd turns (newWorld roles playerName)))).
Proof.
  split; [by vm_compute|].
  intros rnd roles playerName turns roleId quantity round.
  pose proof (play_emptyOrderQueue rnd roles playerName turns) as HI.
  set (w := snd (play rnd turns (newWorld roles playerName))) in *.
  clearbody w. unfold processPlayerOrder.
  apply wp_bind, wp_entityOf; [|done]. intros entity He.
  pose proof (allEntities_lookup _ _ _ _ HI He) as Hge.
  pose proof (RoundClosed.next_order emptyOrderQueue_closed entity Hge)
    as [Hg1 _].
  destruct (shift _) as [o rest]. simpl in Hg1.
  pose proof (RoundClosed.fulfil emptyOrderQueue_closed _ (orZero o) Hg1 I)
    as [Hg2 _].
  destruct (fulfilAndReceive _ _) as [entity' q]. simpl in Hg2.
  apply wp_bind, wp_setEntity.
  set (w1 := World.mk _ _).
  assert (HI1 : allEntities emptyOrderQueue w1).
  { apply allEntities_set; [done|].
    by apply (RoundClosed.place emptyOrderQueue_closed). }
  clearbody w1. apply wp_bind.
  eapply wp_mono; [by apply processAIEntities_extra_shipment| |done].
  intros ? w2 Hm. apply wp_bind, wp_entityOf; [|done]. intros e2 _.
  by apply wp_ret.
Qed.

(** C6, at the failing input.  The retailer, driven externally, orders 4 in
    rounds 1 and 2 (draws 1/2).  Round 1 pushes the supplier's shipment 4 and
    then 0 onto the manufacturer's [incomingShipments], which so holds two
    entries; in round 2 the manufacturer fulfils an order of 4 from its
    inventory 8 and receives the 4 pushed in round 1: its inventory is 8
    again, one round after the dispatch. *)
Theorem manufacturer_receives_after_one_round :
  let w1 := snd (play halves firstRound freshWorld) in
  let w2 := snd (play halves retailerTurns freshWorld) in
  (Entity.incomingShipments <$> (entitiesOf w1 !! "manufacturer")
   = Some [4; 0]
   /\ Entity.inventory <$> (entitiesOf w1 !! "manufacturer") = Some 8)
  /\ (Entity.orderHistory <$> (entitiesOf w2 !! "manufacturer") = Some [4; 4]
      /\ Entity.unfulfilledDemand <$> (entitiesOf w2 !! "manufacturer")
         = Some 0
      /\ Entity.inventoryHistory <$> (entitiesOf w2 !! "manufacturer")
         = Some [12; 8; 8]
      /\ Entity.incomingShipments <$> (entitiesOf w2 !! "manufacturer")
         = Some [0; 4; 0]).
Proof. by vm_compute. Qed.

(** ** Instances on the worked inputs *)

Lemma shortChain_present (d : string) :
  d ∈ shortChain -> is_Some (stockoutEntities !! d).
Proof.
  unfold shortChain. rewrite !elem_of_cons, elem_of_nil.
  intros [->|[->|[->|[]]]]; vm_compute; eauto.
Defined.

Lemma responsibility_score_lag_witness :
  (forall d, d ∈ shortChain -> is_Some (stockoutEntities !! d))
  /\ ScoreCalculator.calculateResponsibilityScore "wholesaler"
       stockoutEntities shortChain
     = inr (responsibilityScore_spec "wholesaler" stockoutEntities shortChain).
Proof.
  split; [exact shortChain_present|].
  apply (responsibility_score_lag "wholesaler" stockoutEntities shortChain).
  exact shortChain_present.
Defined.

Example responsibility_score_value :
  ScoreCalculator.calculateResponsibilityScore "wholesaler" stockoutEntities
    shortChain = inr 7
  /\ responsibilityScore_spec "wholesaler" stockoutEntities shortChain = 7.
Proof. by vm_compute. Qed.

(** The engine's own [calculateResponsibilityScore] works on the aggregate
    [unfulfilledDemand] and knows no lag: after the round of [largeOrder] it
    gives the supplier min(16, 9) + min(16, 4) = 13, where the score
    calculator gives 0. *)
Example engine_score_is_aggregate :
  let w := snd (play halves largeOrder freshWorld) in
  calculateResponsibilityScore (World.engine w) "supplier" = inr 13
  /\ ScoreCalculator.calculateResponsibilityScore "supplier" (entitiesOf w)
       roleOrder = inr 0.
Proof. by vm_compute. Qed.

Lemma round_invariants_witness :
  Forall (fun t => 0 <= t.1.2) retailerTurns
  /\ (forall role e,
         entitiesOf (snd (play halves retailerTurns freshWorld)) !! role
         = Some e ->
         0 <= Entity.inventory e)
  /\ wp (processPlayerOrder halves "distributor" 4 1)
        (fun r _ =>
           OrderResult.fulfilled r = 3 /\ OrderResult.unfulfilled r = 2)
        (fun _ => True) queuedWorld
  /\ wp (processAIEntity halves 1 "retailer" "distributor")
        (fun v _ =>
           forall q, v = Some q ->
             Quantities.fulfilled q
             = Z.min (Quantities.orderToProcess q) 3
             /\ Quantities.fulfilled q + Quantities.unfulfilled q
                = Quantities.orderToProcess q)
        (fun _ => True) queuedWorld.
Proof.
  assert (Hq : Forall (fun t => 0 <= t.1.2) retailerTurns).
  { unfold retailerTurns. repeat constructor; simpl; lia. }
  assert (He : entitiesOf queuedWorld !! "distributor"
               = Some (Entity.mk "distributor" "Distributor" 3 [5] [] [] []
                                 [] [12; 3] 0 0 0 None))
    by (vm_compute; reflexivity).
  destruct (round_invariants halves standardRoles "player" retailerTurns Hq)
    as (Hinv & Hplayer & Hai).
  split; [exact Hq|]. split; [exact Hinv|]. split.
  - eapply wp_mono;
      [exact (Hplayer queuedWorld "distributor" 4 1 _ He)| |done].
    intros r _ [Hf Hsum]. simpl in Hf, Hsum. lia.
  - eapply wp_mono;
      [exact (Hai queuedWorld 1 "retailer" "distributor" _ He)| |done].
    intros v w1 H q Hv. destruct (H q Hv) as (Hf & Hsum & _). by split.
Defined.

Lemma division_guard_defaults_witness :
  orderVariance flatRetailerEntities "retailer" == 0
  /\ ScoreCalculator.calculateServiceLevel 7 0 = 100%Q
  /\ ScoreCalculator.calculateInventoryTurnover 0 50 20 = 0%Q
  /\ exists m,
       ScoreCalculator.calculateBullwhipMetrics sqrtApprox flatRetailerEntities
         ["retailer"; "distributor"] !! "distributor" = Some m
       /\ Metrics.bullwhipRatio m
          = Some (ScoreCalculator.varianceOf [4; 8]%Z / 1)%Q.
Proof.
  assert (Hvar : orderVariance flatRetailerEntities "retailer" == 0)
    by (by vm_compute).
  destruct (division_guard_defaults sqrtApprox) as (Hs & _ & Ht & Hb).
  split; [exact Hvar|]. split; [by apply Hs|]. split; [by apply Ht|].
  destruct (Hb flatRetailerEntities ["retailer"; "distributor"] 1%nat
               "distributor" (exampleEntity "distributor" [4; 8] None))
    as (m & Hm & _ & _ & Hr).
  - apply NoDup_cons. split; [|apply NoDup_singleton].
    rewrite elem_of_cons, elem_of_nil. by intros [?|[]].
  - reflexivity.
  - vm_compute. reflexivity.
  - discriminate.
  - exists m. split; [exact Hm|].
    exact (Hr 0%nat "retailer" eq_refl eq_refl Hvar).
Defined.

Example predictive_strategy_value :
  PlayerLogic.predictiveStrategy sqrtApprox predictiveExample = 9.
Proof. by vm_compute. Qed.

Lemma standardRoles_chain (r : string) :
  r ∈ roleOrder -> r ∈ map Role.id standardRoles.
Proof. done. Defined.

Lemma rounds_not_validated_witness :
  (forall r, r ∈ roleOrder -> r ∈ map Role.id standardRoles)
  /\ Forall (fun t => t.1.1 ∈ map Role.id standardRoles) unvalidatedRounds
  /\ entitiesOf freshWorld !! "customer" = None
  /\ (exists rs,
         fst (play halves unvalidatedRounds freshWorld) = inr rs
         /\ length rs = length unvalidatedRounds)
  /\ processPlayerOrder halves "customer" 5 1 freshWorld
     = (inl TypeError, freshWorld).
Proof.
  assert (Hturns : Forall (fun t => t.1.1 ∈ map Role.id standardRoles)
                          unvalidatedRounds).
  { unfold unvalidatedRounds. repeat constructor. }
  assert (Hnone : entitiesOf freshWorld !! "customer" = None)
    by (vm_compute; reflexivity).
  split; [exact standardRoles_chain|]. split; [exact Hturns|].
  split; [exact Hnone|]. split.
  - exact (proj1 (rounds_not_validated halves) standardRoles "player"
             unvalidatedRounds standardRoles_chain Hturns).
  - exact (proj2 (rounds_not_validated halves) freshWorld "customer" 5 1
             Hnone).
Defined.

Lemma halvesThenZeros_agree (i : nat) :
  (i < 7 * length oneTurn)%nat -> halves i = halvesThenZeros i.
Proof.
  intros Hi. unfold halves, halvesThenZeros.
  destruct (decide (i < 7)%nat) as [|Hge]; [reflexivity|].
  exfalso. apply Hge. simpl in Hi. exact Hi.
Defined.

Lemma runs_agree_on_equal_draws_witness :
  (forall i, (i < 7 * length oneTurn)%nat -> halves i = halvesThenZeros i)
  /\ halves 7%nat <> halvesThenZeros 7%nat
  /\ play halves oneTurn freshWorld = play halvesThenZeros oneTurn freshWorld.
Proof.
  split; [exact halvesThenZeros_agree|]. split; [discriminate|].
  exact (runs_agree_on_equal_draws halves halvesThenZeros standardRoles
           "player" oneTurn halvesThenZeros_agree).
Defined.

Lemma score_zero_without_stockout_history_witness :
  entitiesOf freshWorld !! "retailer"
  = Some (newEntity (Role.mk "retailer" "Retailer"))
  /\ Entity.stockoutHistory (newEntity (Role.mk "retailer" "Retailer")) = None
  /\ ScoreCalculator.calculateResponsibilityScore "retailer"
       (entitiesOf freshWorld) roleOrder = inr 0.
Proof.
  split; [exact freshWorld_retailer|]. split; [reflexivity|].
  exact (proj1 score_zero_without_stockout_history "retailer"
           (entitiesOf freshWorld) roleOrder
           (newEntity (Role.mk "retailer" "Retailer"))
           freshWorld_retailer eq_refl).
Defined.

(** * Further properties of the code *)

(** ** A round as a sequence of entity updates *)

Lemma downstream_receiver (roleId : string) :
  roleId ∈ roleOrder -> roleId <> "retailer" ->
  downstreamRoleIdOf roleId ∈ receivers.
Proof.
  intros Hr Hne. unfold roleOrder in Hr.
  rewrite !elem_of_cons, elem_of_nil in Hr.
  destruct Hr as [->|[->|[->|[->|[->|[]]]]]]; [done|..];
    match goal with
    | |- ?x ∈ _ => let y := eval vm_compute in x in change x with y
    end; unfold receivers; rewrite !elem_of_cons; tauto.
Qed.

Section Steps.
Variable rnd : nat -> Q.
Variable G : Entity.t -> Prop.
Variable V : Z -> Prop.
Hypothesis closed : RoundClosed.t G V.
Variable w0 : World.t.

Lemma reached_draw w :
  reached G V w0 w ->
  reached G V w0 (World.mk w.(World.engine) (S w.(World.draws))).
Proof.
  intros [HG Hs]. split; [done|].
  eapply rtc_r; [exact Hs|]. apply step_draw.
Qed.

Lemma reached_update (k : string) (e e' : Entity.t) w :
  reached G V w0 w -> entitiesOf w !! k = Some e ->
  roundUpdate V k e e' -> G e' ->
  reached G V w0 (setEntityIn k e' w).
Proof.
  intros [HG Hs] He Hu He'. split.
  - by apply allEntities_set.
  - eapply rtc_r; [exact Hs|].
    eapply step_update; [exact He| |exact Hu].
    by eapply allEntities_lookup.
Qed.

Lemma getCustomerDemand_reached (round : Z) w :
  reached G V w0 w ->
  wp (getCustomerDemand rnd round)
     (fun v w' => reached G V w0 w' /\ V v) (reached G V w0) w.
Proof.
  intros HI. unfold getCustomerDemand.
  destruct (decide _).
  { apply wp_ret. split; [done|]. by apply (RoundClosed.nonneg closed). }
  apply wp_bind, wp_getEngine, wp_bind, wp_Math_random.
  apply reached_draw in HI.
  destruct (at_ _ _) as [phase|]; [|by apply wp_throw].
  apply wp_bind, wp_Math_random, wp_ret.
  split; [by apply reached_draw in HI|].
  apply (RoundClosed.nonneg closed). lia.
Qed.

Lemma calculateAIOrder_draws (entity : Entity.t) (strategy : Strategy)
      (currentOrder round : Z) w :
  wp (calculateAIOrder rnd entity strategy currentOrder round)
     (fun v w' =>
        V v /\ w' = World.mk w.(World.engine) (S w.(World.draws)))
     (fun _ => False) w.
Proof.
  unfold calculateAIOrder.
  apply wp_bind, wp_Math_random, wp_ret. split; [|done].
  apply (RoundClosed.nonneg closed). rewrite Math_round_inject_Z.
  destruct (decide _); [apply Math_floor_scaled_nonneg; [lia|done]|].
  destruct (decide _); [apply Math_ceil_scaled_nonneg; [lia|done]|lia].
Qed.

Lemma processAIEntity_reached (round : Z) (playerRoleId roleId : string) w :
  roleId ∈ roleOrder -> reached G V w0 w ->
  wp (processAIEntity rnd round playerRoleId roleId)
     (fun _ => reached G V w0) (reached G V w0) w.
Proof.
  intros Hr HI. unfold processAIEntity.
  destruct (decide (roleId = playerRoleId)); [by apply wp_ret|].
  apply wp_bind.
  apply wp_mono with (Q := fun v w' => reached G V w0 w' /\ V v)
                     (E := reached G V w0); [| |done].
  { destruct (decide (roleId = "retailer")) as [|Hne].
    - by apply getCustomerDemand_reached.
    - apply wp_bind, wp_entityOf; [|done]. intros d Hd.
      pose proof (RoundClosed.shift_outgoing closed d
                    (allEntities_lookup _ _ _ _ (proj1 HI) Hd)) as [Hg Hv].
      pose proof (upd_shift V (downstreamRoleIdOf roleId) d
                    (downstream_receiver roleId Hr Hne)) as Hu.
      destruct (shift (Entity.outgoingOrders d)) as [o rest].
      apply wp_bind, wp_setEntity, wp_ret. split; [|done].
      by apply (reached_update _ d). }
  clear w HI. intros incomingOrder w [HI Hin].
  apply wp_bind, wp_entityOf; [|done]. intros entity He.
  pose proof (allEntities_lookup _ _ _ _ (proj1 HI) He) as Hge.
  pose proof (RoundClosed.queue_order closed entity incomingOrder Hge Hin)
    as [Hg1 Hv1].
  assert (Hupd : forall y, V y ->
             roundUpdate V roleId entity (aiUpdate incomingOrder y entity))
    by (intros y Hy; by apply upd_ai).
  unfold aiUpdate in Hupd.
  destruct (shift (push _ _)) as [o rest]. simpl in Hg1, Hv1, Hupd.
  pose proof (RoundClosed.fulfil closed _ _ Hg1 Hv1) as [Hg2 Hv2].
  destruct (fulfilAndReceive _ _) as [entity' q]. simpl in Hg2, Hv2, Hupd.
  apply wp_bind.
  eapply wp_mono; [apply calculateAIOrder_draws| |done].
  intros orderQuantity w1 [Hq ->]. apply reached_draw in HI.
  apply wp_bind, wp_setEntity.
  assert (HI1 : reached G V w0
                  (setEntityIn roleId (placeAndAccrue orderQuantity q entity')
                     (World.mk (World.engine w) (S (World.draws w))))).
  { apply (reached_update roleId entity); [done|exact He|by apply Hupd|].
    by apply (RoundClosed.place closed). }
  change (World.mk _ (World.draws (World.mk _ _)))
    with (setEntityIn roleId (placeAndAccrue orderQuantity q entity')
            (World.mk (World.engine w) (S (World.draws w)))).
  set (w1 := setEntityIn _ _ _) in *. clearbody w1. apply wp_bind.
  apply wp_mono with (Q := fun _ => reached G V w0) (E := reached G V w0);
    [| |done].
  - destruct (decide (roleId <> "retailer")) as [Hne|]; [|by apply wp_ret].
    apply wp_bind, wp_entityOf; [|done]. intros d Hd.
    apply wp_setEntity. apply (reached_update _ d); [done|exact Hd| |].
    + apply upd_ship; [by apply downstream_receiver|done].
    + apply (RoundClosed.push_shipment closed); [|done].
      by eapply allEntities_lookup; [apply HI1|].
  - intros ? w2 HI2. by apply wp_ret.
Qed.

Lemma processAIEntities_reached (round : Z) (playerRoleId : string) w :
  reached G V w0 w ->
  wp (processAIEntities rnd round playerRoleId)
     (fun _ => reached G V w0) (reached G V w0) w.
Proof.
  intros HI. unfold processAIEntities. apply wp_bind.
  eapply wp_mono;
    [apply (wp_forEach _ _ (reached G V w0) (reached G V w0))| |done];
    [|done|].
  - intros roleId w' Hr HI'. apply wp_bind.
    eapply wp_mono; [by apply processAIEntity_reached| |done].
    intros ? ? ?. by apply wp_ret.
  - clear w HI. intros [] w HI.
    apply wp_bind, wp_entityOf; [|done]. intros s Hs.
    apply wp_bind, wp_entityOf; [|done]. intros m Hm.
    pose proof (RoundClosed.last_order closed s
                  (Z.of_nat (length (Entity.incomingOrders s)) - 1)
                  (allEntities_lookup _ _ _ _ (proj1 HI) Hs)) as Hv.
    apply wp_setEntity. apply (reached_update _ m); [done|exact Hm| |].
    + apply upd_ship; [|done]. unfold receivers. rewrite !elem_of_cons. tauto.
    + apply (RoundClosed.push_shipment closed); [|done].
      by eapply allEntities_lookup; [apply HI|].
Qed.

Lemma processPlayerOrder_reached (roleId : string) (quantity round : Z) w :
  V quantity -> reached G V w0 w ->
  wp (processPlayerOrder rnd roleId quantity round)
     (fun _ => reached G V w0) (reached G V w0) w.
Proof.
  intros Hq HI. unfold processPlayerOrder.
  apply wp_bind, wp_entityOf; [|done]. intros entity He.
  pose proof (allEntities_lookup _ _ _ _ (proj1 HI) He) as Hge.
  pose proof (RoundClosed.next_order closed entity Hge) as [Hg1 Hv1].
  pose proof (upd_player V roleId entity quantity Hq) as Hupd.
  unfold playerUpdate in Hupd.
  destruct (shift _) as [o rest]. simpl in Hg1, Hv1, Hupd.
  pose proof (RoundClosed.fulfil closed _ _ Hg1 Hv1) as [Hg2 Hv2].
  destruct (fulfilAndReceive _ _) as [entity' q]. simpl in Hg2, Hv2, Hupd.
  apply wp_bind, wp_setEntity.
  assert (HI1 : reached G V w0
                  (setEntityIn roleId (placeAndAccrue quantity q entity') w)).
  { apply (reached_update roleId entity); [done|exact He|exact Hupd|].
    by apply (RoundClosed.place closed). }
  change (World.mk _ (World.draws w))
    with (setEntityIn roleId (placeAndAccrue quantity q entity') w).
  set (w1 := setEntityIn _ _ _) in *. clearbody w1. apply wp_bind.
  eapply wp_mono; [by apply processAIEntities_reached| |done].
  intros ? w2 HI2. apply wp_bind, wp_entityOf; [|done]. intros e2 He2.
  by apply wp_ret.
Qed.

Lemma play_reached (turns : list (string * Z * Z)) w :
  Forall (fun t => V t.1.2) turns -> reached G V w0 w ->
  wp (play rnd turns) (fun _ => reached G V w0) (reached G V w0) w.
Proof.
  revert w. induction turns as [|[[roleId quantity] round] rest IH];
    intros w Hq HI; simpl; [by apply wp_ret|].
  apply Forall_cons in Hq as [Hq Hrest]. apply wp_bind.
  eapply wp_mono; [by apply processPlayerOrder_reached| |done].
  intros r w1 HI1. apply wp_bind.
  eapply wp_mono; [by apply IH| |done].
  intros rs w2 HI2. by apply wp_ret.
Qed.
End Steps.

(** The state after a game, with or without a throw, is reached from the
    state before it by draws and entity updates. *)
Lemma play_steps (rnd : nat -> Q) (G : Entity.t -> Prop) (V : Z -> Prop)
      (turns : list (string * Z * Z)) w :
  RoundClosed.t G V -> allEntities G w -> Forall (fun t => V t.1.2) turns ->
  steps G V w (snd (play rnd turns w)).
Proof.
  intros closed HG Hq.
  pose proof (play_reached rnd G V closed w turns w Hq
                (conj HG (rtc_refl _ _))) as Hwp.
  unfold wp in Hwp. destruct (play rnd turns w) as [[?|?] ?]; apply Hwp.
Qed.

(** ** What the updates of a round keep *)

Lemma steps_invariant (G : Entity.t -> Prop) (V : Z -> Prop)
      (I : World.t -> Prop) w w' :
  (forall w1 w2, step G V w1 w2 -> I w1 -> I w2) ->
  steps G V w w' -> I w -> I w'.
Proof. intros Hstep Hs. induction Hs as [|w1 w2 w3 H12 _ IH]; eauto. Qed.

Lemma steps_allEntities (G : Entity.t -> Prop) (V : Z -> Prop)
      (P : Entity.t -> Prop) w w' :
  (forall k e e', G e -> roundUpdate V k e e' -> P e -> P e') ->
  steps G V w w' -> allEntities P w -> allEntities P w'.
Proof.
  intros Hupd. apply steps_invariant.
  intros w1 w2 [w1'|w1' k e e' He Hg Hu] HP; [done|].
  apply allEntities_set; [done|].
  apply (Hupd k e e' Hg Hu). by eapply allEntities_lookup.
Qed.

Lemma steps_evolves (G : Entity.t -> Prop) (V : Z -> Prop)
      (R : string -> Entity.t -> Entity.t -> Prop) w w' :
  (forall k e, R k e e) ->
  (forall k e1 e2 e3, R k e1 e2 -> R k e2 e3 -> R k e1 e3) ->
  (forall k e e', G e -> roundUpdate V k e e' -> R k e e') ->
  steps G V w w' -> evolves R w w'.
Proof.
  intros Hrefl Htrans Hupd Hs.
  apply (steps_invariant G V (evolves R w) w w'); [|exact Hs|].
  - intros w1 w2 [w1'|w1' k e e' He Hg Hu] Hev; [done|].
    intros k0 e0 H0. destruct (Hev k0 e0 H0) as (e1 & H1 & HR).
    unfold setEntityIn, entitiesOf at 1. simpl.
    destruct (decide (k = k0)) as [->|Hne].
    + rewrite lookup_insert_eq. exists e'. split; [done|].
      apply (Htrans _ _ e1); [done|].
      assert (e1 = e) as -> by (unfold entitiesOf in *; congruence).
      by apply Hupd.
    + rewrite lookup_insert_ne by done. by exists e1.
  - intros k e He. exists e. split; [done|apply Hrefl].
Qed.

Lemma any_closed : RoundClosed.t anyEntity anyQuantity.
Proof. by constructor. Qed.

Lemma allEntities_any w : allEntities anyEntity w.
Proof. by intros k e _. Qed.

Lemma Forall_anyQuantity (turns : list (string * Z * Z)) :
  Forall (fun t => anyQuantity t.1.2) turns.
Proof. by apply Forall_true. Qed.

(** The fields of an entity after the fulfilment, receipt, placement and
    accrual statements, for the order [o] taken from the queue. *)
Lemma roundCore_fields (o y : Z) (rest : list Z) (e : Entity.t) :
  let f := fulfilAndReceive o (Entity.set_incomingOrders rest e) in
  let e' := placeAndAccrue y (snd f) (fst f) in
  let unfulfilled := o - Z.min o (Entity.inventory e) in
  Entity.id e' = Entity.id e /\ Entity.name e' = Entity.name e
  /\ Entity.incomingOrders e' = rest
  /\ Entity.outgoingOrders e' = push (Entity.outgoingOrders e) y
  /\ Entity.outgoingShipments e' = Entity.outgoingShipments e
  /\ Entity.stockoutHistory e' = Entity.stockoutHistory e
  /\ Entity.orderHistory e' = push (Entity.orderHistory e) o
  /\ Entity.inventoryHistory e'
     = push (Entity.inventoryHistory e) (Entity.inventory e')
  /\ Entity.unfulfilledDemand e' = Entity.unfulfilledDemand e + unfulfilled
  /\ Entity.stockoutCosts e'
     = (Entity.stockoutCosts e + inject_Z unfulfilled * 1)%Q
  /\ Entity.holdingCosts e'
     = (Entity.holdingCosts e + inject_Z (Entity.inventory e') * (1 # 2))%Q
  /\ 0 <= unfulfilled
  /\ ((Entity.inventory e'
       = Entity.inventory e - Z.min o (Entity.inventory e)
       /\ Entity.incomingShipments e' = Entity.incomingShipments e
       /\ (length (Entity.incomingShipments e) < 2)%nat)
      \/ (exists s, Entity.incomingShipments e
                    = s :: Entity.incomingShipments e'
                    /\ Entity.inventory e'
                       = Entity.inventory e - Z.min o (Entity.inventory e)
                         + s)).
Proof.
  unfold fulfilAndReceive. simpl.
  destruct (decide _) as [Hlen|Hlen].
  - destruct (Entity.incomingShipments e) as [|s t] eqn:Hs;
      [simpl in Hlen; lia|].
    simpl. repeat (split; [done || lia|]). right. by exists s.
  - simpl. repeat (split; [done || lia|]). left. repeat split; done || lia.
Qed.

Lemma sumZ_push (l : list Z) (x : Z) : sumZ (push l x) = sumZ l + x.
Proof. unfold sumZ, push. by rewrite fold_left_app. Qed.

Lemma roundUpdate_extends (V : Z -> Prop) (k : string) (e e' : Entity.t) :
  roundUpdate V k e e' -> extends k e e'.
Proof.
  assert (Hcore : forall o y rest,
             extends k e
               (placeAndAccrue y
                  (snd (fulfilAndReceive o (Entity.set_incomingOrders rest e)))
                  (fst (fulfilAndReceive o
                          (Entity.set_incomingOrders rest e))))).
  { intros o y rest.
    pose proof (roundCore_fields o y rest e)
      as (Hid & Hname & _ & _ & Hos & Hsh & Hoh & Hih & Hud & Hsc & _ & Hu & _).
    cbv zeta in *. unfold extends.
    rewrite Hid, Hname, Hos, Hsh, Hoh, Hih, Hud, Hsc.
    repeat split; try done.
    - by apply prefix_app_r.
    - by apply prefix_app_r.
    - lia.
    - rewrite <- (Qplus_0_r (Entity.stockoutCosts e)) at 1.
      apply Qplus_le_r. rewrite Qmult_1_r.
      change 0%Q with (inject_Z 0). by rewrite <- Zle_Qle. }
  intros [_|x _ _|x y _ _ _|y _]; [| |apply Hcore..].
  - unfold extends. simpl. repeat split; try done. apply Qle_refl.
  - unfold extends. simpl. repeat split; try done. apply Qle_refl.
Qed.

Lemma extends_refl (k : string) (e : Entity.t) : extends k e e.
Proof. unfold extends. repeat split; try done. apply Qle_refl. Qed.

Lemma extends_trans (k : string) (e1 e2 e3 : Entity.t) :
  extends k e1 e2 -> extends k e2 e3 -> extends k e1 e3.
Proof.
  intros (A1 & A2 & A3 & A4 & A5 & A6 & A7 & A8)
         (B1 & B2 & B3 & B4 & B5 & B6 & B7 & B8).
  unfold extends. repeat split; try congruence.
  - by etrans.
  - by etrans.
  - lia.
  - by eapply Qle_trans.
Qed.

(** X1. Whatever the external orders and the draws, a game keeps every
    entity it starts with and only extends it: the id, the name, the
    [outgoingShipments] and the stockout record are unchanged, the order and
    inventory histories are extended at the end, and the unfulfilled demand
    and the stockout costs do not decrease. *)
Theorem game_extends_entities (rnd : nat -> Q)
        (turns : list (string * Z * Z)) (w : World.t) :
  evolves extends w (snd (play rnd turns w)).
Proof.
  apply (steps_evolves anyEntity anyQuantity).
  - apply extends_refl.
  - apply extends_trans.
  - intros k e e' _. apply roundUpdate_extends.
  - apply play_steps;
      [apply any_closed|apply allEntities_any|apply Forall_anyQuantity].
Qed.

(** X2. A game adds and removes no entity and writes no field of the engine
    other than its entities: in particular [currentRound] stays what it
    was. *)
Theorem game_keeps_frame (rnd : nat -> Q) (turns : list (string * Z * Z))
        (w : World.t) :
  sameFrame w (snd (play rnd turns w)).
Proof.
  apply (steps_invariant anyEntity anyQuantity (sameFrame w) w).
  - intros w1 w2 [w1'|w1' k e e' He _ _] Hf; [done|].
    destruct Hf as (Hdom & Hrest). split; [|done].
    unfold setEntityIn, entitiesOf at 1. simpl.
    rewrite dom_insert_lookup_L; [done|]. by rewrite He.
  - apply play_steps;
      [apply any_closed|apply allEntities_any|apply Forall_anyQuantity].
  - by repeat split.
Qed.

Lemma roundUpdate_accounted (V : Z -> Prop) (k : string) (e e' : Entity.t) :
  roundUpdate V k e e' -> accounted e -> accounted e'.
Proof.
  assert (Hcore : forall o y rest,
             accounted e ->
             accounted
               (placeAndAccrue y
                  (snd (fulfilAndReceive o (Entity.set_incomingOrders rest e)))
                  (fst (fulfilAndReceive o
                          (Entity.set_incomingOrders rest e))))).
  { intros o y rest [Hs Hh].
    pose proof (roundCore_fields o y rest e)
      as (_ & _ & _ & _ & _ & _ & _ & Hih & Hud & Hsc & Hhc & _ & _).
    cbv zeta in *. unfold accounted.
    rewrite Hih, Hud, Hsc, Hhc, sumZ_push, !inject_Z_plus, Hs, Hh.
    split; ring. }
  intros [_|x _ _|x y _ _ _|y _]; [done|done|apply Hcore..].
Qed.

(** X3. In every state a game reaches from the constructor, for every
    entity, the stockout costs equal the unfulfilled demand and the holding
    costs equal half the sum of the inventories recorded after the initial
    one. *)
Theorem costs_are_accounted (rnd : nat -> Q) (roles : list Role.t)
        (playerName : string) (turns : list (string * Z * Z)) :
  allEntities accounted (snd (play rnd turns (newWorld roles playerName))).
Proof.
  apply (steps_allEntities anyEntity anyQuantity accounted
           (newWorld roles playerName)).
  - intros k e e' _. apply roundUpdate_accounted.
  - apply play_steps;
      [apply any_closed|apply allEntities_any|apply Forall_anyQuantity].
  - apply initEntities_all. intros role. by split.
Qed.

Lemma roundUpdate_wellShaped (V : Z -> Prop) (k : string) (e e' : Entity.t) :
  roundUpdate V k e e' -> wellShaped e -> wellShaped e'.
Proof.
  assert (Hcore : forall o y rest,
             wellShaped e ->
             wellShaped
               (placeAndAccrue y
                  (snd (fulfilAndReceive o (Entity.set_incomingOrders rest e)))
                  (fst (fulfilAndReceive o
                          (Entity.set_incomingOrders rest e))))).
  { intros o y rest [Hlen Hlast].
    pose proof (roundCore_fields o y rest e)
      as (_ & _ & _ & _ & _ & _ & Hoh & Hih & _).
    cbv zeta in *. unfold wellShaped. rewrite Hih, Hoh. unfold push.
    rewrite !length_app, last_snoc. simpl. split; [lia|done]. }
  intros [_|x _ _|x y _ _ _|y _]; [done|done|apply Hcore..].
Qed.

Lemma play_keeps_shape (rnd : nat -> Q) (turns : list (string * Z * Z)) w :
  allEntities wellShaped w -> allEntities wellShaped (snd (play rnd turns w)).
Proof.
  intros Hw. apply (steps_allEntities anyEntity anyQuantity wellShaped w).
  - intros k e e' _. apply roundUpdate_wellShaped.
  - apply play_steps;
      [apply any_closed|apply allEntities_any|apply Forall_anyQuantity].
  - done.
Qed.

Lemma newWorld_wellShaped (roles : list Role.t) (playerName : string) :
  allEntities wellShaped (newWorld roles playerName).
Proof. apply initEntities_all. intros role. by split. Qed.

(** X4. In every state a game reaches from the constructor, every entity has
    one inventory entry more than it has processed orders, and the last
    inventory entry is its current inventory. *)
Theorem histories_are_aligned (rnd : nat -> Q) (roles : list Role.t)
        (playerName : string) (turns : list (string * Z * Z)) :
  allEntities wellShaped (snd (play rnd turns (newWorld roles playerName))).
Proof.
  apply (steps_allEntities anyEntity anyQuantity wellShaped
           (newWorld roles playerName)).
  - intros k e e' _. apply roundUpdate_wellShaped.
  - apply play_steps;
      [apply any_closed|apply allEntities_any|apply Forall_anyQuantity].
  - apply initEntities_all. intros role. by split.
Qed.

Lemma newWorld_nonnegEntities (roles : list Role.t) (playerName : string) :
  allEntities nonnegEntity (newWorld roles playerName).
Proof. apply initEntities_all. intros role. repeat split; simpl; done. Qed.

(** A round update with non-negative quantities, of an entity whose
    inventory and queues are non-negative: either a queue operation of a
    receiver, or the fulfilment of a non-negative order. *)
Lemma roundUpdate_nonneg_cases (k : string) (e e' : Entity.t) :
  nonnegEntity e -> roundUpdate (fun z => 0 <= z) k e e' ->
  (k ∈ receivers /\ Entity.holdingCosts e' = Entity.holdingCosts e)
  \/ (exists o y rest,
         0 <= o
         /\ e' = placeAndAccrue y
                   (snd (fulfilAndReceive o
                           (Entity.set_incomingOrders rest e)))
                   (fst (fulfilAndReceive o
                           (Entity.set_incomingOrders rest e)))
         /\ nonnegEntity e').
Proof.
  intros Hg [Hk|x Hk Hx|x y Hk Hx Hy|y Hy].
  - left. by split.
  - left. by split.
  - right. destruct (nonneg_queue_order e x Hg Hx) as [Hg1 Ho].
    exists (orZero (fst (shift (push (Entity.incomingOrders e) x)))), y,
           (snd (shift (push (Entity.incomingOrders e) x))).
    split; [done|]. split; [done|]. unfold aiUpdate.
    apply nonneg_place; [|done]. by apply nonneg_fulfil.
  - right. destruct (nonneg_next_order e Hg) as [Hg1 Ho].
    exists (orZero (fst (shift (Entity.incomingOrders e)))), y,
           (snd (shift (Entity.incomingOrders e))).
    split; [done|]. split; [done|]. unfold playerUpdate.
    apply nonneg_place; [|done]. by apply nonneg_fulfil.
Qed.

Lemma supplier_not_receiver : "supplier" ∉ receivers.
Proof.
  unfold receivers. rewrite !elem_of_cons, elem_of_nil.
  intros [H|[H|[H|[H|[]]]]]; discriminate.
Qed.

Lemma roundUpdate_holdsOn (k : string) (e e' : Entity.t) :
  nonnegEntity e -> roundUpdate (fun z => 0 <= z) k e e' -> holdsOn k e e'.
Proof.
  intros Hg Hu. unfold holdsOn.
  destruct (roundUpdate_nonneg_cases k e e' Hg Hu)
    as [[_ ->]|(o & y & rest & Ho & -> & Hg')]; [apply Qle_refl|].
  pose proof (roundCore_fields o y rest e)
    as (_ & _ & _ & _ & _ & _ & _ & _ & _ & _ & Hhc & _).
  cbv zeta in Hhc. rewrite Hhc.
  rewrite <- (Qplus_0_r (Entity.holdingCosts e)) at 1.
  apply Qplus_le_r. apply Qmult_le_0_compat; [|done].
  change 0%Q with (inject_Z 0). rewrite <- Zle_Qle. by destruct Hg'.
Qed.

Lemma roundUpdate_unsupplied (k : string) (e e' : Entity.t) :
  nonnegEntity e -> roundUpdate (fun z => 0 <= z) k e e' -> unsupplied k e e'.
Proof.
  intros Hg Hu -> Hempty.
  destruct (roundUpdate_nonneg_cases "supplier" e e' Hg Hu)
    as [[Hk _]|(o & y & rest & Ho & -> & Hg')].
  { by destruct (supplier_not_receiver Hk). }
  pose proof (roundCore_fields o y rest e)
    as (_ & _ & _ & _ & _ & _ & _ & _ & _ & _ & _ & _ & Hinv).
  cbv zeta in Hinv. destruct Hg as [Hi _].
  destruct Hinv as [(Hinv & Hsh & _)|(s & Hsh & _)].
  - rewrite Hinv, Hsh. split; [done|lia].
  - rewrite Hempty in Hsh. discriminate.
Qed.

(** X5. When the entities start with non-negative inventories and queues and
    every external order is non-negative, the holding costs of no entity
    decrease during a game. *)
Theorem holding_costs_never_decrease (rnd : nat -> Q)
        (turns : list (string * Z * Z)) (w : World.t) :
  allEntities nonnegEntity w -> Forall (fun t => 0 <= t.1.2) turns ->
  evolves holdsOn w (snd (play rnd turns w)).
Proof.
  intros Hg Hq. apply (steps_evolves nonnegEntity (fun z => 0 <= z)).
  - intros k e. apply Qle_refl.
  - intros k e1 e2 e3. apply Qle_trans.
  - apply roundUpdate_holdsOn.
  - by apply play_steps; [apply nonneg_closed| |].
Qed.

(** X6. Under the same conditions the supplier is never resupplied: nothing
    is ever pushed onto its [incomingShipments], and its inventory does not
    grow. *)
Theorem supplier_is_never_resupplied (rnd : nat -> Q)
        (turns : list (string * Z * Z)) (w : World.t) :
  allEntities nonnegEntity w -> Forall (fun t => 0 <= t.1.2) turns ->
  evolves unsupplied w (snd (play rnd turns w)).
Proof.
  intros Hg Hq. apply (steps_evolves nonnegEntity (fun z => 0 <= z)).
  - by intros k e _ He.
  - intros k e1 e2 e3 H12 H23 Hk He.
    destruct (H12 Hk He) as [He2 Hi2]. destruct (H23 Hk He2) as [He3 Hi3].
    split; [done|lia].
  - apply roundUpdate_unsupplied.
  - by apply play_steps; [apply nonneg_closed| |].
Qed.

(** ** Counting the rounds *)

Lemma ordersAt_set_same (k k' : string) (e e' : Entity.t) w :
  entitiesOf w !! k = Some e ->
  length (Entity.orderHistory e') = length (Entity.orderHistory e) ->
  ordersAt (setEntityIn k e' w) k' = ordersAt w k'.
Proof.
  intros He Hlen. unfold ordersAt, setEntityIn, entitiesOf at 1. simpl.
  destruct (decide (k = k')) as [<-|Hne].
  - rewrite lookup_insert_eq, He. simpl. by rewrite Hlen.
  - by rewrite lookup_insert_ne.
Qed.

Lemma ordersAt_set_succ (k k' : string) (e e' : Entity.t) w :
  entitiesOf w !! k = Some e ->
  length (Entity.orderHistory e') = S (length (Entity.orderHistory e)) ->
  ordersAt (setEntityIn k e' w) k'
  = if decide (k' = k) then S <$> ordersAt w k' else ordersAt w k'.
Proof.
  intros He Hlen. unfold ordersAt, setEntityIn, entitiesOf at 1. simpl.
  destruct (decide (k' = k)) as [->|Hne].
  - rewrite lookup_insert_eq, He. simpl. by rewrite Hlen.
  - by rewrite lookup_insert_ne.
Qed.

Lemma calculateAIOrder_world (rnd : nat -> Q) (entity : Entity.t)
      (strategy : Strategy) (currentOrder round : Z) w :
  wp (calculateAIOrder rnd entity strategy currentOrder round)
     (fun _ w' => w' = World.mk w.(World.engine) (S w.(World.draws)))
     (fun _ => False) w.
Proof.
  unfold calculateAIOrder. by apply wp_bind, wp_Math_random, wp_ret.
Qed.

Lemma roundCore_orders (o y : Z) (rest : list Z) (e : Entity.t) :
  length (Entity.orderHistory
            (placeAndAccrue y
               (snd (fulfilAndReceive o (Entity.set_incomingOrders rest e)))
               (fst (fulfilAndReceive o
                       (Entity.set_incomingOrders rest e)))))
  = S (length (Entity.orderHistory e)).
Proof.
  pose proof (roundCore_fields o y rest e)
    as (_ & _ & _ & _ & _ & _ & Hoh & _).
  cbv zeta in Hoh. rewrite Hoh. unfold push. rewrite length_app. simpl. lia.
Qed.

Section Counting.
Variable rnd : nat -> Q.

Lemma processAIEntity_count (round : Z) (playerRoleId roleId : string) w :
  wp (processAIEntity rnd round playerRoleId roleId)
     (fun _ w' =>
        forall k, ordersAt w' k
                  = if decide (k = roleId /\ roleId <> playerRoleId)
                    then S <$> ordersAt w k else ordersAt w k)
     (fun _ => True) w.
Proof.
  unfold processAIEntity.
  destruct (decide (roleId = playerRoleId)) as [Hp|Hp].
  { apply wp_ret. intros k.
    by destruct (decide (k = roleId /\ roleId <> playerRoleId)) as [[_ ?]|]. }
  apply wp_bind.
  apply wp_mono with (Q := fun _ w' => forall k, ordersAt w' k = ordersAt w k)
                     (E := fun _ => True); [| |done].
  { destruct (decide (roleId = "retailer")).
    - eapply wp_mono; [apply getCustomerDemand_entities| |done].
      intros ? w' Hw k. unfold ordersAt. by rewrite Hw.
    - apply wp_bind, wp_entityOf; [|done]. intros d Hd.
      destruct (shift (Entity.outgoingOrders d)) as [o rest].
      apply wp_bind, wp_setEntity, wp_ret. intros k.
      by apply (ordersAt_set_same _ _ d). }
  intros incomingOrder w1 H1.
  apply wp_bind, wp_entityOf; [|done]. intros entity He.
  pose proof (fun y => roundCore_orders
                         (orZero (fst (shift (push (Entity.incomingOrders
                                                      entity)
                                                   incomingOrder))))
                         y
                         (snd (shift (push (Entity.incomingOrders entity)
                                           incomingOrder)))
                         entity) as Hlen.
  destruct (shift (push _ _)) as [o rest]. simpl in Hlen.
  destruct (fulfilAndReceive _ _) as [entity' q]. simpl in Hlen.
  apply wp_bind.
  eapply wp_mono; [apply calculateAIOrder_world| |done].
  intros orderQuantity w2 ->. apply wp_bind, wp_setEntity.
  change (World.mk _ (World.draws (World.mk _ _)))
    with (setEntityIn roleId (placeAndAccrue orderQuantity q entity')
            (World.mk (World.engine w1) (S (World.draws w1)))).
  assert (H2 : forall k,
             ordersAt
               (setEntityIn roleId (placeAndAccrue orderQuantity q entity')
                  (World.mk (World.engine w1) (S (World.draws w1)))) k
             = if decide (k = roleId /\ roleId <> playerRoleId)
               then S <$> ordersAt w k else ordersAt w k).
  { intros k.
    rewrite (ordersAt_set_succ roleId k entity); [|exact He|apply (Hlen orderQuantity)].
    change (ordersAt (World.mk (World.engine w1) (S (World.draws w1))) k)
      with (ordersAt w1 k). rewrite H1.
    destruct (decide (k = roleId)), (decide (_ /\ _)) as [[? ?]|Hn];
      try done; exfalso; tauto. }
  set (w3 := setEntityIn _ _ _) in *. clearbody w3. apply wp_bind.
  apply wp_mono with (Q := fun _ w' => forall k, ordersAt w' k = ordersAt w3 k)
                     (E := fun _ => True); [| |done].
  - destruct (decide (roleId <> "retailer")); [|by apply wp_ret].
    apply wp_bind, wp_entityOf; [|done]. intros d Hd.
    apply wp_setEntity. intros k. by apply (ordersAt_set_same _ _ d).
  - intros ? w4 H4. apply wp_ret. intros k. by rewrite H4.
Qed.

Lemma forEach_count (round : Z) (playerRoleId : string) (l : list string) w :
  NoDup l ->
  wp (forEach (fun roleId =>
                 processAIEntity rnd round playerRoleId roleId ;;; ret tt) l)
     (fun _ w' =>
        forall k, ordersAt w' k
                  = if decide (k ∈ l /\ k <> playerRoleId)
                    then S <$> ordersAt w k else ordersAt w k)
     (fun _ => True) w.
Proof.
  revert w. induction l as [|r t IH]; intros w Hnd; simpl.
  { apply wp_ret. intros k.
    destruct (decide (k ∈ [] /\ k <> playerRoleId)) as [[Hk _]|]; [|done].
    by apply elem_of_nil in Hk. }
  apply NoDup_cons in Hnd as [Hr Ht].
  apply wp_bind, wp_bind.
  eapply wp_mono; [apply processAIEntity_count| |done].
  intros ? w1 H1. apply wp_ret.
  eapply wp_mono; [by apply IH| |done].
  intros ? w2 H2 k. rewrite H2, H1.
  destruct (decide (k ∈ t /\ k <> playerRoleId)) as [[Hkt Hkp]|Hn1];
    destruct (decide (k = r /\ r <> playerRoleId)) as [[Hkr Hrp]|Hn2];
    destruct (decide (k ∈ r :: t /\ k <> playerRoleId)) as [[Hk Hkp']|Hn3];
    try done; exfalso; rewrite ?elem_of_cons in *; naive_solver.
Qed.

Lemma processAIEntities_count (round : Z) (playerRoleId : string) w :
  wp (processAIEntities rnd round playerRoleId)
     (fun _ w' =>
        forall k, ordersAt w' k
                  = if decide (k ∈ roleOrder /\ k <> playerRoleId)
                    then S <$> ordersAt w k else ordersAt w k)
     (fun _ => True) w.
Proof.
  unfold processAIEntities. apply wp_bind.
  eapply wp_mono; [apply forEach_count| |done].
  { unfold roleOrder. repeat (apply NoDup_cons; split;
      [rewrite ?elem_of_cons, elem_of_nil; intuition discriminate|]).
    apply NoDup_nil_2. }
  intros [] w1 H1.
  apply wp_bind, wp_entityOf; [|done]. intros s Hs.
  apply wp_bind, wp_entityOf; [|done]. intros m Hm.
  apply wp_setEntity. intros k.
  change (World.mk _ (World.draws w1))
    with (setEntityIn "manufacturer"
            (Entity.set_incomingShipments
               (push (Entity.incomingShipments m)
                  (orZero (at_ (Entity.incomingOrders s)
                             (Z.of_nat (length (Entity.incomingOrders s))
                              - 1)))) m) w1).
  by rewrite (ordersAt_set_same _ _ m), H1.
Qed.

Lemma processPlayerOrder_count (roleId : string) (quantity round : Z) w :
  wp (processPlayerOrder rnd roleId quantity round)
     (fun _ w' =>
        forall k, ordersAt w' k
                  = if decide (k = roleId \/ k ∈ roleOrder)
                    then S <$> ordersAt w k else ordersAt w k)
     (fun _ => True) w.
Proof.
  unfold processPlayerOrder.
  apply wp_bind, wp_entityOf; [|done]. intros entity He.
  pose proof (fun y => roundCore_orders
                         (orZero (fst (shift (Entity.incomingOrders entity))))
                         y (snd (shift (Entity.incomingOrders entity)))
                         entity) as Hlen.
  destruct (shift _) as [o rest]. simpl in Hlen.
  destruct (fulfilAndReceive _ _) as [entity' q]. simpl in Hlen.
  apply wp_bind, wp_setEntity.
  change (World.mk _ (World.draws w))
    with (setEntityIn roleId (placeAndAccrue quantity q entity') w).
  pose proof (fun k => ordersAt_set_succ roleId k entity
                         (placeAndAccrue quantity q entity') w He
                         (Hlen quantity)) as H1.
  set (w1 := setEntityIn _ _ _) in *. clearbody w1. apply wp_bind.
  eapply wp_mono; [apply processAIEntities_count| |done].
  intros ? w2 H2. apply wp_bind, wp_entityOf; [|done]. intros e2 _.
  apply wp_ret. intros k. rewrite H2, H1.
  destruct (decide (k ∈ roleOrder /\ k <> roleId)) as [[Hk Hne]|Hn1];
    destruct (decide (k = roleId)) as [Heq|Hne'];
    destruct (decide (k = roleId \/ k ∈ roleOrder)) as [Hor|Hn3];
    try done; exfalso; naive_solver.
Qed.

Lemma play_count (turns : list (string * Z * Z)) w :
  wp (play rnd turns)
     (fun rs w' =>
        length rs = length turns
        /\ forall k, k ∈ roleOrder ->
                     ordersAt w' k
                     = (fun n => (n + length turns)%nat) <$> ordersAt w k)
     (fun _ => True) w.
Proof.
  revert w. induction turns as [|[[roleId quantity] round] rest IH];
    intros w; simpl.
  { apply wp_ret. split; [done|]. intros k _.
    destruct (ordersAt w k) as [n|]; simpl; [|done]. f_equal. lia. }
  apply wp_bind.
  eapply wp_mono; [apply processPlayerOrder_count| |done].
  intros r w1 H1. apply wp_bind.
  eapply wp_mono; [apply IH| |done].
  intros rs w2 [Hlen H2]. apply wp_ret. split; [simpl; by rewrite Hlen|].
  intros k Hk. rewrite (H2 k Hk), H1.
  destruct (decide (k = roleId \/ k ∈ roleOrder)) as [_|Hn];
    [|exfalso; apply Hn; by right].
  destruct (ordersAt w k) as [n|]; simpl; [|done]. f_equal. lia.
Qed.
End Counting.

Lemma newWorld_ordersAt (roles : list Role.t) (playerName k : string) :
  k ∈ map Role.id roles -> ordersAt (newWorld roles playerName) k = Some 0%nat.
Proof.
  intros Hk. unfold ordersAt.
  destruct (initEntities_present roles k Hk) as [e He].
  change (entitiesOf (newWorld roles playerName)) with (initEntities roles).
  rewrite He. simpl. f_equal.
  pose proof (initEntities_all (fun e => Entity.orderHistory e = []) roles
                (fun _ => eq_refl) k e He) as Hnil.
  simpl in Hnil. by rewrite Hnil.
Qed.

(** X7. On an engine built with the five chain roles, a game of [n] calls for
    roles of the engine returns [n] results, and every chain entity then has
    exactly [n] entries in its order history and [n + 1] in its inventory
    history: each call processes every chain role once, the player through
    [processPlayerOrder] and the others through [processAIEntity]. *)
Theorem every_round_is_recorded (rnd : nat -> Q) (roles : list Role.t)
        (playerName : string) (turns : list (string * Z * Z)) :
  (forall r, r ∈ roleOrder -> r ∈ map Role.id roles) ->
  Forall (fun t => t.1.1 ∈ map Role.id roles) turns ->
  exists rs,
    fst (play rnd turns (newWorld roles playerName)) = inr rs
    /\ length rs = length turns
    /\ forall k, k ∈ roleOrder ->
         exists e,
           entitiesOf (snd (play rnd turns (newWorld roles playerName))) !! k
           = Some e
           /\ length (Entity.orderHistory e) = length turns
           /\ length (Entity.inventoryHistory e) = S (length turns).
Proof.
  intros Hchain Hturns.
  assert (HI : engineReady (map Role.id roles) (newWorld roles playerName)).
  { split; [done|]. intros r Hr. by apply initEntities_present. }
  pose proof (play_total rnd (map Role.id roles) Hchain turns _ Hturns HI)
    as Htotal.
  pose proof (play_count rnd turns (newWorld roles playerName)) as Hcount.
  pose proof (play_keeps_shape rnd turns _
                (newWorld_wellShaped roles playerName)) as Hshape.
  unfold wp in Htotal, Hcount.
  destruct (play rnd turns _) as [[err|rs] w']; [done|].
  destruct Hcount as [Hlen Hcount]. exists rs. repeat split; [done|].
  intros k Hk. specialize (Hcount k Hk).
  rewrite newWorld_ordersAt in Hcount by by apply Hchain.
  unfold ordersAt in Hcount. simpl in *.
  destruct (entitiesOf w' !! k) as [e|] eqn:He; [|done].
  exists e. simpl in Hcount. injection Hcount as Hn.
  destruct (Hshape k e He) as [Hinv _]. repeat split; lia.
Qed.

(** ** A closed chain: no unit is ever created *)

Lemma totalStock_insert (m : gmap string Entity.t) (k : string)
      (e e' : Entity.t) :
  m !! k = Some e ->
  totalStock (<[k := e']> m) = totalStock m - stock e + stock e'.
Proof.
  intros He. unfold totalStock.
  rewrite (map_fold_delete_L _ 0 k e m); [|intros; lia|done].
  rewrite <- (insert_delete_eq m).
  rewrite map_fold_insert_L; [lia|intros; lia|apply lookup_delete_eq].
Qed.

Lemma totalStock_lookup (m : gmap string Entity.t) (k : string) (e : Entity.t) :
  map_Forall (fun _ e => 0 <= stock e) m -> m !! k = Some e ->
  stock e <= totalStock m.
Proof.
  intros Hm He. unfold totalStock.
  rewrite (map_fold_delete_L _ 0 k e m); [|intros; lia|done].
  assert (0 <= map_fold (fun _ e acc => stock e + acc) 0 (delete k m));
    [|lia].
  assert (Hd : map_Forall (fun _ e => 0 <= stock e) (delete k m)).
  { intros j x Hj. apply lookup_delete_Some in Hj as [_ Hj]. by eapply Hm. }
  revert Hd. generalize (delete k m). clear. intros m.
  apply (map_fold_weak_ind
           (fun r m => map_Forall (fun _ e => 0 <= stock e) m -> 0 <= r)).
  - done.
  - intros i x m' r Hi IH Hall.
    apply map_Forall_insert in Hall as [Hx Hm']; [|done].
    specialize (IH Hm'). lia.
Qed.

Lemma sumZ_nonneg (l : list Z) : Forall (fun x => 0 <= x) l -> 0 <= sumZ l.
Proof.
  unfold sumZ. intros Hl.
  assert (Hgen : forall a, 0 <= a -> 0 <= fold_left Z.add l a); [|by apply Hgen].
  induction Hl as [|x t Hx Ht IH]; intros a Ha; simpl; [done|].
  apply IH. lia.
Qed.

Lemma stock_fulfil (x : Z) (e : Entity.t) :
  stock (fst (fulfilAndReceive x e))
  = stock e - Quantities.fulfilled (snd (fulfilAndReceive x e)).
Proof.
  unfold fulfilAndReceive, stock. simpl.
  destruct (decide _) as [Hlen|Hlen]; simpl; [|lia].
  destruct (Entity.incomingShipments e) as [|s t]; simpl; [lia|].
  change (sumZ (s :: t)) with (fold_left Z.add t (0 + s)).
  rewrite (sumZ_from t (0 + s)). lia.
Qed.

Lemma settled_closed : RoundClosed.t settled (fun z => 0 <= z).
Proof.
  pose proof nonneg_closed as Hn. pose proof emptyOrderQueue_closed as Hq.
  constructor.
  - done.
  - intros e [He1 He2]. split; [split|].
    + apply (RoundClosed.shift_outgoing Hn e He1).
    + apply (RoundClosed.shift_outgoing Hq e He2).
    + apply (RoundClosed.shift_outgoing Hn e He1).
  - intros e x [He1 He2] Hx. split.
    + by apply (RoundClosed.push_shipment Hn).
    + by apply (RoundClosed.push_shipment Hq).
  - intros e x [He1 He2] Hx. split; [split|].
    + by apply (RoundClosed.queue_order Hn).
    + by apply (RoundClosed.queue_order Hq).
    + by apply (RoundClosed.queue_order Hn).
  - intros e [He1 He2]. split; [split|].
    + by apply (RoundClosed.next_order Hn).
    + by apply (RoundClosed.next_order Hq).
    + by apply (RoundClosed.next_order Hn).
  - intros e x [He1 He2] Hx. split; [split|].
    + by apply (RoundClosed.fulfil Hn).
    + by apply (RoundClosed.fulfil Hq).
    + by apply (RoundClosed.fulfil Hn).
  - intros e q x [He1 He2] Hx. split.
    + by apply (RoundClosed.place Hn).
    + by apply (RoundClosed.place Hq).
  - intros e i [He1 He2]. by apply (RoundClosed.last_order Hn).
Qed.

Lemma stockWithin_set (B : Z) (k : string) (e e' : Entity.t) w :
  allEntities settled w -> entitiesOf w !! k = Some e -> settled e' ->
  totalStock (entitiesOf w) - stock e + stock e' <= B ->
  stockWithin B
    (World.mk (GameEngine.set_entities (<[k := e']> (entitiesOf w))
                 w.(World.engine))
              w.(World.draws)).
Proof.
  intros Hall He He' Hb. split; [by apply allEntities_set|].
  unfold entitiesOf at 1. simpl. by rewrite (totalStock_insert _ _ e).
Qed.

Section ClosedChain.
Variable rnd : nat -> Q.
Variable B : Z.

Lemma processAIEntity_stock (round : Z) (playerRoleId roleId : string) w :
  stockWithin B w ->
  wp (processAIEntity rnd round playerRoleId roleId)
     (fun _ => stockWithin B) (stockWithin B) w.
Proof.
  intros [HI HB]. unfold processAIEntity.
  destruct (decide (roleId = playerRoleId)); [by apply wp_ret|].
  apply wp_bind.
  apply wp_mono with (Q := fun v w' => stockWithin B w' /\ 0 <= v)
                     (E := stockWithin B); [| |done].
  { destruct (decide (roleId = "retailer")).
    - pose proof (getCustomerDemand_preserves rnd _ _ settled_closed round w
                    HI) as H1.
      pose proof (getCustomerDemand_entities rnd round w) as H2.
      unfold wp in *. destruct (getCustomerDemand rnd round w) as [[err|v] w'].
      + split; [done|]. by rewrite H2.
      + destruct H1 as [H1 Hv]. split; [split; [done|by rewrite H2]|done].
    - apply wp_bind, wp_entityOf; [|done]. intros d Hd.
      pose proof (RoundClosed.shift_outgoing settled_closed d
                    (allEntities_lookup _ _ _ _ HI Hd)) as [Hg Hv].
      destruct (shift (Entity.outgoingOrders d)) as [o rest].
      apply wp_bind, wp_setEntity, wp_ret. split; [|done].
      apply (stockWithin_set B _ d); try done. unfold stock. simpl.
      unfold stock in HB. lia. }
  clear w HI HB. intros incomingOrder w [[HI HB] Hin].
  apply wp_bind, wp_entityOf; [|done]. intros entity He.
  pose proof (allEntities_lookup _ _ _ _ HI He) as Hge.
  pose proof (RoundClosed.queue_order settled_closed entity incomingOrder
                Hge Hin) as [Hg1 Hv1].
  destruct (shift (push _ _)) as [o rest]. simpl in Hg1, Hv1.
  pose proof (RoundClosed.fulfil settled_closed _ _ Hg1 Hv1) as [Hg2 Hv2].
  pose proof (stock_fulfil (orZero o) (Entity.set_incomingOrders rest entity))
    as Hstock.
  destruct (fulfilAndReceive _ _) as [entity' q]. simpl in Hg2, Hv2, Hstock.
  apply wp_bind.
  pose proof (calculateAIOrder_preserves rnd _ _ settled_closed entity'
                (getAIStrategy roleId round) (orZero o) round w HI) as H1.
  pose proof (calculateAIOrder_world rnd entity' (getAIStrategy roleId round)
                (orZero o) round w) as H2.
  unfold wp in H1, H2. unfold wp at 1.
  destruct (calculateAIOrder rnd entity' _ _ _ w) as [[err|orderQuantity] w0];
    [done|].
  destruct H1 as [_ Hq]. subst w0.
  apply wp_bind, wp_setEntity.
  change (World.mk
            (GameEngine.set_entities
               (<[roleId := placeAndAccrue orderQuantity q entity']>
                  (GameEngine.entities
                     (World.engine
                        (World.mk (World.engine w) (S (World.draws w))))))
               (World.engine (World.mk (World.engine w) (S (World.draws w)))))
            (World.draws (World.mk (World.engine w) (S (World.draws w)))))
    with (World.mk
            (GameEngine.set_entities
               (<[roleId := placeAndAccrue orderQuantity q entity']>
                  (entitiesOf w))
               (World.engine w))
            (S (World.draws w))).
  assert (H3 : stockWithin (B - Quantities.fulfilled q)
                 (World.mk
                    (GameEngine.set_entities
                       (<[roleId := placeAndAccrue orderQuantity q entity']>
                          (entitiesOf w))
                       (World.engine w))
                    (S (World.draws w)))).
  { split.
    - apply (allEntities_set settled roleId _ w HI).
      by apply (RoundClosed.place settled_closed).
    - unfold entitiesOf at 1. simpl.
      rewrite (totalStock_insert _ _ entity) by done.
      change (stock (placeAndAccrue orderQuantity q entity'))
        with (stock entity').
      rewrite Hstock.
      change (stock (Entity.set_incomingOrders rest entity))
        with (stock entity). lia. }
  set (w1 := World.mk _ _) in *. clearbody w1.
  destruct H3 as [HI1 HB1]. apply wp_bind.
  apply wp_mono with (Q := fun _ => stockWithin B) (E := stockWithin B);
    [| |done].
  - destruct (decide (roleId <> "retailer"));
      [|apply wp_ret; split; [done|lia]].
    apply wp_bind, wp_entityOf; [|split; [done|lia]]. intros d Hd.
    apply wp_setEntity, (stockWithin_set B _ d); try done.
    + apply (RoundClosed.push_shipment settled_closed); [|done].
      by eapply allEntities_lookup.
    + unfold stock. simpl. rewrite sumZ_push. unfold stock in HB1. lia.
  - intros ? w2 HI2. by apply wp_ret.
Qed.

Lemma processAIEntities_stock (round : Z) (playerRoleId : string) w :
  stockWithin B w ->
  wp (processAIEntities rnd round playerRoleId)
     (fun _ => stockWithin B) (stockWithin B) w.
Proof.
  intros HI. unfold processAIEntities. apply wp_bind.
  eapply wp_mono;
    [apply (wp_forEach _ _ (stockWithin B) (stockWithin B))| |done];
    [|done|].
  - intros roleId w' _ HI'. apply wp_bind.
    eapply wp_mono; [by apply processAIEntity_stock| |done].
    intros ? ? ?. by apply wp_ret.
  - clear w HI. intros [] w [HI HB].
    apply wp_bind, wp_entityOf; [|done]. intros s Hs.
    apply wp_bind, wp_entityOf; [|done]. intros m Hm.
    apply wp_setEntity, (stockWithin_set B _ m); try done.
    + apply (RoundClosed.push_shipment settled_closed);
        [by eapply allEntities_lookup|].
      apply (RoundClosed.last_order settled_closed).
      by eapply allEntities_lookup.
    + destruct (allEntities_lookup _ _ _ _ HI Hs) as [_ Hempty].
      unfold emptyOrderQueue in Hempty. rewrite Hempty, at_nil.
      unfold stock. simpl. rewrite sumZ_push. unfold stock in HB.
      simpl. lia.
Qed.

Lemma processPlayerOrder_stock (roleId : string) (quantity round : Z) w :
  0 <= quantity -> stockWithin B w ->
  wp (processPlayerOrder rnd roleId quantity round)
     (fun _ => stockWithin B) (stockWithin B) w.
Proof.
  intros Hq [HI HB]. unfold processPlayerOrder.
  apply wp_bind, wp_entityOf; [|done]. intros entity He.
  pose proof (allEntities_lookup _ _ _ _ HI He) as Hge.
  pose proof (RoundClosed.next_order settled_closed entity Hge) as [Hg1 Hv1].
  destruct (shift _) as [o rest]. simpl in Hg1, Hv1.
  pose proof (RoundClosed.fulfil settled_closed _ _ Hg1 Hv1) as [Hg2 Hv2].
  pose proof (stock_fulfil (orZero o) (Entity.set_incomingOrders rest entity))
    as Hstock.
  destruct (fulfilAndReceive _ _) as [entity' q]. simpl in Hg2, Hv2, Hstock.
  apply wp_bind, wp_setEntity.
  assert (H1 : stockWithin B
                 (World.mk
                    (GameEngine.set_entities
                       (<[roleId := placeAndAccrue quantity q entity']>
                          (entitiesOf w))
                       (World.engine w))
                    (World.draws w))).
  { apply (stockWithin_set B _ entity); try done.
    - by apply (RoundClosed.place settled_closed).
    - change (stock (placeAndAccrue quantity q entity')) with (stock entity').
      rewrite Hstock.
      change (stock (Entity.set_incomingOrders rest entity))
        with (stock entity). lia. }
  unfold entitiesOf in H1 at 1.
  set (w1 := World.mk _ _) in *. clearbody w1. apply wp_bind.
  eapply wp_mono; [by apply processAIEntities_stock| |done].
  intros ? w2 HI2. apply wp_bind, wp_entityOf; [|done]. intros e2 He2.
  by apply wp_ret.
Qed.

Lemma play_stock (turns : list (string * Z * Z)) w :
  Forall (fun t => 0 <= t.1.2) turns -> stockWithin B w ->
  wp (play rnd turns) (fun _ => stockWithin B) (stockWithin B) w.
Proof.
  revert w. induction turns as [|[[roleId quantity] round] rest IH];
    intros w Hq HI; simpl; [by apply wp_ret|].
  apply Forall_cons in Hq as [Hq Hrest]. apply wp_bind.
  eapply wp_mono; [by apply processPlayerOrder_stock| |done].
  intros r w1 HI1. apply wp_bind.
  eapply wp_mono; [by apply IH| |done].
  intros rs w2 HI2. by apply wp_ret.
Qed.
End ClosedChain.

(** X8. The chain is closed: a round moves units down the chain or out of
    it and never creates any.  From a state with non-negative inventories and
    queues and empty order queues, and with non-negative orders of the
    player, the units held or in transit never exceed their initial total,
    whatever the draws and wherever the game stops; so no inventory ever
    exceeds that total.  The units the player or the retailer ships leave
    the chain, and the supplier is sent none. *)
Theorem stock_is_never_created (rnd : nat -> Q)
        (turns : list (string * Z * Z)) w :
  allEntities nonnegEntity w -> allEntities emptyOrderQueue w ->
  Forall (fun t => 0 <= t.1.2) turns ->
  totalStock (entitiesOf (snd (play rnd turns w))) <= totalStock (entitiesOf w)
  /\ forall k e, entitiesOf (snd (play rnd turns w)) !! k = Some e ->
                 0 <= Entity.inventory e <= totalStock (entitiesOf w).
Proof.
  intros Hn Hq Hturns.
  assert (HI : stockWithin (totalStock (entitiesOf w)) w).
  { split; [|lia]. intros k e He. split; [by apply (Hn k)|by apply (Hq k)]. }
  pose proof (play_stock rnd _ turns w Hturns HI) as Hwp.
  unfold wp in Hwp.
  assert (Hfinal : stockWithin (totalStock (entitiesOf w))
                     (snd (play rnd turns w)))
    by by destruct (play rnd turns w) as [[?|?] ?].
  clear Hwp. destruct Hfinal as [Hall Hbound]. split; [done|].
  intros k e He. destruct (Hall k e He) as [(Hinv & _ & _ & Hsh) _].
  split; [done|].
  assert (stock e <= totalStock (entitiesOf (snd (play rnd turns w)))).
  { apply (totalStock_lookup _ k); [|done].
    intros j x Hx. destruct (Hall j x Hx) as [(Hi & _ & _ & Hs) _].
    unfold stock. pose proof (sumZ_nonneg _ Hs). lia. }
  unfold stock in *. pose proof (sumZ_nonneg _ Hsh). lia.
Qed.

(** ** Ranges of the random quantities *)

Lemma Math_floor_unit (r : Q) (k : Z) :
  (0 <= r)%Q -> (r < 1)%Q -> 0 < k ->
  0 <= Math_floor (r * inject_Z k) < k.
Proof.
  intros H0 H1 Hk. unfold Math_floor.
  assert (HkQ : (0 < inject_Z k)%Q).
  { change 0%Q with (inject_Z 0). by rewrite <- Zlt_Qlt. }
  split.
  - change 0 with (Qfloor 0). apply Qfloor_resp_le.
    apply Qmult_le_0_compat; [done|by apply Qlt_le_weak].
  - rewrite Zlt_Qlt. eapply Qle_lt_trans; [apply Qfloor_le|].
    rewrite <- (Qmult_1_l (inject_Z k)) at 2.
    by apply Qmult_lt_compat_r.
Qed.

Lemma Math_round_le (x y : Q) : (x <= y)%Q -> Math_round x <= Math_round y.
Proof.
  intros H. unfold Math_round. apply Qfloor_resp_le. by apply Qplus_le_l.
Qed.

Lemma demand_in_phase (phase : Phase.t) (r1 r2 : Q) :
  phaseOk phase ->
  (0 <= r1)%Q -> (r1 < 1)%Q -> (0 <= r2)%Q -> (r2 < 1)%Q ->
  let base :=
    Math_floor (r1 * inject_Z (Phase.max phase - Phase.min phase + 1))
    + Phase.min phase in
  phaseLow phase
  <= Z.max 0 (Math_round
                (inject_Z base
                 + (r2 - (1 # 2)) * 2 * Phase.volatility phase * inject_Z base))
  <= phaseHigh phase.
Proof.
  intros ([Hmin Hmax] & Hv0 & Hv1) Hr1 Hr1' Hr2 Hr2' base.
  pose proof (Math_floor_unit r1 (Phase.max phase - Phase.min phase + 1)
                Hr1 Hr1' ltac:(lia)) as Hf.
  assert (Hb : Phase.min phase <= base <= Phase.max phase)
    by (unfold base; lia).
  clearbody base. clear Hf.
  destruct Hb as [Hb1 Hb2].
  assert (Hb0 : (0 <= inject_Z base)%Q).
  { change 0%Q with (inject_Z 0). rewrite <- Zle_Qle. lia. }
  rewrite Zle_Qle in Hb1, Hb2, Hmin.
  change (inject_Z 0) with 0%Q in Hmin.
  set (v := Phase.volatility phase) in *.
  set (b := inject_Z base) in *.
  set (lo := inject_Z (Phase.min phase)) in *.
  set (hi := inject_Z (Phase.max phase)) in *.
  assert (Hlow : (lo * (1 - v) <= b + (r2 - (1 # 2)) * 2 * v * b)%Q).
  { apply Qle_trans with (b * (1 - v))%Q.
    - apply Qmult_le_compat_r; [done|]. lra.
    - assert (0 <= r2 * (v * b))%Q; [|lra].
      repeat apply Qmult_le_0_compat; done. }
  assert (Hhigh : (b + (r2 - (1 # 2)) * 2 * v * b <= hi * (1 + v))%Q).
  { apply Qle_trans with (b * (1 + v))%Q.
    - assert (0 <= (1 - r2) * (v * b))%Q; [|lra].
      repeat apply Qmult_le_0_compat; try done. lra.
    - apply Qmult_le_compat_r; [done|]. lra. }
  apply Math_round_le in Hlow, Hhigh.
  assert (0 <= phaseHigh phase).
  { apply Math_round_nonneg. fold v hi.
    apply Qmult_le_0_compat; lra. }
  subst v b lo hi. unfold phaseLow, phaseHigh in *. lia.
Qed.

Lemma generateDemandTrend_ok :
  Forall (fun phase => phaseOk phase /\ 3 <= phaseLow phase
                       /\ phaseHigh phase <= 14)
         generateDemandTrend.
Proof.
  unfold generateDemandTrend. simpl.
  repeat (apply Forall_cons; split;
          [repeat split; vm_compute; discriminate|]).
  apply Forall_nil_2.
Qed.

(** X9. [getCustomerDemand] on the constructor's demand schedule, with draws
    in [0, 1): outside rounds 1 to 20 it returns 0 and makes no draw; inside,
    it makes two draws and returns a demand within the rounded range of the
    round's phase, hence always between 3 and 14.  It never writes the
    engine. *)
Theorem customer_demand_range (rnd : nat -> Q) (round : Z) w :
  unitDraws rnd ->
  w.(World.engine).(GameEngine.demandTrend) = generateDemandTrend ->
  exists demand,
    getCustomerDemand rnd round w
    = (inr demand,
       World.mk w.(World.engine)
                (if decide (1 <= round <= 20) then S (S w.(World.draws))
                 else w.(World.draws)))
    /\ if decide (1 <= round <= 20)
       then (exists phase,
                at_ generateDemandTrend (round - 1) = Some phase
                /\ phaseLow phase <= demand <= phaseHigh phase)
            /\ 3 <= demand <= 14
       else demand = 0.
Proof.
  intros Hrnd Htrend. unfold getCustomerDemand.
  destruct (decide (round < 1 \/ round > 20)) as [Hout|Hin].
  { exists 0. destruct (decide (1 <= round <= 20)); [lia|].
    split; [|done]. unfold ret. by destruct w. }
  destruct (decide (1 <= round <= 20)); [|lia].
  unfold bind, getEngine, Math_random, ret. simpl. rewrite Htrend.
  destruct (demandTrend_defined round Hin) as [phase Hphase].
  rewrite Hphase. simpl. eexists. split; [reflexivity|].
  assert (Hok : phaseOk phase /\ 3 <= phaseLow phase
                /\ phaseHigh phase <= 14).
  { unfold at_ in Hphase. destruct (decide _); [done|].
    by apply (proj1 (Forall_lookup _ _) generateDemandTrend_ok
                (Z.to_nat (round - 1))). }
  destruct Hok as (Hok & Hlo & Hhi).
  pose proof (demand_in_phase phase (rnd (World.draws w))
                (rnd (S (World.draws w))) Hok
                (proj1 (Hrnd _)) (proj2 (Hrnd _))
                (proj1 (Hrnd _)) (proj2 (Hrnd _))) as Hd.
  cbv zeta in Hd. split; [exists phase; split; [done|exact Hd]|].
  destruct Hd as [Hd1 Hd2].
  split; [exact (Z.le_trans _ _ _ Hlo Hd1)|exact (Z.le_trans _ _ _ Hd2 Hhi)].
Qed.

Lemma noise_range (r : Q) :
  (0 <= r)%Q -> (r < 1)%Q -> -2 <= Math_floor ((r - (1 # 2)) * 2 * 2) <= 1.
Proof.
  intros H0 H1. unfold Math_floor. split.
  - change (-2) with (Qfloor (inject_Z (-2))). apply Qfloor_resp_le.
    change (inject_Z (-2)) with (-2 # 1)%Q. lra.
  - apply Z.lt_succ_r. rewrite Zlt_Qlt.
    eapply Qle_lt_trans; [apply Qfloor_le|].
    change (inject_Z (Z.succ 1)) with (2 # 1)%Q. lra.
Qed.

(** X10. [calculateAIOrder] always returns, after exactly one draw and without
    writing the engine, and its result is never negative, whatever the
    strategy, the order and the draw.  With a draw in [0, 1) the noise is one
    of -2, -1, 0, 1: in the rounds before the fifth, where every role is
    conservative, an entity holding between 3 and 20 units orders what it was
    asked, plus that noise, floored at 0. *)
Theorem ai_order_range (rnd : nat -> Q) (entity : Entity.t) (roleId : string)
        (currentOrder round : Z) w :
  (0 <= rnd w.(World.draws))%Q -> (rnd w.(World.draws) < 1)%Q ->
  exists quantity,
    calculateAIOrder rnd entity (getAIStrategy roleId round) currentOrder
                     round w
    = (inr quantity, World.mk w.(World.engine) (S w.(World.draws)))
    /\ 0 <= quantity
    /\ (round < 5 -> 3 <= Entity.inventory entity <= 20 ->
        Z.max 0 (currentOrder - 2) <= quantity <= Z.max 0 (currentOrder + 1)).
Proof.
  intros H0 H1. unfold calculateAIOrder, bind, Math_random, ret.
  pose proof (noise_range _ H0 H1) as Hnoise.
  set (variance := Math_floor _) in *. clearbody variance.
  eexists. split; [reflexivity|]. rewrite Math_round_inject_Z. split.
  - match goal with
    | |- context [Z.max 0 (?b + variance)] =>
        pose proof (Z.le_max_l 0 (b + variance)) as Hq;
        set (q := Z.max 0 (b + variance)) in *; clearbody q
    end.
    destruct (decide (Entity.inventory entity > 20));
      [by apply Math_floor_scaled_nonneg|].
    destruct (decide (Entity.inventory entity < 3));
      [by apply Math_ceil_scaled_nonneg|done].
  - intros Hround Hinv. unfold getAIStrategy.
    destruct (decide (round < 5)); [|lia].
    destruct (decide (Entity.inventory entity > 20)); [lia|].
    destruct (decide (Entity.inventory entity < 3)); lia.
Qed.

(** X11. [assignRandomRole] with a draw in [0, 1): when the engine has roles it
    returns one of them, after one draw, and appends the round and the id of
    that role to the player's role history, leaving the entities alone; with
    no role at all it throws, after the draw and before the push. *)
Theorem random_role_is_a_role (rnd : nat -> Q) (round : Z) w :
  (0 <= rnd w.(World.draws))%Q -> (rnd w.(World.draws) < 1)%Q ->
  if decide (w.(World.engine).(GameEngine.roles) = [])
  then assignRandomRole rnd round w
       = (inl TypeError, World.mk w.(World.engine) (S w.(World.draws)))
  else exists role,
      role ∈ w.(World.engine).(GameEngine.roles)
      /\ assignRandomRole rnd round w
         = (inr role,
            World.mk
              (GameEngine.set_playerRoleHistory
                 (push w.(World.engine).(GameEngine.playerRoleHistory)
                       (PlayerRole.mk round role.(Role.id)))
                 w.(World.engine))
              (S w.(World.draws))).
Proof.
  intros H0 H1. unfold assignRandomRole, bind, getEngine, Math_random.
  destruct (decide _) as [Hnil|Hne].
  - rewrite Hnil. simpl. by rewrite at_nil.
  - pose proof (Math_floor_unit _ (Z.of_nat (length (GameEngine.roles
                                                       (World.engine w))))
                  H0 H1) as Hidx.
    destruct (GameEngine.roles (World.engine w)) as [|r0 rs] eqn:Hroles;
      [done|].
    specialize (Hidx ltac:(simpl; lia)).
    set (i := Math_floor _) in *. clearbody i.
    unfold at_. destruct (decide (i < 0)); [lia|].
    destruct (lookup_lt_is_Some_2 (r0 :: rs) (Z.to_nat i)) as [role Hrole];
      [lia|].
    rewrite Hrole. exists role. split; [|done].
    by apply (list_elem_of_lookup_2 _ (Z.to_nat i)).
Qed.

(** ** What the host reads between rounds *)

Lemma sliceLast_suffix {A} (k : nat) (l : list A) : sliceLast k l `suffix_of` l.
Proof.
  unfold sliceLast. exists (take (length l - k) l). by rewrite take_drop.
Qed.

(** X12. The state the host reads between the rounds of a game started from
    the constructor, [getRoundState]: it throws exactly for a role without
    entity; otherwise its pending orders are always empty, since every round
    shifts the order it has just queued, its inventory is the last entry of
    the inventory history, and its order history is the last ten entries of
    the entity's. *)
Theorem round_state_of_a_game (rnd : nat -> Q) (roles : list Role.t)
        (playerName : string) (turns : list (string * Z * Z))
        (round : Z) (roleId : string) :
  match getRoundState
          (World.engine (snd (play rnd turns (newWorld roles playerName))))
          round roleId with
  | inl _ =>
      entitiesOf (snd (play rnd turns (newWorld roles playerName))) !! roleId
      = None
  | inr s =>
      exists e,
        entitiesOf (snd (play rnd turns (newWorld roles playerName)))
          !! roleId = Some e
        /\ RoundState.pendingOrders s = []
        /\ last (Entity.inventoryHistory e) = Some (RoundState.inventory s)
        /\ RoundState.incomingShipments s = Entity.incomingShipments e
        /\ RoundState.orderHistory s `suffix_of` Entity.orderHistory e
        /\ length (RoundState.orderHistory s)
           = Nat.min 10 (length (Entity.orderHistory e))
  end.
Proof.
  pose proof (play_emptyOrderQueue rnd roles playerName turns) as Hqueue.
  pose proof (play_keeps_shape rnd turns _
                (newWorld_wellShaped roles playerName)) as Hshape.
  set (w := snd (play rnd turns (newWorld roles playerName))) in *.
  clearbody w. unfold getRoundState, entitiesOf in *.
  destruct (GameEngine.entities (World.engine w) !! roleId) as [e|] eqn:He;
    [|done].
  exists e.
  cbn [RoundState.pendingOrders RoundState.inventory
       RoundState.incomingShipments RoundState.orderHistory].
  specialize (Hqueue roleId e He).
  destruct (Hshape roleId e He) as [_ Hlast]. simpl in Hqueue.
  rewrite Hqueue. repeat split; try done.
  - apply sliceLast_suffix.
  - unfold sliceLast. rewrite length_drop. lia.
Qed.







(** ** The engine's responsibility score *)

Lemma engineScoreLoop_sum (entities : gmap string Entity.t) (own : Z)
      (downstream : list string) (score : Z) :
  (forall d, d ∈ downstream -> is_Some (entities !! d)) ->
  engineScoreLoop entities own downstream score
  = inr (score + Zsum (map (engineShare entities own) downstream)).
Proof.
  revert score. induction downstream as [|d rest IH]; intros score Hpresent;
    simpl.
  { f_equal. lia. }
  destruct (Hpresent d) as [x Hx]; [apply list_elem_of_here|].
  unfold engineShare at 1. rewrite Hx. rewrite IH.
  - f_equal. destruct (decide _); lia.
  - intros d' Hd'. apply Hpresent. by apply list_elem_of_further.
Qed.

Lemma engineShare_bounds (entities : gmap string Entity.t) (own : Z)
      (downstream : list string) :
  0 <= own ->
  0 <= Zsum (map (engineShare entities own) downstream)
  <= own * Z.of_nat (length downstream).
Proof.
  intros Hown. induction downstream as [|d rest IH]; [simpl; lia|].
  change (Zsum (map (engineShare entities own) (d :: rest)))
    with (engineShare entities own d
          + Zsum (map (engineShare entities own) rest)).
  assert (0 <= engineShare entities own d <= own).
  { unfold engineShare. destruct (entities !! d) as [x|]; [|lia].
    destruct (decide _); lia. }
  rewrite length_cons. lia.
Qed.

(** X14. The engine's own [calculateResponsibilityScore].  For an id
    without entity it throws, except for an id naming a property inherited
    from [Object.prototype], where it returns 0.  With the five chain
    entities present it returns, for a role with unfulfilled demand, the sum
    over the roles after it in the engine's order of the minimum of its own
    and their unfulfilled demand, counting those with some; and 0 otherwise.
    The score lies between 0 and the role's own unfulfilled demand times the
    number of roles visited, and it is 0 for the retailer. *)
Theorem engine_score_bounds (g : GameEngine.t) (roleId : string) :
  (forall r, r ∈ engineRoleOrder -> is_Some (g.(GameEngine.entities) !! r)) ->
  match g.(GameEngine.entities) !! roleId with
  | None =>
      calculateResponsibilityScore g roleId
      = if decide (roleId ∈ inheritedProperties) then inr 0
        else inl TypeError
  | Some e =>
      exists s,
        calculateResponsibilityScore g roleId = inr s
        /\ s = (if decide (Entity.unfulfilledDemand e > 0)
                then Zsum (map (engineShare g.(GameEngine.entities)
                                  (Entity.unfulfilledDemand e))
                               (engineDownstream roleId))
                else 0)
        /\ 0 <= s
        /\ s <= Z.max 0 (Entity.unfulfilledDemand e)
                * Z.of_nat (length (engineDownstream roleId))
        /\ (roleId = "retailer" -> s = 0)
  end.
Proof.
  intros Hpresent. unfold calculateResponsibilityScore.
  destruct (GameEngine.entities g !! roleId) as [e|] eqn:He; [|done].
  assert (Hds : forall d, d ∈ engineDownstream roleId ->
                          is_Some (GameEngine.entities g !! d)).
  { intros d Hd. apply Hpresent. unfold engineDownstream in Hd.
    by apply (subseteq_drop _ _ _ Hd). }
  assert (Hlast : indexOf engineRoleOrder roleId
                  < Z.of_nat (length engineRoleOrder) - 1
                  \/ engineDownstream roleId = []).
  { destruct (decide (indexOf engineRoleOrder roleId
                      < Z.of_nat (length engineRoleOrder) - 1));
      [by left|right].
    unfold engineDownstream. apply drop_ge.
    change (length engineRoleOrder) with 5%nat in *. lia. }
  destruct (decide (Entity.unfulfilledDemand e > 0)) as [Hown|Hown].
  - pose proof (engineShare_bounds (GameEngine.entities g)
                  (Entity.unfulfilledDemand e) (engineDownstream roleId)
                  ltac:(lia)) as Hbound.
    destruct (decide (_ /\ _)) as [[_ Hidx]|Hno].
    + fold (engineDownstream roleId).
      rewrite (engineScoreLoop_sum _ _ _ 0 Hds).
      eexists. split; [reflexivity|]. rewrite Z.add_0_l.
      split; [done|]. split; [lia|]. split; [lia|].
      intros ->. vm_compute in Hidx. done.
    + destruct Hlast as [Hidx|Hnil]; [exfalso; by apply Hno|].
      exists 0. rewrite Hnil in *. simpl. repeat split; try done. lia.
  - destruct (decide (_ /\ _)) as [[? _]|_]; [lia|].
    exists 0. repeat split; try done.
    pose proof (Z.le_max_l 0 (Entity.unfulfilledDemand e)). nia.
Qed.

(** ** The ranking *)

Lemma insertRanking_perm (x : Ranking.t) (l : list Ranking.t) :
  ScoreCalculator.insertRanking x l ≡ₚ x :: l.
Proof.
  induction l as [|y t IH]; simpl; [done|].
  destruct (Qle_bool _ _); [done|].
  rewrite IH. apply Permutation_swap.
Qed.

Lemma sortRankings_perm (l : list Ranking.t) :
  ScoreCalculator.sortRankings l ≡ₚ l.
Proof.
  induction l as [|x t IH]; simpl; [done|].
  rewrite insertRanking_perm. by rewrite IH.
Qed.

Lemma insertRanking_sorted (x : Ranking.t) (l : list Ranking.t) :
  Sorted cheaperFirst l ->
  Sorted cheaperFirst (ScoreCalculator.insertRanking x l).
Proof.
  induction l as [|y t IH]; intros Hs; simpl.
  { by repeat constructor. }
  destruct (Qle_bool _ _) eqn:Hle.
  - constructor; [done|]. constructor. by apply Qle_bool_iff.
  - apply Sorted_inv in Hs as [Ht Hhd]. constructor; [by apply IH|].
    assert (Hyx : cheaperFirst y x).
    { unfold cheaperFirst. apply Qnot_lt_le. intros Hlt.
      apply Qlt_le_weak, Qle_bool_iff in Hlt. congruence. }
    destruct t as [|z t']; simpl.
    + by constructor.
    + destruct (Qle_bool (Ranking.totalCosts x) (Ranking.totalCosts z));
        constructor; [done|].
      by apply HdRel_inv in Hhd.
Qed.

Lemma sortRankings_sorted (l : list Ranking.t) :
  Sorted cheaperFirst (ScoreCalculator.sortRankings l).
Proof.
  induction l as [|x t IH]; simpl; [constructor|].
  by apply insertRanking_sorted.
Qed.

Lemma numberFrom_lookup (l : list Ranking.t) (index : Z) (i : nat) :
  ScoreCalculator.numberFrom index l !! i
  = Ranking.set_rank (index + Z.of_nat i + 1) <$> l !! i.
Proof.
  revert index i. induction l as [|x t IH]; intros index i; simpl; [done|].
  destruct i as [|i]; simpl.
  - do 2 f_equal. lia.
  - rewrite IH. do 2 f_equal. lia.
Qed.

Lemma numberFrom_map {B} (f : Ranking.t -> B) (l : list Ranking.t)
      (index : Z) :
  (forall r x, f (Ranking.set_rank r x) = f x) ->
  map f (ScoreCalculator.numberFrom index l) = map f l.
Proof.
  intros Hf. revert index.
  induction l as [|x t IH]; intros index; simpl; [done|].
  by rewrite Hf, IH.
Qed.

Lemma numberFrom_sorted (l : list Ranking.t) (index : Z) :
  Sorted cheaperFirst l ->
  Sorted cheaperFirst (ScoreCalculator.numberFrom index l).
Proof.
  revert index. induction l as [|x t IH]; intros index Hs; simpl;
    [constructor|].
  apply Sorted_inv in Hs as [Ht Hhd]. constructor; [by apply IH|].
  destruct t as [|y t']; simpl; constructor.
  by apply HdRel_inv in Hhd.
Qed.

Lemma rankingsOf_entries (entities : gmap string Entity.t)
      (roleOrder : list string) (entries : list (string * Entity.t))
      (xs : list Ranking.t) :
  ScoreCalculator.rankingsOf entities roleOrder entries = inr xs ->
  map Ranking.roleId xs = map fst entries
  /\ Forall (fun x => Ranking.totalCosts x
                      = (Ranking.stockoutCosts x + Ranking.holdingCosts x)%Q)
            xs.
Proof.
  revert xs. induction entries as [|[roleId entity] rest IH]; intros xs;
    simpl.
  { intros [= <-]. by split. }
  unfold ScoreCalculator.rankingOf.
  destruct (ScoreCalculator.calculateResponsibilityScore _ _ _)
    as [|score]; [done|].
  destruct (ScoreCalculator.rankingsOf entities roleOrder rest)
    as [|xs']; [done|].
  intros [= <-]. destruct (IH xs' eq_refl) as [Hids Hcosts].
  split; simpl; [by rewrite Hids|]. by constructor.
Qed.

(** X15. [rankEntities], when no responsibility score throws: the ranking
    holds every role of the object exactly once, by ascending total costs,
    with the ranks 1, 2, ... in this order, and the total costs of an entry
    are the sum of its two cost fields. *)
Theorem rankings_are_sorted (entries : list (string * Entity.t))
        (roleOrder : list string) (rankings : list Ranking.t) :
  ScoreCalculator.rankEntities entries roleOrder = inr rankings ->
  map Ranking.roleId rankings ≡ₚ map fst entries
  /\ Sorted cheaperFirst rankings
  /\ (forall i x, rankings !! i = Some x ->
                  Ranking.rank x = Some (Z.of_nat i + 1))
  /\ Forall (fun x => Ranking.totalCosts x
                      = (Ranking.stockoutCosts x + Ranking.holdingCosts x)%Q)
            rankings.
Proof.
  unfold ScoreCalculator.rankEntities.
  destruct (ScoreCalculator.rankingsOf _ _ _) as [|xs] eqn:Hxs; [done|].
  intros [= <-]. apply rankingsOf_entries in Hxs as [Hids Hcosts].
  repeat split.
  - rewrite numberFrom_map by done. rewrite <- Hids.
    apply Permutation_map, sortRankings_perm.
  - apply numberFrom_sorted, sortRankings_sorted.
  - intros i x Hx. rewrite numberFrom_lookup in Hx.
    destruct (ScoreCalculator.sortRankings xs !! i); [|done].
    injection Hx as <-. simpl. f_equal.
  - apply Forall_forall. intros x Hx.
    apply list_elem_of_lookup in Hx as [i Hx].
    rewrite numberFrom_lookup in Hx.
    destruct (ScoreCalculator.sortRankings xs !! i) as [y|] eqn:Hy; [|done].
    injection Hx as <-. simpl.
    apply list_elem_of_lookup_2 in Hy. rewrite sortRankings_perm in Hy.
    by apply (proj1 (Forall_forall _ _) Hcosts).
Qed.

(** ** Costs and rates *)

Lemma calculateTotalCosts_from (costHistory : list Costs.t) (acc : Costs.t) :
  let total :=
    fold_left
      (fun total round =>
         Costs.mk (Costs.stockout total + Costs.stockout round)
                  (Costs.holding total + Costs.holding round)
                  (Costs.total total + Costs.total round))
      costHistory acc in
  Costs.stockout total
  == Costs.stockout acc + Qsum (map Costs.stockout costHistory)
  /\ Costs.holding total
     == Costs.holding acc + Qsum (map Costs.holding costHistory)
  /\ Costs.total total
     == Costs.total acc + Qsum (map Costs.total costHistory).
Proof.
  revert acc. induction costHistory as [|c rest IH]; intros acc; simpl.
  { repeat split; ring. }
  destruct (IH (Costs.mk (Costs.stockout acc + Costs.stockout c)
                         (Costs.holding acc + Costs.holding c)
                         (Costs.total acc + Costs.total c)))
    as (Hs & Hh & Ht).
  cbv zeta in *. simpl in *. rewrite Hs, Hh, Ht. repeat split; ring.
Qed.

Lemma Qsum_costs (rounds : list (Q * Q)) :
  Qsum (map Costs.stockout (costHistoryOf rounds)) == Qsum (map snd rounds)
  /\ Qsum (map Costs.holding (costHistoryOf rounds))
     == Qsum (map fst rounds) * (1 # 2)
  /\ Qsum (map Costs.total (costHistoryOf rounds))
     == Qsum (map snd rounds) + Qsum (map fst rounds) * (1 # 2).
Proof.
  induction rounds as [|[i u] rest (Hs & Hh & Ht)]; simpl.
  { repeat split; ring. }
  fold (costHistoryOf rest). rewrite Hs, Hh, Ht.
  unfold ScoreCalculator.COST_STOCKOUT, ScoreCalculator.COST_HOLDING.
  repeat split; ring.
Qed.

(** X16. [calculateTotalCosts] over a history of [calculateRoundCosts]
    objects: the stockout total is the sum of the unfulfilled quantities, the
    holding total is half the sum of the inventories, and the grand total is
    the sum of the two. *)
Theorem total_costs_add_up (rounds : list (Q * Q)) :
  let total := ScoreCalculator.calculateTotalCosts (costHistoryOf rounds) in
  Costs.stockout total == Qsum (map snd rounds)
  /\ Costs.holding total == Qsum (map fst rounds) * (1 # 2)
  /\ Costs.total total == Costs.stockout total + Costs.holding total.
Proof.
  unfold ScoreCalculator.calculateTotalCosts.
  destruct (calculateTotalCosts_from (costHistoryOf rounds) (Costs.mk 0 0 0))
    as (Hs & Hh & Ht).
  destruct (Qsum_costs rounds) as (Hs' & Hh' & Ht').
  cbv zeta in *. simpl in *. rewrite Hs, Hh, Ht, Hs', Hh', Ht'.
  repeat split; ring.
Qed.

(** X17. [calculateServiceLevel] and [calculateFillRate] are the same
    function: 100 when the total is 0; for a positive total and a fulfilled
    part between 0 and the total, a percentage between 0 and 100, which is
    100 exactly when everything was fulfilled. *)
Theorem service_level_is_a_percentage (fulfilled total : Q) :
  ScoreCalculator.calculateFillRate fulfilled total
  = ScoreCalculator.calculateServiceLevel fulfilled total
  /\ (total == 0 ->
      ScoreCalculator.calculateServiceLevel fulfilled total = 100%Q)
  /\ (0 < total -> 0 <= fulfilled -> fulfilled <= total ->
      0 <= ScoreCalculator.calculateServiceLevel fulfilled total
      /\ ScoreCalculator.calculateServiceLevel fulfilled total <= 100
      /\ (ScoreCalculator.calculateServiceLevel fulfilled total == 100
          <-> fulfilled == total))%Q.
Proof.
  unfold ScoreCalculator.calculateFillRate,
    ScoreCalculator.calculateServiceLevel.
  split; [done|]. split.
  - intros H. apply Qeq_bool_iff in H. by rewrite H.
  - intros Ht Hf0 Hft.
    destruct (Qeq_bool total 0) eqn:Hz.
    { apply Qeq_bool_iff in Hz. rewrite Hz in Ht. by apply Qlt_irrefl in Ht. }
    assert (Hne : ~ total == 0) by (intros H; rewrite H in Ht;
                                    by apply Qlt_irrefl in Ht).
    assert (Hinv : (0 < / total)%Q) by by apply Qinv_lt_0_compat.
    assert (Hone : (total * / total == 1)%Q) by by apply Qmult_inv_r.
    unfold Qdiv. set (i := (/ total)%Q) in *. clearbody i.
    repeat split.
    + assert (0 <= fulfilled * i)%Q; [|lra].
      apply Qmult_le_0_compat; [done|by apply Qlt_le_weak].
    + assert (fulfilled * i <= total * i)%Q; [|lra].
      apply Qmult_le_compat_r; [done|by apply Qlt_le_weak].
    + intros H.
      assert (Hfi : (fulfilled * i == total * i)%Q) by lra.
      apply Qmult_inj_r in Hfi; [done|]. intros Hi. rewrite Hi in Hinv.
      by apply Qlt_irrefl in Hinv.
    + intros H. rewrite H. lra.
Qed.

(** ** Shape of the bullwhip metrics *)






Section BullwhipShape.
Variable Math_sqrt : Q -> Q.
Variable entities : gmap string Entity.t.
Variable order : list string.


End BullwhipShape.


(** ** Player strategies *)

(** X19. [calculateOptimalOrder]: each of the five named strategies, and the
    default one, returns a non-negative order, whatever the state; any other
    strategy name returns [incomingOrder || 0] unchanged, negative orders
    included. *)
Theorem strategies_never_negative (Math_sqrt : Q -> Q) (state : State.t)
        (strategy : option string) :
  if decide (default "balanced" strategy ∈ strategyNames)
  then 0 <= PlayerLogic.calculateOptimalOrder Math_sqrt state strategy
  else PlayerLogic.calculateOptimalOrder Math_sqrt state strategy
       = orZero (State.incomingOrder state).
Proof.
  unfold PlayerLogic.calculateOptimalOrder, strategyNames.
  set (s := default "balanced" strategy). clearbody s.
  destruct (decide (s ∈ _)) as [Hin|Hout].
  - repeat destruct (decide (s = _)).
    + unfold PlayerLogic.leanStrategy. rewrite Math_round_inject_Z. lia.
    + apply balancedStrategy_nonneg.
    + apply Math_round_nonneg, Math_maxQ_nonneg.
    + unfold PlayerLogic.reactiveStrategy.
      destruct (decide _); [lia|]. apply Math_round_nonneg, Math_maxQ_nonneg.
    + unfold PlayerLogic.predictiveStrategy.
      destruct (decide _); [apply balancedStrategy_nonneg|].
      apply Math_round_nonneg, Math_maxQ_nonneg.
    + exfalso. rewrite !elem_of_cons, elem_of_nil in Hin. tauto.
  - rewrite !elem_of_cons, elem_of_nil in Hout.
    repeat (destruct (decide (s = _)); [exfalso; tauto|]). done.
Qed.

(** X20. The lean and the balanced strategies differ by the target buffer
    only: the balanced order is at least the lean order and at most 5 above
    it, and both are 0 once the expected inventory covers the incoming order
    and the buffer. *)
Theorem lean_below_balanced (state : State.t) :
  PlayerLogic.leanStrategy state <= PlayerLogic.balancedStrategy state
  /\ PlayerLogic.balancedStrategy state <= PlayerLogic.leanStrategy state + 5
  /\ (default 0 (State.incomingOrder state) + 5
      <= State.inventory state
         + sumZ (default [] (State.incomingShipments state)) ->
      PlayerLogic.balancedStrategy state = 0
      /\ PlayerLogic.leanStrategy state = 0).
Proof.
  unfold PlayerLogic.leanStrategy, PlayerLogic.balancedStrategy.
  rewrite !Math_round_inject_Z. lia.
Qed.

(** X21. [calculatePerformanceScore] is never negative; it is at most 1000
    when stockouts and average inventory are non-negative; and a bullwhip
    ratio of at most 1 carries no penalty. *)
Theorem performance_score_range (totalStockouts avgInventory bullwhipRatio : Q) :
  (0 <= PlayerLogic.calculatePerformanceScore totalStockouts avgInventory
          bullwhipRatio
   /\ (0 <= totalStockouts -> 0 <= avgInventory ->
       PlayerLogic.calculatePerformanceScore totalStockouts avgInventory
         bullwhipRatio <= 1000)
   /\ (bullwhipRatio <= 1 ->
       PlayerLogic.calculatePerformanceScore totalStockouts avgInventory
         bullwhipRatio
       == PlayerLogic.calculatePerformanceScore totalStockouts avgInventory
            1))%Q.
Proof.
  unfold PlayerLogic.calculatePerformanceScore, Math_maxQ. repeat split.
  - destruct (Qlt_le_dec 0 _); lra.
  - intros Hs Hi.
    destruct (Qlt_le_dec 0 (bullwhipRatio - 1));
      destruct (Qlt_le_dec 0 _); lra.
  - intros Hb.
    destruct (Qlt_le_dec 0 (bullwhipRatio - 1)); [lra|].
    destruct (Qlt_le_dec 0 (1 - 1)); [lra|].
    destruct (Qlt_le_dec 0 _); lra.
Qed.

Lemma sumXYFrom_push (data : list Z) (x y sum : Z) :
  PlayerLogic.sumXYFrom x (push data y) sum
  = PlayerLogic.sumXYFrom x data sum + (x + Z.of_nat (length data)) * y.
Proof.
  revert x sum. induction data as [|z rest IH]; intros x sum; simpl.
  - lia.
  - unfold push in IH. rewrite IH. lia.
Qed.

Lemma progression_S (a d : Z) (n : nat) :
  progression a d (S n) = push (progression a d n) (a + d * Z.of_nat n).
Proof. unfold progression, push. by rewrite seq_S, map_app. Qed.

Lemma length_progression (a d : Z) (n : nat) : length (progression a d n) = n.
Proof. unfold progression. by rewrite length_map, length_seq. Qed.

Lemma progression_sums (a d : Z) (n : nat) :
  2 * sumZ (progression a d n)
  = 2 * Z.of_nat n * a + d * Z.of_nat n * (Z.of_nat n - 1)
  /\ 6 * PlayerLogic.sumXYFrom 0 (progression a d n) 0
     = 3 * a * Z.of_nat n * (Z.of_nat n - 1)
       + d * Z.of_nat n * (Z.of_nat n - 1) * (2 * Z.of_nat n - 1).
Proof.
  induction n as [|n [IHy IHxy]].
  { change (progression a d 0) with (@nil Z).
    change (sumZ []) with 0. change (PlayerLogic.sumXYFrom 0 [] 0) with 0.
    change (Z.of_nat 0) with 0. lia. }
  rewrite progression_S, sumZ_push, sumXYFrom_push, length_progression.
  split; nia.
Qed.

(** X22. [calculateTrend] is 0 on fewer than two points, and on at least two
    points lying on a line it returns the slope of the line: for the orders
    [a, a + d, a + 2d, ...] the trend is [d]. *)
Theorem trend_of_a_line (a d : Z) (n : nat) :
  if decide (n < 2)%nat
  then PlayerLogic.calculateTrend (progression a d n) = 0%Q
  else PlayerLogic.calculateTrend (progression a d n) == inject_Z d.
Proof.
  unfold PlayerLogic.calculateTrend. rewrite length_progression.
  destruct (decide (n < 2)%nat) as [|Hn]; [done|].
  destruct (progression_sums a d n) as [Hy Hxy].
  apply (f_equal inject_Z) in Hy, Hxy.
  unfold Z.sub in Hy, Hxy.
  repeat (rewrite inject_Z_plus in Hy || rewrite inject_Z_mult in Hy
          || rewrite inject_Z_opp in Hy).
  repeat (rewrite inject_Z_plus in Hxy || rewrite inject_Z_mult in Hxy
          || rewrite inject_Z_opp in Hxy).
  change (inject_Z 2) with 2%Q in *. change (inject_Z 3) with 3%Q in *.
  change (inject_Z 6) with 6%Q in *. change (inject_Z 1) with 1%Q in *.
  assert (Hn2 : (2 <= inject_Z (Z.of_nat n))%Q).
  { change 2%Q with (inject_Z 2). rewrite <- Zle_Qle. lia. }
  set (N := inject_Z (Z.of_nat n)) in *.
  set (Y := inject_Z (sumZ (progression a d n))) in *.
  set (XY := inject_Z (PlayerLogic.sumXYFrom 0 (progression a d n) 0)) in *.
  set (A := inject_Z a) in *. set (D := inject_Z d) in *.
  clearbody N Y XY A D.
  pose proof (Qeq_refl (2 * Y)) as Hy'. rewrite Hy in Hy' at 2.
  pose proof (Qeq_refl (6 * XY)) as Hxy'. rewrite Hxy in Hxy' at 2.
  assert (HY : (Y == (2 * N * A + D * N * (N - 1)) / 2)%Q).
  { transitivity ((2 * Y) / 2)%Q; [field|]. rewrite Hy'. field. }
  assert (HXY : (XY == (3 * A * N * (N - 1)
                        + D * N * (N - 1) * (2 * N - 1)) / 6)%Q).
  { transitivity ((6 * XY) / 6)%Q; [field|]. rewrite Hxy'. field. }
  rewrite HY, HXY.
  assert (Hden : (0 < N * (N * (N - 1) * (2 * N - 1) / 6)
                      - N * (N - 1) / 2 * (N * (N - 1) / 2))%Q).
  { assert (Heq : (N * (N * (N - 1) * (2 * N - 1) / 6)
                   - N * (N - 1) / 2 * (N * (N - 1) / 2)
                   == N * N * ((N - 1) * (N + 1)) * (1 # 12))%Q) by field.
    rewrite Heq.
    repeat apply Qmult_lt_0_compat; lra. }
  set (den := (N * (N * (N - 1) * (2 * N - 1) / 6)
               - N * (N - 1) / 2 * (N * (N - 1) / 2))%Q) in *.
  assert (Hnum : (N * ((3 * A * N * (N - 1)
                        + D * N * (N - 1) * (2 * N - 1)) / 6)
                  - N * (N - 1) / 2 * ((2 * N * A + D * N * (N - 1)) / 2)
                  == D * den)%Q) by (unfold den; field).
  rewrite Hnum. field. intros H0. rewrite H0 in Hden.
  by apply Qlt_irrefl in Hden.
Qed.

(** ** Worked instances of the conditional properties *)

Lemma retailerTurns_nonneg : Forall (fun t => 0 <= t.1.2) retailerTurns.
Proof. unfold retailerTurns. repeat constructor; simpl; lia. Defined.

Lemma freshWorld_emptyOrderQueue : allEntities emptyOrderQueue freshWorld.
Proof. by apply initEntities_all. Defined.

Lemma halves_unitDraws : unitDraws halves.
Proof. intros n. split; unfold halves, Qle, Qlt; simpl; lia. Defined.

Lemma holding_costs_never_decrease_witness :
  allEntities nonnegEntity freshWorld
  /\ Forall (fun t => 0 <= t.1.2) retailerTurns
  /\ evolves holdsOn freshWorld (snd (play halves retailerTurns freshWorld)).
Proof.
  split; [apply newWorld_nonnegEntities|]. split; [exact retailerTurns_nonneg|].
  exact (holding_costs_never_decrease halves retailerTurns freshWorld
           (newWorld_nonnegEntities standardRoles "player")
           retailerTurns_nonneg).
Defined.

Lemma supplier_is_never_resupplied_witness :
  allEntities nonnegEntity freshWorld
  /\ Forall (fun t => 0 <= t.1.2) retailerTurns
  /\ evolves unsupplied freshWorld
       (snd (play halves retailerTurns freshWorld)).
Proof.
  split; [apply newWorld_nonnegEntities|]. split; [exact retailerTurns_nonneg|].
  exact (supplier_is_never_resupplied halves retailerTurns freshWorld
           (newWorld_nonnegEntities standardRoles "player")
           retailerTurns_nonneg).
Defined.

Lemma every_round_is_recorded_witness :
  (forall r, r ∈ roleOrder -> r ∈ map Role.id standardRoles)
  /\ Forall (fun t => t.1.1 ∈ map Role.id standardRoles) retailerTurns
  /\ exists rs,
       fst (play halves retailerTurns freshWorld) = inr rs
       /\ length rs = 2%nat
       /\ forall k, k ∈ roleOrder ->
            exists e,
              entitiesOf (snd (play halves retailerTurns freshWorld)) !! k
              = Some e
              /\ length (Entity.orderHistory e) = 2%nat
              /\ length (Entity.inventoryHistory e) = 3%nat.
Proof.
  assert (Hturns : Forall (fun t => t.1.1 ∈ map Role.id standardRoles)
                          retailerTurns).
  { unfold retailerTurns. repeat constructor. }
  split; [exact standardRoles_chain|]. split; [exact Hturns|].
  exact (every_round_is_recorded halves standardRoles "player" retailerTurns
           standardRoles_chain Hturns).
Defined.

Lemma stock_is_never_created_witness :
  allEntities nonnegEntity freshWorld
  /\ allEntities emptyOrderQueue freshWorld
  /\ Forall (fun t => 0 <= t.1.2) retailerTurns
  /\ totalStock (entitiesOf (snd (play halves retailerTurns freshWorld)))
     <= totalStock (entitiesOf freshWorld)
  /\ forall k e,
       entitiesOf (snd (play halves retailerTurns freshWorld)) !! k = Some e ->
       0 <= Entity.inventory e <= totalStock (entitiesOf freshWorld).
Proof.
  split; [apply newWorld_nonnegEntities|].
  split; [exact freshWorld_emptyOrderQueue|].
  split; [exact retailerTurns_nonneg|].
  exact (stock_is_never_created halves retailerTurns freshWorld
           (newWorld_nonnegEntities standardRoles "player")
           freshWorld_emptyOrderQueue retailerTurns_nonneg).
Defined.

Lemma customer_demand_range_witness :
  unitDraws halves
  /\ GameEngine.demandTrend (World.engine freshWorld) = generateDemandTrend
  /\ exists demand,
       getCustomerDemand halves 10 freshWorld
       = (inr demand,
          World.mk (World.engine freshWorld)
                   (if decide (1 <= 10 <= 20)
                    then S (S (World.draws freshWorld))
                    else World.draws freshWorld))
       /\ if decide (1 <= 10 <= 20)
          then (exists phase,
                   at_ generateDemandTrend (10 - 1) = Some phase
                   /\ phaseLow phase <= demand <= phaseHigh phase)
               /\ 3 <= demand <= 14
          else demand = 0.
Proof.
  split; [exact halves_unitDraws|]. split; [reflexivity|].
  exact (customer_demand_range halves 10 freshWorld halves_unitDraws eq_refl).
Defined.

Lemma ai_order_range_witness :
  (0 <= halves (World.draws freshWorld))%Q
  /\ (halves (World.draws freshWorld) < 1)%Q
  /\ exists quantity,
       calculateAIOrder halves (newEntity (Role.mk "retailer" "Retailer"))
         (getAIStrategy "retailer" 1) 5 1 freshWorld
       = (inr quantity,
          World.mk (World.engine freshWorld) (S (World.draws freshWorld)))
       /\ 0 <= quantity
       /\ (1 < 5 ->
           3 <= Entity.inventory (newEntity (Role.mk "retailer" "Retailer"))
           <= 20 ->
           Z.max 0 (5 - 2) <= quantity <= Z.max 0 (5 + 1)).
Proof.
  split; [exact (proj1 (halves_unitDraws 0%nat))|].
  split; [exact (proj2 (halves_unitDraws 0%nat))|].
  exact (ai_order_range halves (newEntity (Role.mk "retailer" "Retailer"))
           "retailer" 5 1 freshWorld (proj1 (halves_unitDraws 0%nat))
           (proj2 (halves_unitDraws 0%nat))).
Defined.

Lemma random_role_is_a_role_witness :
  (0 <= halves (World.draws freshWorld))%Q
  /\ (halves (World.draws freshWorld) < 1)%Q
  /\ exists role,
       role ∈ standardRoles
       /\ fst (assignRandomRole halves 1 freshWorld) = inr role.
Proof.
  split; [exact (proj1 (halves_unitDraws 0%nat))|].
  split; [exact (proj2 (halves_unitDraws 0%nat))|].
  pose proof (random_role_is_a_role halves 1 freshWorld
                (proj1 (halves_unitDraws 0%nat))
                (proj2 (halves_unitDraws 0%nat))) as H.
  destruct (decide (GameEngine.roles (World.engine freshWorld) = []))
    as [Hnil|_]; [discriminate Hnil|].
  destruct H as (role & Hrole & Hrun). exists role.
  split; [exact Hrole|]. rewrite Hrun. reflexivity.
Defined.

Lemma largeOrder_chain (r : string) :
  r ∈ engineRoleOrder ->
  is_Some (GameEngine.entities
             (World.engine (snd (play halves largeOrder freshWorld))) !! r).
Proof.
  unfold engineRoleOrder. rewrite !elem_of_cons, elem_of_nil.
  intros [->|[->|[->|[->|[->|[]]]]]]; vm_compute; eauto.
Defined.

Lemma engine_score_bounds_witness :
  (forall r, r ∈ engineRoleOrder ->
             is_Some (GameEngine.entities
                        (World.engine (snd (play halves largeOrder
                                              freshWorld))) !! r))
  /\ calculateResponsibilityScore
       (World.engine (snd (play halves largeOrder freshWorld))) "supplier"
     = inr 13
  /\ calculateResponsibilityScore
       (World.engine (snd (play halves largeOrder freshWorld))) "toString"
     = inr 0
  /\ calculateResponsibilityScore
       (World.engine (snd (play halves largeOrder freshWorld))) "customer"
     = inl TypeError.
Proof.
  split; [exact largeOrder_chain|].
  pose proof (engine_score_bounds
                (World.engine (snd (play halves largeOrder freshWorld)))
                "supplier" largeOrder_chain) as H1.
  pose proof (engine_score_bounds
                (World.engine (snd (play halves largeOrder freshWorld)))
                "toString" largeOrder_chain) as H2.
  pose proof (engine_score_bounds
                (World.engine (snd (play halves largeOrder freshWorld)))
                "customer" largeOrder_chain) as H3.
  split; [|split].
  - destruct (GameEngine.entities _ !! "supplier") as [e|] eqn:He;
      [|vm_compute in He; discriminate He].
    destruct H1 as (s & Hs & Hsum & _). rewrite Hs, Hsum.
    vm_compute in He. injection He as <-. vm_compute. reflexivity.
  - destruct (GameEngine.entities _ !! "toString") as [e|] eqn:He;
      [vm_compute in He; discriminate He|].
    rewrite H2. reflexivity.
  - destruct (GameEngine.entities _ !! "customer") as [e|] eqn:He;
      [vm_compute in He; discriminate He|].
    rewrite H3. reflexivity.
Defined.

Lemma rankings_are_sorted_witness :
  ScoreCalculator.rankEntities exampleEntries roleOrder = inr exampleRankings
  /\ map Ranking.roleId exampleRankings
     = ["wholesaler"; "retailer"; "distributor"]
  /\ Sorted cheaperFirst exampleRankings.
Proof.
  assert (Hrun : ScoreCalculator.rankEntities exampleEntries roleOrder
                 = inr exampleRankings) by (vm_compute; reflexivity).
  split; [exact Hrun|]. split; [vm_compute; reflexivity|].
  exact (proj1 (proj2 (rankings_are_sorted exampleEntries roleOrder
                         exampleRankings Hrun))).
Defined.

Lemma service_level_is_a_percentage_witness :
  (0 < 4)%Q /\ (0 <= 3)%Q /\ (3 <= 4)%Q
  /\ (0 <= ScoreCalculator.calculateServiceLevel 3 4)%Q
  /\ (ScoreCalculator.calculateServiceLevel 3 4 <= 100)%Q.
Proof.
  assert (H1 : (0 < 4)%Q) by (unfold Qlt; simpl; lia).
  assert (H2 : (0 <= 3)%Q) by (unfold Qle; simpl; lia).
  assert (H3 : (3 <= 4)%Q) by (unfold Qle; simpl; lia).
  split; [exact H1|]. split; [exact H2|]. split; [exact H3|].
  destruct (proj2 (proj2 (service_level_is_a_percentage 3 4)) H1 H2 H3)
    as (Hlo & Hhi & _).
  split; [exact Hlo|exact Hhi].
Defined.

Lemma lean_below_balanced_witness :
  default 0 (State.incomingOrder stockedState) + 5
  <= State.inventory stockedState
     + sumZ (default [] (State.incomingShipments stockedState))
  /\ PlayerLogic.balancedStrategy stockedState = 0
  /\ PlayerLogic.leanStrategy stockedState = 0.
Proof.
  assert (H : default 0 (State.incomingOrder stockedState) + 5
              <= State.inventory stockedState
                 + sumZ (default [] (State.incomingShipments stockedState)))
    by (vm_compute; discriminate).
  split; [exact H|].
  exact (proj2 (proj2 (lean_below_balanced stockedState)) H).
Defined.

Lemma performance_score_range_witness :
  (0 <= 2)%Q /\ (0 <= 10)%Q
  /\ (PlayerLogic.calculatePerformanceScore 2 10 (1 # 2) <= 1000)%Q.
Proof.
  assert (H1 : (0 <= 2)%Q) by (unfold Qle; simpl; lia).
  assert (H2 : (0 <= 10)%Q) by (unfold Qle; simpl; lia).
  split; [exact H1|]. split; [exact H2|].
  exact (proj1 (proj2 (performance_score_range 2 10 (1 # 2))) H1 H2).
Defined.
